(** * Easy-2D-Openpose-Editor: the pose engine of [App.tsx]

    A shallow embedding of the keypoint / constraint engine of the editor
    (types.ts, constants.ts and the handlers of the [App] component) and
    the properties of it that the specification states.

    Conventions of the embedding.
    - A JavaScript [number] holding a coordinate, a distance or a factor is
      a real number ([R]); the results below are therefore statements over
      exact real arithmetic.  Joint ids and array indices are [nat].
    - A [Keypoint[]] is a [list Keypoint]; [find] and [findIndex] return the
      first match, as in JavaScript.
    - The constraint object [Record<string, number>] is an association list
      in insertion order (the order [Object.keys] and [Object.entries]
      enumerate such keys); the key ["a-b"] is kept as the pair [(a, b)]
      that [key.split('-').map(Number)] reads back from it.
    - A [Set<number>] is the list of its elements in insertion order.
    - React state is one record [App]; an event handler is a function on
      it.  Handlers run to completion one after the other, each seeing the
      state the previous one left.  The one asynchronous handler,
      [handleAutoDetect], is given as one step, for a run in which no other
      handler comes between its call and the answer of [detectPose], and
      in its two halves, [detectBegin] and [detectResume].
    - [alert(msg)] appends [msg] to the [alerts] field.
    - Loops whose termination is not structural take fuel and return
      [Err OutOfFuel] when it runs out; the fuel given by the handlers is
      shown to be enough.  The divisions of the drag engine are checked:
      a zero divisor yields [Err DivisionByZero]. *)

From Stdlib Require Import Reals Lra Lia List Ascii String Bool Arith PeanoNat.
Import ListNotations.

Set Implicit Arguments.

(** ** Results of fallible computations *)

Inductive error : Type :=
| OutOfFuel
| DivisionByZero
| TypeError.

Inductive result (A : Type) : Type :=
| Ok (a : A)
| Err (e : error).

Arguments Ok {A} a.
Arguments Err {A} e.

Definition bind {A B : Type} (m : result A) (k : A -> result B) : result B :=
  match m with
  | Ok a => k a
  | Err e => Err e
  end.

Notation "x <- m ;; k" := (bind m (fun x => k))
  (at level 61, m at next level, right associativity).

(** Checked division: the quotient, or an error on a zero divisor. *)
Definition checked_div (a b : R) : result R :=
  if Req_dec_T b 0 then Err DivisionByZero else Ok (a / b)%R.

(** ** types.ts *)

Record Point : Type := mkPoint { pt_x : R; pt_y : R }.

Record Keypoint : Type := mkKeypoint {
  kp_id : nat;
  kp_name : string;
  kp_x : R;
  kp_y : R;
  kp_visible : bool;
  kp_locked : bool;
  kp_anchored : option bool;   (* [anchored?: boolean] *)
  kp_color : string;
  kp_rgb : nat * nat * nat
}.

Record Size : Type := mkSize { width : R; height : R }.

(** Object spreads [{ ...kp, field: v }]. *)
Definition with_xy (kp : Keypoint) (x y : R) : Keypoint :=
  mkKeypoint (kp_id kp) (kp_name kp) x y (kp_visible kp) (kp_locked kp)
             (kp_anchored kp) (kp_color kp) (kp_rgb kp).

Definition with_x (kp : Keypoint) (x : R) : Keypoint := with_xy kp x (kp_y kp).

Definition with_y (kp : Keypoint) (y : R) : Keypoint := with_xy kp (kp_x kp) y.

Definition with_visible (kp : Keypoint) (v : bool) : Keypoint :=
  mkKeypoint (kp_id kp) (kp_name kp) (kp_x kp) (kp_y kp) v (kp_locked kp)
             (kp_anchored kp) (kp_color kp) (kp_rgb kp).

Definition with_xy_visible (kp : Keypoint) (x y : R) (v : bool) : Keypoint :=
  with_visible (with_xy kp x y) v.

Definition with_locked (kp : Keypoint) (l : bool) : Keypoint :=
  mkKeypoint (kp_id kp) (kp_name kp) (kp_x kp) (kp_y kp) (kp_visible kp) l
             (kp_anchored kp) (kp_color kp) (kp_rgb kp).

Definition with_anchored (kp : Keypoint) (a : bool) : Keypoint :=
  mkKeypoint (kp_id kp) (kp_name kp) (kp_x kp) (kp_y kp) (kp_visible kp)
             (kp_locked kp) (Some a) (kp_color kp) (kp_rgb kp).

(** Truthiness of the optional [anchored] flag. *)
Definition is_anchored (kp : Keypoint) : bool :=
  match kp_anchored kp with
  | Some b => b
  | None => false
  end.

(** [kps.find(k => k.id === id)] and [kps.findIndex(k => k.id === id)]. *)
Definition find_kp (id : nat) (kps : list Keypoint) : option Keypoint :=
  find (fun k => kp_id k =? id) kps.

Fixpoint findIndex_kp (id : nat) (kps : list Keypoint) : option nat :=
  match kps with
  | [] => None
  | k :: rest =>
      if kp_id k =? id then Some 0
      else option_map S (findIndex_kp id rest)
  end.

(** [arr[i] = v] on a copy of the array, for an index inside it. *)
Fixpoint set_nth {A : Type} (i : nat) (v : A) (l : list A) : list A :=
  match l, i with
  | [], _ => []
  | _ :: rest, O => v :: rest
  | a :: rest, S i' => a :: set_nth i' v rest
  end.

(** [set.has(n)] on a set of numbers. *)
Definition has (s : list nat) (n : nat) : bool := existsb (Nat.eqb n) s.

(** ** constants.ts *)

Definition KEYPOINT_NAMES : list string :=
  [ "Nose"; "Neck"; "R_Shoulder"; "R_Elbow"; "R_Wrist";
    "L_Shoulder"; "L_Elbow"; "L_Wrist"; "R_Hip"; "R_Knee";
    "R_Ankle"; "L_Hip"; "L_Knee"; "L_Ankle"; "R_Eye";
    "L_Eye"; "R_Ear"; "L_Ear" ]%string.

Definition JOINT_COLORS_RGB : list (nat * nat * nat) :=
  [ (255, 0, 0); (255, 85, 0); (255, 170, 0); (255, 255, 0); (170, 255, 0);
    (85, 255, 0); (0, 255, 0); (0, 255, 85); (0, 255, 170); (0, 255, 255);
    (0, 170, 255); (0, 85, 255); (0, 0, 255); (85, 0, 255); (170, 0, 255);
    (255, 0, 255); (255, 0, 170); (255, 0, 85) ].

Definition LIMB_PAIRS : list (nat * nat) :=
  [ (1, 2); (1, 5); (2, 3); (3, 4); (5, 6); (6, 7);
    (1, 8); (8, 9); (9, 10); (1, 11); (11, 12); (12, 13);
    (1, 0); (0, 14); (14, 16); (0, 15); (15, 17) ].

Definition hexDigit (n : nat) : Ascii.ascii :=
  nth n [ "0"; "1"; "2"; "3"; "4"; "5"; "6"; "7"; "8"; "9";
          "a"; "b"; "c"; "d"; "e"; "f" ]%char "0"%char.

(** [x.toString(16)] for a natural number. *)
Fixpoint toString16_from (fuel n : nat) (acc : string) : string :=
  match fuel with
  | O => acc
  | S fuel' =>
      let acc' := String (hexDigit (n mod 16)) acc in
      if n / 16 =? 0 then acc' else toString16_from fuel' (n / 16) acc'
  end.

Definition toString16 (n : nat) : string := toString16_from (S n) n EmptyString.

Definition rgbToHex (c : nat * nat * nat) : string :=
  let '(r, g, b) := c in
  let two n :=
    let hex := toString16 n in
    if String.length hex =? 1 then ("0" ++ hex)%string else hex in
  ("#" ++ two r ++ two g ++ two b)%string.

(** [KEYPOINT_NAMES.map((name, i) => ...)]. *)
Fixpoint initial_from (i : nat) (names : list string) : list Keypoint :=
  match names with
  | [] => []
  | name :: rest =>
      let c := nth i JOINT_COLORS_RGB (0, 0, 0) in
      mkKeypoint i name 0 0 true false None (rgbToHex c) c
      :: initial_from (S i) rest
  end.

Definition INITIAL_KEYPOINTS : list Keypoint := initial_from 0 KEYPOINT_NAMES.

(** Parent -> children hierarchy for the visibility cascade; [None] is a
    key the object does not have. *)
Definition POSE_HIERARCHY (parent : nat) : option (list nat) :=
  match parent with
  | 1 => Some [0; 2; 5; 8; 11]
  | 0 => Some [14; 15]
  | 2 => Some [3]
  | 3 => Some [4]
  | 5 => Some [6]
  | 6 => Some [7]
  | 8 => Some [9]
  | 9 => Some [10]
  | 11 => Some [12]
  | 12 => Some [13]
  | 14 => Some [16]
  | 15 => Some [17]
  | _ => None
  end.

Definition DEFAULT_POSE_COORDS : list Point :=
  [ mkPoint 256 55; mkPoint 256 115; mkPoint 206 115; mkPoint 186 195;
    mkPoint 166 255; mkPoint 306 115; mkPoint 326 195; mkPoint 346 255;
    mkPoint 226 255; mkPoint 226 355; mkPoint 226 455; mkPoint 286 255;
    mkPoint 286 355; mkPoint 286 455; mkPoint 246 45; mkPoint 266 45;
    mkPoint 226 50; mkPoint 286 50 ].

(** ** The state of [App] *)

Definition Key : Type := (nat * nat)%type.

Definition Constraints : Type := list (Key * R).

Record HistoryState : Type := mkHistoryState {
  hs_keypoints : list Keypoint;
  hs_constraints : Constraints
}.

Record History : Type := mkHistory {
  past : list HistoryState;
  future : list HistoryState
}.

Inductive LockedJointMode : Type := translate | rotate.

Record App : Type := mkApp {
  size : Size;
  bgImage : option string;
  lockedJointMode : LockedJointMode;
  isProcessing : bool;
  isTransforming : bool;
  history : History;
  constraints : Constraints;
  keypoints : list Keypoint;
  transformBaseRef : option HistoryState;
  alerts : list string
}.

Definition setSize (v : Size) (st : App) : App :=
  mkApp v (bgImage st) (lockedJointMode st) (isProcessing st)
        (isTransforming st) (history st) (constraints st) (keypoints st)
        (transformBaseRef st) (alerts st).

Definition setBgImage (v : option string) (st : App) : App :=
  mkApp (size st) v (lockedJointMode st) (isProcessing st)
        (isTransforming st) (history st) (constraints st) (keypoints st)
        (transformBaseRef st) (alerts st).

Definition setLockedJointMode (v : LockedJointMode) (st : App) : App :=
  mkApp (size st) (bgImage st) v (isProcessing st)
        (isTransforming st) (history st) (constraints st) (keypoints st)
        (transformBaseRef st) (alerts st).

Definition setIsProcessing (v : bool) (st : App) : App :=
  mkApp (size st) (bgImage st) (lockedJointMode st) v
        (isTransforming st) (history st) (constraints st) (keypoints st)
        (transformBaseRef st) (alerts st).

Definition setIsTransforming (v : bool) (st : App) : App :=
  mkApp (size st) (bgImage st) (lockedJointMode st) (isProcessing st)
        v (history st) (constraints st) (keypoints st)
        (transformBaseRef st) (alerts st).

Definition setHistory (v : History) (st : App) : App :=
  mkApp (size st) (bgImage st) (lockedJointMode st) (isProcessing st)
        (isTransforming st) v (constraints st) (keypoints st)
        (transformBaseRef st) (alerts st).

Definition setConstraints (v : Constraints) (st : App) : App :=
  mkApp (size st) (bgImage st) (lockedJointMode st) (isProcessing st)
        (isTransforming st) (history st) v (keypoints st)
        (transformBaseRef st) (alerts st).

Definition setKeypoints (v : list Keypoint) (st : App) : App :=
  mkApp (size st) (bgImage st) (lockedJointMode st) (isProcessing st)
        (isTransforming st) (history st) (constraints st) v
        (transformBaseRef st) (alerts st).

Definition setTransformBase (v : option HistoryState) (st : App) : App :=
  mkApp (size st) (bgImage st) (lockedJointMode st) (isProcessing st)
        (isTransforming st) (history st) (constraints st) (keypoints st)
        v (alerts st).

Definition alert (msg : string) (st : App) : App :=
  mkApp (size st) (bgImage st) (lockedJointMode st) (isProcessing st)
        (isTransforming st) (history st) (constraints st) (keypoints st)
        (transformBaseRef st) (alerts st ++ [msg]).

(** The current (keypoints, constraints) snapshot. *)
Definition snapshot (st : App) : HistoryState :=
  mkHistoryState (keypoints st) (constraints st).

(** ** History management *)

Definition recordHistory (st : App) : App :=
  setHistory (mkHistory (past (history st) ++ [snapshot st]) []) st.

Definition undo (st : App) : App :=
  let curr := history st in
  match rev (past curr) with
  | [] => st
  | previous :: newPastRev =>
      setHistory (mkHistory (rev newPastRev) (snapshot st :: future curr))
        (setConstraints (hs_constraints previous)
           (setKeypoints (hs_keypoints previous) st))
  end.

Definition redo (st : App) : App :=
  let curr := history st in
  match future curr with
  | [] => st
  | next :: newFuture =>
      setHistory (mkHistory (past curr ++ [snapshot st]) newFuture)
        (setConstraints (hs_constraints next)
           (setKeypoints (hs_keypoints next) st))
  end.

(** ** Drag engine: [handleDragStart], [handleKeypointMove], [handleSkeletonDrag] *)

Definition handleDragStart (st : App) : App := recordHistory st.

(** The body of [Object.keys(constraints).forEach] for the dequeued joint
    [currId]; the pair is [(connectedIds, queue)]. *)
Definition visit_key (currId : nat) (acc : list nat * list nat) (key : Key)
  : list nat * list nat :=
  let '(p1, p2) := key in
  let '(connectedIds, queue) := acc in
  if (p1 =? currId) || (p2 =? currId) then
    let neighbor := if p1 =? currId then p2 else p1 in
    if has connectedIds neighbor then acc
    else (connectedIds ++ [neighbor], queue ++ [neighbor])
  else acc.

(** [while (head < queue.length) { currId = queue[head++]; ... }] *)
Fixpoint component_loop (fuel : nat) (keys : list Key) (head : nat)
  (connectedIds queue : list nat) : result (list nat) :=
  match nth_error queue head with
  | None => Ok connectedIds
  | Some currId =>
      match fuel with
      | O => Err OutOfFuel
      | S fuel' =>
          let '(c, q) := fold_left (visit_key currId) keys (connectedIds, queue) in
          component_loop fuel' keys (S head) c q
      end
  end.

(** [Object.keys(constraints)]. *)
Definition keysOf (cs : Constraints) : list Key := map fst cs.

(** The search for the joints connected to [id] through constraints, from
    [connectedIds = {id}] and [queue = [id]].  Every joint enters the queue
    once and is either [id] or named by a key, which bounds the fuel. *)
Definition connectedComponent (cs : Constraints) (id : nat) : result (list nat) :=
  component_loop (S (2 * List.length cs)) (keysOf cs) 0 [id] [id].

Definition touches (id : nat) (entry : Key * R) : bool :=
  let '((p1, p2), _) := entry in (p1 =? id) || (p2 =? id).

Definition activeConstraints (cs : Constraints) (id : nat) : Constraints :=
  filter (touches id) cs.

Record Accum : Type := mkAccum { sumX : R; sumY : R; count : nat }.

(** The body of [activeConstraints.forEach]: the candidate position that one
    constraint asks for, added to the running sums. *)
Definition project (prev : list Keypoint) (id : nat) (x y : R)
  (acc : result Accum) (entry : Key * R) : result Accum :=
  a <- acc ;;
  let '((p1, p2), targetDist) := entry in
  let otherId := if p1 =? id then p2 else p1 in
  match find_kp otherId prev with
  | Some otherKp =>
      let dx := (x - kp_x otherKp)%R in
      let dy := (y - kp_y otherKp)%R in
      let currentDist := sqrt (dx * dx + dy * dy) in
      if Rlt_dec 0 currentDist then
        scale <- checked_div targetDist currentDist ;;
        let constrainedX := (kp_x otherKp + dx * scale)%R in
        let constrainedY := (kp_y otherKp + dy * scale)%R in
        Ok (mkAccum (sumX a + constrainedX) (sumY a + constrainedY) (S (count a)))
      else Ok a
  | None => Ok a
  end.

(** The position the dragged joint takes in constraint mode. *)
Definition resolve (cs : Constraints) (id : nat) (x y : R) (prev : list Keypoint)
  : result (R * R) :=
  let active := activeConstraints cs id in
  if 0 <? List.length active then
    a <- fold_left (project prev id x y) active (Ok (mkAccum 0 0 0)) ;;
    if 0 <? count a then
      nextX <- checked_div (sumX a) (INR (count a)) ;;
      nextY <- checked_div (sumY a) (INR (count a)) ;;
      Ok (nextX, nextY)
    else Ok (x, y)
  else Ok (x, y).

(** The updater that [handleKeypointMove] passes to [setKeypoints]. *)
Definition moveKeypoint (cs : Constraints) (mode : LockedJointMode)
  (id : nat) (x y : R) (prev : list Keypoint) : result (list Keypoint) :=
  match find_kp id prev with
  | None => Ok prev
  | Some sourceKp =>
      connectedIds <- connectedComponent cs id ;;
      match mode with
      | translate =>
          let dx := (x - kp_x sourceKp)%R in
          let dy := (y - kp_y sourceKp)%R in
          Ok (map (fun kp =>
                     if has connectedIds (kp_id kp)
                     then with_xy kp (kp_x kp + dx) (kp_y kp + dy)
                     else kp) prev)
      | rotate =>
          next <- resolve cs id x y prev ;;
          Ok (map (fun kp =>
                     if kp_id kp =? id then with_xy kp (fst next) (snd next)
                     else kp) prev)
      end
  end.

Definition handleKeypointMove (id : nat) (x y : R) (st : App) : result App :=
  kps <- moveKeypoint (constraints st) (lockedJointMode st) id x y (keypoints st) ;;
  Ok (setKeypoints kps st).

Definition handleSkeletonDrag (dx dy : R) (st : App) : App :=
  setKeypoints
    (map (fun kp => with_xy kp (kp_x kp + dx) (kp_y kp + dy)) (keypoints st)) st.

(** ** Visibility cascade and the other toggles *)

(** The body of [children.forEach]; the pair is [(idsToUpdate, queue)]. *)
Definition visit_child (acc : list nat * list nat) (childId : nat)
  : list nat * list nat :=
  let '(idsToUpdate, queue) := acc in
  if has idsToUpdate childId then acc
  else (idsToUpdate ++ [childId], queue ++ [childId]).

(** [while (queue.length > 0) { currentId = queue.shift(); ... }] *)
Fixpoint cascade_loop (fuel : nat) (idsToUpdate queue : list nat)
  : result (list nat) :=
  match queue with
  | [] => Ok idsToUpdate
  | currentId :: rest =>
      match fuel with
      | O => Err OutOfFuel
      | S fuel' =>
          match POSE_HIERARCHY currentId with
          | Some children =>
              let '(ids, q) := fold_left visit_child children (idsToUpdate, rest) in
              cascade_loop fuel' ids q
          | None => cascade_loop fuel' idsToUpdate rest
          end
      end
  end.

(** The updater that [handleToggleVisibility] passes to [setKeypoints]. *)
Definition toggleVisibility (id : nat) (prev : list Keypoint)
  : result (list Keypoint) :=
  match find_kp id prev with
  | None => Ok prev
  | Some target =>
      let newVisible := negb (kp_visible target) in
      idsToUpdate <- (if newVisible then Ok [id] else cascade_loop 19 [id] [id]) ;;
      Ok (map (fun kp =>
                 if has idsToUpdate (kp_id kp)
                 then with_visible kp (if newVisible then kp_id kp =? id else false)
                 else kp) prev)
  end.

Definition handleToggleVisibility (id : nat) (st : App) : result App :=
  let st1 := recordHistory st in
  kps <- toggleVisibility id (keypoints st1) ;;
  Ok (setKeypoints kps st1).

Definition handleToggleLock (id : nat) (st : App) : App :=
  let st1 := recordHistory st in
  setKeypoints
    (map (fun kp => if kp_id kp =? id then with_locked kp (negb (kp_locked kp)) else kp)
         (keypoints st1)) st1.

Definition handleToggleAnchor (id : nat) (st : App) : App :=
  let st1 := recordHistory st in
  setKeypoints
    (map (fun kp => if kp_id kp =? id then with_anchored kp (negb (is_anchored kp)) else kp)
         (keypoints st1)) st1.

Definition handleToggleAllLock (st : App) : App :=
  let st1 := recordHistory st in
  let allLocked := forallb kp_locked (keypoints st1) in
  setKeypoints (map (fun kp => with_locked kp (negb allLocked)) (keypoints st1)) st1.

Definition handleToggleAllVisibility (st : App) : App :=
  let st1 := recordHistory st in
  let allVisible := forallb kp_visible (keypoints st1) in
  setKeypoints (map (fun kp => with_visible kp (negb allVisible)) (keypoints st1)) st1.

(** ** Transform engine *)

(** The bounding box that [getPoseCenter] accumulates.  [None] stands for
    the initial accumulators ([Infinity], [-Infinity], [count = 0]):
    [Math.min(Infinity, v)] and [Math.max(-Infinity, v)] are both [v]. *)
Record Bounds : Type := mkBounds { minX : R; maxX : R; minY : R; maxY : R }.

Definition grow (acc : option Bounds) (kp : Keypoint) : option Bounds :=
  if kp_visible kp then
    match acc with
    | None => Some (mkBounds (kp_x kp) (kp_x kp) (kp_y kp) (kp_y kp))
    | Some b =>
        Some (mkBounds (Rmin (minX b) (kp_x kp)) (Rmax (maxX b) (kp_x kp))
                       (Rmin (minY b) (kp_y kp)) (Rmax (maxY b) (kp_y kp)))
    end
  else acc.

Definition getPoseCenter (kps : list Keypoint) : option Point :=
  match fold_left grow kps None with
  | None => None
  | Some b => Some (mkPoint ((minX b + maxX b) / 2) ((minY b + maxY b) / 2))
  end.

Definition getPivotPoint (sz : Size) (kps : list Keypoint) : Point :=
  let anchors := filter is_anchored kps in
  if 0 <? List.length anchors then
    let sx := fold_left (fun acc k => (acc + kp_x k)%R) anchors 0%R in
    let sy := fold_left (fun acc k => (acc + kp_y k)%R) anchors 0%R in
    mkPoint (sx / INR (List.length anchors)) (sy / INR (List.length anchors))
  else
    match getPoseCenter kps with
    | Some center => center
    | None => mkPoint (width sz / 2) (height sz / 2)
    end.

Definition flipHorizontal (sz : Size) (prev : list Keypoint) : list Keypoint :=
  let cx := match getPoseCenter prev with
            | Some center => pt_x center
            | None => (width sz / 2)%R
            end in
  map (fun kp => with_x kp (cx + (cx - kp_x kp))) prev.

Definition flipVertical (sz : Size) (prev : list Keypoint) : list Keypoint :=
  let cy := match getPoseCenter prev with
            | Some center => pt_y center
            | None => (height sz / 2)%R
            end in
  map (fun kp => with_y kp (cy + (cy - kp_y kp))) prev.

Definition handleFlipHorizontal (st : App) : App :=
  let st1 := recordHistory st in
  setKeypoints (flipHorizontal (size st1) (keypoints st1)) st1.

Definition handleFlipVertical (st : App) : App :=
  let st1 := recordHistory st in
  setKeypoints (flipVertical (size st1) (keypoints st1)) st1.

(** The mirror axis: Neck (1) if visible, else Nose (0) if visible, else
    the middle of the canvas. *)
Definition mirrorAxis (sz : Size) (prev : list Keypoint) : R :=
  match find_kp 1 prev with
  | Some neck =>
      if kp_visible neck then kp_x neck
      else match find_kp 0 prev with
           | Some nose => if kp_visible nose then kp_x nose else (width sz / 2)%R
           | None => (width sz / 2)%R
           end
  | None =>
      match find_kp 0 prev with
      | Some nose => if kp_visible nose then kp_x nose else (width sz / 2)%R
      | None => (width sz / 2)%R
      end
  end.

(** The symmetric pairs [{ r, l }], as [(r, l)]. *)
Definition MIRROR_PAIRS : list (nat * nat) :=
  [ (2, 5); (3, 6); (4, 7); (8, 11); (9, 12); (10, 13); (14, 15); (16, 17) ].

(** The body of [pairs.forEach]: joint [dst] of [newKps] takes the reflected
    position and the visibility of joint [src] of [prev]. *)
Definition mirror_step (axisX : R) (prev : list Keypoint) (src dst : nat)
  (newKps : list Keypoint) : list Keypoint :=
  match find_kp src prev with
  | Some srcKp =>
      match findIndex_kp dst newKps with
      | Some i =>
          match nth_error newKps i with
          | Some old =>
              set_nth i (with_xy_visible old (axisX + (axisX - kp_x srcKp))
                                         (kp_y srcKp) (kp_visible srcKp)) newKps
          | None => newKps
          end
      | None => newKps
      end
  | None => newKps
  end.

Definition mirrorLeftToRight (sz : Size) (prev : list Keypoint) : list Keypoint :=
  let axisX := mirrorAxis sz prev in
  fold_left (fun newKps '(r, l) => mirror_step axisX prev l r newKps)
            MIRROR_PAIRS prev.

Definition mirrorRightToLeft (sz : Size) (prev : list Keypoint) : list Keypoint :=
  let axisX := mirrorAxis sz prev in
  fold_left (fun newKps '(r, l) => mirror_step axisX prev r l newKps)
            MIRROR_PAIRS prev.

Definition handleMirrorLeftToRight (st : App) : App :=
  let st1 := recordHistory st in
  setKeypoints (mirrorLeftToRight (size st1) (keypoints st1)) st1.

Definition handleMirrorRightToLeft (st : App) : App :=
  let st1 := recordHistory st in
  setKeypoints (mirrorRightToLeft (size st1) (keypoints st1)) st1.

Definition handleScaleStart (st : App) : App :=
  setTransformBase (Some (snapshot st)) (recordHistory st).

Definition scaleKeypoints (pivot : Point) (factor : R) (base : list Keypoint)
  : list Keypoint :=
  map (fun kp => with_xy kp (pt_x pivot + (kp_x kp - pt_x pivot) * factor)
                            (pt_y pivot + (kp_y kp - pt_y pivot) * factor)) base.

Definition scaleConstraints (factor : R) (base : Constraints) : Constraints :=
  map (fun '(key, dist) => (key, (dist * factor)%R)) base.

Definition handleScale (factor : R) (st : App) : App :=
  match transformBaseRef st with
  | None => st
  | Some base =>
      let pivot := getPivotPoint (size st) (hs_keypoints base) in
      setConstraints (scaleConstraints factor (hs_constraints base))
        (setKeypoints (scaleKeypoints pivot factor (hs_keypoints base)) st)
  end.

Definition handleTransformStart (st : App) : App :=
  setTransformBase (Some (snapshot st)) (setIsTransforming true (recordHistory st)).

Definition handleTransform (rotateZ scaleX : R) (st : App) : App :=
  match transformBaseRef st with
  | None => st
  | Some base =>
      let pivot := getPivotPoint (size st) (hs_keypoints base) in
      let cx := pt_x pivot in
      let cy := pt_y pivot in
      let radZ := (rotateZ * PI / 180)%R in
      setKeypoints
        (map (fun kp =>
                let rx := ((kp_x kp - cx) * scaleX)%R in
                let ry := (kp_y kp - cy)%R in
                let rotatedX := (rx * cos radZ - ry * sin radZ)%R in
                let rotatedY := (rx * sin radZ + ry * cos radZ)%R in
                with_xy kp (cx + rotatedX) (cy + rotatedY))
             (hs_keypoints base)) st
  end.

(** The body of [Object.keys(prev).forEach] in [handleTransformEnd]: a key
    whose two joints exist gets their present distance, any other key is
    dropped. *)
Definition remeasure (kps : list Keypoint) (entry : Key * R) : list (Key * R) :=
  let '((p1, p2), _) := entry in
  match find_kp p1 kps, find_kp p2 kps with
  | Some kp1, Some kp2 =>
      [((p1, p2), sqrt ((kp_x kp1 - kp_x kp2) ^ 2 + (kp_y kp1 - kp_y kp2) ^ 2))]
  | _, _ => []
  end.

Definition handleTransformEnd (st : App) : App :=
  setConstraints (flat_map (remeasure (keypoints st)) (constraints st))
    (setTransformBase None (setIsTransforming false st)).

(** ** Reset *)

(** [Math.min(...vs)] and [Math.max(...vs)] of a list that is not empty. *)
Definition list_min (vs : list R) : R :=
  match vs with
  | [] => 0%R
  | v :: rest => fold_left Rmin rest v
  end.

Definition list_max (vs : list R) : R :=
  match vs with
  | [] => 0%R
  | v :: rest => fold_left Rmax rest v
  end.

Definition generateFittedKeypoints (targetWidth targetHeight : R) : list Keypoint :=
  let ys := map pt_y DEFAULT_POSE_COORDS in
  let xs := map pt_x DEFAULT_POSE_COORDS in
  let refHeight := (list_max ys - list_min ys)%R in
  let refCenterY := ((list_min ys + list_max ys) / 2)%R in
  let refCenterX := ((list_min xs + list_max xs) / 2)%R in
  let targetPoseHeight := (targetHeight * (75 / 100))%R in
  let scaleFactor := (targetPoseHeight / refHeight)%R in
  map (fun '(kp, def) =>
         with_xy kp ((pt_x def - refCenterX) * scaleFactor + targetWidth / 2)
                    ((pt_y def - refCenterY) * scaleFactor + targetHeight / 2))
      (combine INITIAL_KEYPOINTS DEFAULT_POSE_COORDS).

Definition handleReset (st : App) : App :=
  let st1 := recordHistory st in
  setKeypoints (generateFittedKeypoints (width (size st1)) (height (size st1)))
    (setConstraints [] st1).

(** ** Import of a pose file *)

(** What [JSON.parse] of the file yields, as far as the handler looks:
    [people[0]] and [canvas_config]. *)
Inductive Person : Type :=
| PersonNullish                                    (* [null]: reading a property of it throws *)
| PersonData (pose_keypoints_2d : option (list R)). (* [None]: the field is missing or no array *)

Inductive ImportFile : Type :=
| Unparsable                                        (* [JSON.parse] throws *)
| NoPeopleArray                                     (* [people] missing or no array *)
| Parsed (canvas_config : option (R * R)) (people : list Person).

Definition MSG_NO_PEOPLE_ARRAY : string :=
  "Invalid OpenPose JSON format: 'people' array missing.".
Definition MSG_NO_PEOPLE : string := "No people found in JSON.".
Definition MSG_NO_KEYPOINTS : string := "No 2D keypoints found.".
Definition MSG_PARSE_ERROR : string := "Error parsing JSON file.".

Definition getKeypoint (kpArray : list R) (idx : nat) : option (R * R * R) :=
  let base := idx * 3 in
  if List.length kpArray <=? base + 2 then None
  else Some (nth base kpArray 0%R, nth (base + 1) kpArray 0%R,
             nth (base + 2) kpArray 0%R).

Definition is_zero (v : R) : bool := if Req_dec_T v 0 then true else false.

(** The body of both [newKeypoints.map] calls, for source index [srcIdx]. *)
Definition import_joint (kpArray : list R) (srcIdx : nat) (kp : Keypoint) : Keypoint :=
  match getKeypoint kpArray srcIdx with
  | Some (vx, vy, _) =>
      with_xy_visible kp vx vy (negb (is_zero vx) || negb (is_zero vy))
  | None => kp
  end.

(** BODY_25 index of each of the 18 joints. *)
Definition BODY25_MAPPING : list nat :=
  [ 0; 1; 2; 3; 4; 5; 6; 7; 9; 10; 11; 12; 13; 14; 15; 16; 17; 18 ].

(** [newKeypoints.map((kp, i) => ...)] with the BODY_25 table.  A keypoint
    past the table (a 19th one, which the app never has) would read
    [mapping[i]] past its end; the model stops there with an error. *)
Fixpoint import_body25 (kpArray : list R) (i : nat) (kps : list Keypoint)
  : result (list Keypoint) :=
  match kps with
  | [] => Ok []
  | kp :: rest =>
      match nth_error BODY25_MAPPING i with
      | Some srcIdx =>
          rest' <- import_body25 kpArray (S i) rest ;;
          Ok (import_joint kpArray srcIdx kp :: rest')
      | None => Err TypeError
      end
  end.

(** [newKeypoints.map((kp, i) => ...)] with the direct mapping. *)
Fixpoint import_direct (kpArray : list R) (i : nat) (kps : list Keypoint)
  : list Keypoint :=
  match kps with
  | [] => []
  | kp :: rest => import_joint kpArray i kp :: import_direct kpArray (S i) rest
  end.

Definition importKeypoints (kpArray : list R) (kps : list Keypoint)
  : result (list Keypoint) :=
  if 75 <=? List.length kpArray then import_body25 kpArray 0 kps
  else Ok (import_direct kpArray 0 kps).

(** The [reader.onload] callback of [handleImportJson]. *)
Definition handleImportJson (file : ImportFile) (st : App) : result App :=
  match file with
  | Unparsable => Ok (alert MSG_PARSE_ERROR st)
  | NoPeopleArray => Ok (alert MSG_NO_PEOPLE_ARRAY st)
  | Parsed _ [] => Ok (alert MSG_NO_PEOPLE st)
  | Parsed canvas_config (person :: _) =>
      let st1 := recordHistory st in
      let st2 := match canvas_config with
                 | Some (w, h) =>
                     if negb (is_zero w) && negb (is_zero h)
                     then setSize (mkSize w h) st1 else st1
                 | None => st1
                 end in
      match person with
      | PersonNullish => Ok (alert MSG_PARSE_ERROR st2)
      | PersonData None => Ok (alert MSG_NO_KEYPOINTS st2)
      | PersonData (Some kpArray) =>
          newKeypoints <- importKeypoints kpArray (keypoints st) ;;
          Ok (setConstraints [] (setKeypoints newKeypoints st2))
      end
  end.

(** ** Pose detection *)

(** What [await detectPose(...)] yields. *)
Inductive Detection : Type :=
| Detected (points : list Point)
| DetectedNull
| DetectionThrows.

Definition MSG_NO_POSE : string :=
  "Could not detect a valid pose. Please try a clearer image.".
Definition MSG_DETECT_ERROR : string := "Error detecting pose.".

(** [prev.map((kp, i) => ({ ...kp, x: detectedPoints[i].x, ... }))]; a
    keypoint past the detected points would read a field of [undefined],
    which throws. *)
Fixpoint applyDetected (detectedPoints : list Point) (i : nat) (prev : list Keypoint)
  : result (list Keypoint) :=
  match prev with
  | [] => Ok []
  | kp :: rest =>
      match nth_error detectedPoints i with
      | Some p =>
          rest' <- applyDetected detectedPoints (S i) rest ;;
          Ok (with_xy_visible kp (pt_x p) (pt_y p) true :: rest')
      | None => Err TypeError
      end
  end.

(** Truthiness of [bgImage]: a string that is not empty. *)
Definition hasImage (st : App) : bool :=
  match bgImage st with
  | Some (String _ _) => true
  | _ => false
  end.

(** [handleAutoDetect] when [detectPose] answers before any other handler
    runs. *)
Definition handleAutoDetect (detection : Detection) (st : App) : result App :=
  if negb (hasImage st) then Ok st
  else
    let st1 := setConstraints [] (setIsProcessing true (recordHistory st)) in
    st2 <- match detection with
           | Detected detectedPoints =>
               if List.length detectedPoints =? 18 then
                 kps <- applyDetected detectedPoints 0 (keypoints st1) ;;
                 Ok (setKeypoints kps st1)
               else Ok (alert MSG_NO_POSE st1)
           | DetectedNull => Ok (alert MSG_NO_POSE st1)
           | DetectionThrows => Ok (alert MSG_DETECT_ERROR st1)
           end ;;
    Ok (setIsProcessing false st2).

(** ** The pose-mutating operations as events *)

Inductive Event : Type :=
| KeypointMove (id : nat) (x y : R)
| SkeletonDrag (dx dy : R)
| ToggleVisibility (id : nat)
| ToggleLock (id : nat)
| ToggleAnchor (id : nat)
| ToggleAllLock
| ToggleAllVisibility
| MirrorLeftToRight
| MirrorRightToLeft
| FlipHorizontal
| FlipVertical
| ScaleStart
| Scale (factor : R)
| TransformStart
| Transform (rotateZ scaleX : R)
| TransformEnd
| Reset
| ImportJson (file : ImportFile)
| AutoDetect (detection : Detection)
| DragStart
| Undo
| Redo.

Definition step (e : Event) (st : App) : result App :=
  match e with
  | KeypointMove id x y => handleKeypointMove id x y st
  | SkeletonDrag dx dy => Ok (handleSkeletonDrag dx dy st)
  | ToggleVisibility id => handleToggleVisibility id st
  | ToggleLock id => Ok (handleToggleLock id st)
  | ToggleAnchor id => Ok (handleToggleAnchor id st)
  | ToggleAllLock => Ok (handleToggleAllLock st)
  | ToggleAllVisibility => Ok (handleToggleAllVisibility st)
  | MirrorLeftToRight => Ok (handleMirrorLeftToRight st)
  | MirrorRightToLeft => Ok (handleMirrorRightToLeft st)
  | FlipHorizontal => Ok (handleFlipHorizontal st)
  | FlipVertical => Ok (handleFlipVertical st)
  | ScaleStart => Ok (handleScaleStart st)
  | Scale factor => Ok (handleScale factor st)
  | TransformStart => Ok (handleTransformStart st)
  | Transform rotateZ scaleX => Ok (handleTransform rotateZ scaleX st)
  | TransformEnd => Ok (handleTransformEnd st)
  | Reset => Ok (handleReset st)
  | ImportJson file => handleImportJson file st
  | AutoDetect detection => handleAutoDetect detection st
  | DragStart => Ok (handleDragStart st)
  | Undo => Ok (undo st)
  | Redo => Ok (redo st)
  end.

(** ** The initial state of [App] *)

Definition initialApp : App :=
  mkApp (mkSize 512 512) None translate false false (mkHistory [] []) []
        (generateFittedKeypoints 512 512) None [].

(** ** Notions used by the statements *)

(** A recorded mutation: [recordHistory] at the start of the gesture, after
    which the gesture leaves the snapshot [next]. *)
Definition mutate (next : HistoryState) (st : App) : App :=
  setConstraints (hs_constraints next)
    (setKeypoints (hs_keypoints next) (recordHistory st)).

(** Euclidean distance between two joints. *)
Definition dist (a b : Keypoint) : R :=
  sqrt ((kp_x a - kp_x b) * (kp_x a - kp_x b) + (kp_y a - kp_y b) * (kp_y a - kp_y b)).

(** Two joints are adjacent when a constraint key names both. *)
Definition adjacent (keys : list Key) (a b : nat) : Prop :=
  In (a, b) keys \/ In (b, a) keys.

(** The connected component of [a] in the constraint graph: the joints
    linked to it through a chain of constraints. *)
Inductive linked (keys : list Key) (a : nat) : nat -> Prop :=
| linked_refl : linked keys a a
| linked_step : forall b c, linked keys a b -> adjacent keys b c -> linked keys a c.

(** Both joints of every key. *)
Definition endpoints (keys : list Key) : list nat :=
  flat_map (fun k => [fst k; snd k]) keys.

(** The ids of a keypoint array, in order. *)
Definition ids (kps : list Keypoint) : list nat := map kp_id kps.

(** The 18 joints, ids 0..17 in order. *)
Definition skeleton (kps : list Keypoint) : Prop := ids kps = seq 0 18.

(** Every keypoint array that the state holds is the 18 joints in order:
    the live one, the base of a running transform gesture and the
    snapshots of the history. *)
Record well_formed (st : App) : Prop := mkWellFormed {
  wf_keypoints : skeleton (keypoints st);
  wf_base : forall base, transformBaseRef st = Some base -> skeleton (hs_keypoints base);
  wf_past : Forall (fun h => skeleton (hs_keypoints h)) (past (history st));
  wf_future : Forall (fun h => skeleton (hs_keypoints h)) (future (history st))
}.

(** The joints that hiding Neck (1) reaches, in the order the loop finds
    them. *)
Definition NECK_CLOSURE : list nat :=
  [1; 0; 2; 5; 8; 11; 14; 15; 3; 6; 9; 12; 16; 17; 4; 7; 10; 13].

(** [f] applied to the first keypoint with id [d]. *)
Fixpoint update_first (d : nat) (f : Keypoint -> Keypoint) (l : list Keypoint)
  : list Keypoint :=
  match l with
  | [] => []
  | k :: rest =>
      if kp_id k =? d then f k :: rest else k :: update_first d f rest
  end.

(** The reflected copy of [srcKp] written over [old]. *)
Definition reflect_onto (axisX : R) (srcKp old : Keypoint) : Keypoint :=
  with_xy_visible old (axisX + (axisX - kp_x srcKp)) (kp_y srcKp) (kp_visible srcKp).

(** [(src, dst)] steps of a mirror, in order. *)
Definition mirror_fold (axisX : R) (prev : list Keypoint) (ps : list (nat * nat))
  (newKps : list Keypoint) : list Keypoint :=
  fold_left (fun acc '(s, d) => mirror_step axisX prev s d acc) ps newKps.

(** The pairs as steps of the left-to-right mirror: [(l, r)]. *)
Definition LEFT_TO_RIGHT : list (nat * nat) := map (fun '(r, l) => (l, r)) MIRROR_PAIRS.

(** A detection that is no pose: nothing came back, the call threw, or the
    points are not 18. *)
Definition detection_failed (detection : Detection) : Prop :=
  match detection with
  | Detected points => List.length points <> 18
  | DetectedNull => True
  | DetectionThrows => True
  end.

(** What the loop keeps true of its queue when [head] joints are done. *)
Record queue_inv (keys : list Key) (id head : nat) (q : list nat) : Prop := mkQueueInv {
  qi_nodup : NoDup q;
  qi_start : In id q;
  qi_sound : forall x, In x q -> linked keys id x;
  qi_done : forall i y x,
      i < head -> nth_error q i = Some y -> adjacent keys y x -> In x q;
  qi_bound : incl q (id :: endpoints keys)
}.

(** ** States and files used as examples *)

(** The reference pose of constants.ts, at its own coordinates. *)
Definition defaultPose : list Keypoint :=
  map (fun '(kp, def) => with_xy kp (pt_x def) (pt_y def))
      (combine INITIAL_KEYPOINTS DEFAULT_POSE_COORDS).

(** The initial pose with every joint hidden. *)
Definition hiddenApp : App :=
  setKeypoints (map (fun kp => with_visible kp false) (keypoints initialApp)) initialApp.

(** The reference pose on the initial canvas, R_Wrist (4) moved to (100, 100). *)
Definition raisedWristApp : App :=
  setKeypoints
    (map (fun kp => if kp_id kp =? 4 then with_xy kp 100 100 else kp) defaultPose)
    initialApp.

(** The reference pose in a state with R_Shoulder-R_Elbow and
    Neck-R_Shoulder locked. *)
Definition lockedArmApp : App :=
  setConstraints [((1, 2), 50%R); ((2, 3), 80%R)] (setKeypoints defaultPose initialApp).

(** The locked arm of [lockedArmApp], in constraint mode. *)
Definition rotateArmApp : App := setLockedJointMode rotate lockedArmApp.

(** The locked arm with a background image loaded. *)
Definition detectApp : App := setBgImage (Some "data:image/jpeg;base64,"%string) lockedArmApp.

(** A pose file whose array holds one joint only. *)
Definition oneJointFile : ImportFile :=
  Parsed None [PersonData (Some [100%R; 200%R; 1%R])].

(** ** Constraint store: [handleToggleConstraint] *)

(** [[p1, p2].sort((a, b) => a - b)], the key of the pair. *)
Definition sortedKey (p1 p2 : nat) : Key :=
  if p2 <? p1 then (p2, p1) else (p1, p2).

Definition key_eqb (a b : Key) : bool :=
  (fst a =? fst b) && (snd a =? snd b).

(** [prev[key]]: the stored value, [None] for a key the object lacks. *)
Fixpoint lookupConstraint (key : Key) (cs : Constraints) : option R :=
  match cs with
  | [] => None
  | (k, d) :: rest => if key_eqb k key then Some d else lookupConstraint key rest
  end.

(** [const { [key]: deleted, ...rest } = prev]. *)
Definition removeConstraint (key : Key) (cs : Constraints) : Constraints :=
  filter (fun entry => negb (key_eqb (fst entry) key)) cs.

(** [{ ...prev, [key]: dist }]: a key that is there keeps its place and
    takes the new value, a new key goes last. *)
Fixpoint putConstraint (key : Key) (v : R) (cs : Constraints) : Constraints :=
  match cs with
  | [] => [(key, v)]
  | (k, d) :: rest =>
      if key_eqb k key then (k, v) :: rest else (k, d) :: putConstraint key v rest
  end.

(** The updater that [handleToggleConstraint] passes to [setConstraints];
    [kps] is the keypoint array of the render. *)
Definition toggleConstraint (kps : list Keypoint) (p1 p2 : nat) (prev : Constraints)
  : Constraints :=
  let key := sortedKey p1 p2 in
  let locked := match lookupConstraint key prev with
                | Some d => negb (is_zero d)
                | None => false
                end in
  if locked then removeConstraint key prev
  else
    match find_kp p1 kps, find_kp p2 kps with
    | Some kp1, Some kp2 =>
        let dx := (kp_x kp1 - kp_x kp2)%R in
        let dy := (kp_y kp1 - kp_y kp2)%R in
        putConstraint key (sqrt (dx * dx + dy * dy)) prev
    | _, _ => prev
    end.

Definition handleToggleConstraint (p1 p2 : nat) (st : App) : App :=
  let st1 := recordHistory st in
  setConstraints (toggleConstraint (keypoints st) p1 p2 (constraints st1)) st1.

(** ** Canvas helpers of [App] and [Editor] *)

(** [fitToScreen], for a container of the given client size: the new zoom,
    or [None] when the handler returns without setting one. *)
Definition fitToScreen (clientWidth clientHeight : R) (sz : Size) : option R :=
  let padding := 64%R in
  let availableWidth := (clientWidth - padding)%R in
  let availableHeight := (clientHeight - padding)%R in
  if Rle_dec availableWidth 0 then None
  else if Rle_dec availableHeight 0 then None
  else
    let scaleX := (availableWidth / width sz)%R in
    let scaleY := (availableHeight / height sz)%R in
    Some (Rmin (Rmin scaleX scaleY) 1).

(** The target that [handleMouseMove] passes to [onKeypointMove]. *)
Definition clampToCanvas (sz : Size) (pos : Point) : Point :=
  mkPoint (Rmax 0 (Rmin (width sz) (pt_x pos))) (Rmax 0 (Rmin (height sz) (pt_y pos))).

(** A joint drag as the editor issues it: the pointer position is clamped
    to the canvas, then handed to [handleKeypointMove]. *)
Definition dragKeypointTo (id : nat) (pos : Point) (st : App) : result App :=
  let target := clampToCanvas (size st) pos in
  handleKeypointMove id (pt_x target) (pt_y target) st.

(** One candidate of [snapAxis]: taken when strictly nearer than the best
    so far.  The pair is [(bestVal, bestDist)]. *)
Definition snapCandidate (currentVal target : R) (best : R * R) : R * R :=
  if Rlt_dec (Rabs (currentVal - target)) (snd best)
  then (target, Rabs (currentVal - target))
  else best.

(** [snapAxis] of the background drag, for background zoom [s]. *)
Definition snapAxis (s currentVal dimension : R) : R :=
  let threshold := 15%R in
  let best0 := (currentVal, threshold) in
  let best1 := snapCandidate currentVal 0 best0 in
  let targetLeft := (- (dimension / 2) + (dimension * s) / 2)%R in
  let best2 := snapCandidate currentVal targetLeft best1 in
  let targetRight := ((dimension / 2) - (dimension * s) / 2)%R in
  let best3 := snapCandidate currentVal targetRight best2 in
  fst best3.

(** ** Export *)

(** [Math.round]: the nearest integer, halves going up. *)
Definition round (v : R) : R := IZR (Int_part (v + / 2)).

(** [keypoints.flatMap(kp => [round(kp.x), round(kp.y), kp.visible ? 1 : 0])],
    the [pose_keypoints_2d] of [handleExportJson]. *)
Definition exportKeypoints (kps : list Keypoint) : list R :=
  flat_map (fun kp => [round (kp_x kp); round (kp_y kp);
                       if kp_visible kp then 1%R else 0%R]) kps.

(** The file [handleExportJson] writes, as [handleImportJson] reads it back. *)
Definition exportFile (st : App) : ImportFile :=
  Parsed (Some (width (size st), height (size st)))
         [PersonData (Some (exportKeypoints (keypoints st)))].

(** ** Further notions used by the statements *)




(** The snapshots of a state in time order: past, current, future. *)
Definition timeline (st : App) : list HistoryState :=
  past (history st) ++ snapshot st :: future (history st).

(** Every stored constraint is the distance its two joints are at. *)
Definition satisfied (cs : Constraints) (kps : list Keypoint) : Prop :=
  forall p1 p2 d, In ((p1, p2), d) cs ->
    exists kp1 kp2,
      find_kp p1 kps = Some kp1 /\ find_kp p2 kps = Some kp2 /\ dist kp1 kp2 = d.

(** [c] is a child of [p] in the visibility hierarchy. *)
Definition child (p c : nat) : Prop :=
  exists children, POSE_HIERARCHY p = Some children /\ In c children.

(** The joints a hide of [a] reaches: [a] and everything below it. *)
Inductive reaches (a : nat) : nat -> Prop :=
| reaches_self : reaches a a
| reaches_child : forall b c, reaches a b -> child b c -> reaches a c.

(** A box holds every visible joint and touches one on each side. *)
Record tight_box (b : Bounds) (kps : list Keypoint) : Prop := mkTightBox {
  tb_inside : forall kp, In kp kps -> kp_visible kp = true ->
      (minX b <= kp_x kp <= maxX b)%R /\ (minY b <= kp_y kp <= maxY b)%R;
  tb_left : exists kp, In kp kps /\ kp_visible kp = true /\ kp_x kp = minX b;
  tb_right : exists kp, In kp kps /\ kp_visible kp = true /\ kp_x kp = maxX b;
  tb_top : exists kp, In kp kps /\ kp_visible kp = true /\ kp_y kp = minY b;
  tb_bottom : exists kp, In kp kps /\ kp_visible kp = true /\ kp_y kp = maxY b
}.

(** [handleAutoDetect] is asynchronous.  [detectBegin] is what it does
    before [await detectPose(...)]; [detectResume] is what it does once the
    detection has resolved, on the state of that moment: the updater of
    [setKeypoints] reads the keypoints of then, and nothing else of the
    state is read. *)
Definition detectBegin (st : App) : App :=
  setConstraints [] (setIsProcessing true (recordHistory st)).

Definition detectResume (detection : Detection) (st : App) : result App :=
  st2 <- match detection with
         | Detected detectedPoints =>
             if List.length detectedPoints =? 18 then
               kps <- applyDetected detectedPoints 0 (keypoints st) ;;
               Ok (setKeypoints kps st)
             else Ok (alert MSG_NO_POSE st)
         | DetectedNull => Ok (alert MSG_NO_POSE st)
         | DetectionThrows => Ok (alert MSG_DETECT_ERROR st)
         end ;;
  Ok (setIsProcessing false st2).

(** What [reduce((s, k) => s + f(k), 0)] sums up, from the left. *)
Definition total (f : Keypoint -> R) (l : list Keypoint) : R :=
  fold_left (fun acc k => (acc + f k)%R) l 0%R.

(** ** Notions and example states of the further properties *)

(** What [getPoseCenter] has accumulated after the joints [seen]. *)
Definition box_of (acc : option Bounds) (seen : list Keypoint) : Prop :=
  match acc with
  | None => forall kp, In kp seen -> kp_visible kp = false
  | Some b => tight_box b seen
  end.

(** A box reflected about the vertical line [x = c], or the horizontal
    line [y = c]. *)
Definition reflect_box_x (c : R) (b : Bounds) : Bounds :=
  mkBounds (c + (c - maxX b)) (c + (c - minX b)) (minY b) (maxY b).

Definition reflect_box_y (c : R) (b : Bounds) : Bounds :=
  mkBounds (minX b) (maxX b) (c + (c - maxY b)) (c + (c - minY b)).

(** The reference pose with the two arm constraints at the lengths the
    limbs have in it. *)
Definition measuredArmApp : App :=
  setConstraints [((1, 2), 50%R); ((2, 3), sqrt (20 * 20 + 80 * 80))]
    (setKeypoints defaultPose initialApp).

(** The reference pose with Neck (1) anchored and the arm locked. *)
Definition anchoredApp : App := handleToggleAnchor 1 lockedArmApp.

(** The joints as constants.ts creates them, all at (0, 0). *)
Definition originApp : App := setKeypoints INITIAL_KEYPOINTS initialApp.

(** [s] holds the children of each of its members. *)
Definition closedb (s : list nat) : bool :=
  forallb (fun p => match POSE_HIERARCHY p with
                    | Some children => forallb (has s) children
                    | None => true
                    end) s.

(** Each member of [l] is a child of a joint of [seen] or of [l] before it. *)
Fixpoint justifiedb (seen l : list nat) : bool :=
  match l with
  | [] => true
  | x :: rest =>
      existsb (fun p => match POSE_HIERARCHY p with
                        | Some children => has children x
                        | None => false
                        end) seen
      && justifiedb (seen ++ [x]) rest
  end.

(** The joint that the file gives for [kp], read at index [srcIdx]. *)
Definition imported (kpArray : list R) (srcIdx : nat) (kp : Keypoint) : Keypoint :=
  with_xy_visible kp (nth (srcIdx * 3) kpArray 0%R) (nth (srcIdx * 3 + 1) kpArray 0%R)
    (negb (is_zero (nth (srcIdx * 3) kpArray 0%R))
     || negb (is_zero (nth (srcIdx * 3 + 1) kpArray 0%R))).

(** What a joint is after export and import: rounded, and visible when it
    is not at (0, 0). *)
Definition reimported (kp : Keypoint) : Keypoint :=
  with_xy_visible kp (round (kp_x kp)) (round (kp_y kp))
    (negb (is_zero (round (kp_x kp))) || negb (is_zero (round (kp_y kp)))).

(** The locked arm with R_Elbow hidden and a background image loaded. *)
Definition hiddenElbowApp : App :=
  setKeypoints (map (fun kp => if kp_id kp =? 3 then with_visible kp false else kp)
                    defaultPose) detectApp.

(** Where [generateFittedKeypoints] puts the reference point [def]. *)
Definition fitted (targetWidth targetHeight : R) (def : Point) : Point :=
  let zoom := (targetHeight * (75 / 100) / 410)%R in
  mkPoint ((pt_x def - 256) * zoom + targetWidth / 2)
          ((pt_y def - 250) * zoom + targetHeight / 2).

(** * Properties *)

(** ** The embedding on concrete inputs *)

Example rgbToHex_orange : rgbToHex (255, 85, 0) = "#ff5500"%string.
Proof. reflexivity. Qed.

Example initial_ids : ids INITIAL_KEYPOINTS = seq 0 18.
Proof. reflexivity. Qed.

Example cascade_from_nose : cascade_loop 19 [0] [0] = Ok [0; 14; 15; 16; 17].
Proof. reflexivity. Qed.

Example cascade_from_wrist : cascade_loop 19 [4] [4] = Ok [4].
Proof. reflexivity. Qed.

Example component_of_elbow : connectedComponent (constraints lockedArmApp) 3 = Ok [3; 2; 1].
Proof. reflexivity. Qed.

Example component_of_free_joint : connectedComponent (constraints lockedArmApp) 7 = Ok [7].
Proof. reflexivity. Qed.

Example undo_at_boundary : undo initialApp = initialApp /\ redo initialApp = initialApp.
Proof. split; reflexivity. Qed.

Example scale_without_gesture : handleScale 2 lockedArmApp = lockedArmApp.
Proof. reflexivity. Qed.

Example body25_hip_source :
  nth_error BODY25_MAPPING 8 = Some 9 /\ nth_error BODY25_MAPPING 17 = Some 18.
Proof. split; reflexivity. Qed.

(** ** History *)

Lemma undo_after_record (st : App) (kps : list Keypoint) (cs : Constraints) :
  undo (setConstraints cs (setKeypoints kps (recordHistory st)))
  = setHistory (mkHistory (past (history st))
                          [mkHistoryState kps cs])
      (setConstraints (constraints st) (setKeypoints (keypoints st) st)).
Proof.
  unfold undo, recordHistory, snapshot; simpl.
  rewrite rev_unit. simpl. rewrite rev_involutive. reflexivity.
Qed.

Lemma snapshot_eta (h : HistoryState) :
  mkHistoryState (hs_keypoints h) (hs_constraints h) = h.
Proof. destruct h; reflexivity. Qed.

Lemma undo_snoc (st : App) (p : list HistoryState) (h : HistoryState)
  (f : list HistoryState) :
  history st = mkHistory (p ++ [h]) f ->
  undo st = setHistory (mkHistory p (snapshot st :: f))
              (setConstraints (hs_constraints h) (setKeypoints (hs_keypoints h) st)).
Proof.
  intros H. unfold undo. rewrite H. simpl.
  rewrite rev_unit, rev_involutive. reflexivity.
Qed.

(** C3. From any state S0, after three recorded mutations leading to S1,
    S2 and S3, three undos make the current (keypoints, constraints)
    snapshot S0 again, three redos after them make it S3, and a mutation
    recorded after an undo leaves the redo stack empty (it held S3 before).
    The history S0 starts with may hold anything, the empty history
    included. *)
Theorem history_three_undo_three_redo (st : App) (S1 S2 S3 next : HistoryState) :
  let st3 := mutate S3 (mutate S2 (mutate S1 st)) in
  let back := undo (undo (undo st3)) in
  snapshot back = snapshot st
  /\ snapshot (redo (redo (redo back))) = S3
  /\ future (history (undo st3)) = [S3]
  /\ future (history (mutate next (undo st3))) = []
  /\ forall st', future (history (mutate next (undo st'))) = [].
Proof.
  intros st3 back.
  assert (U1 : undo st3 =
               setHistory (mkHistory (past (history st) ++ [snapshot st; S1]) [S3])
                 (setConstraints (hs_constraints S2) (setKeypoints (hs_keypoints S2) st))).
  { subst st3. unfold mutate at 1. rewrite undo_after_record.
    unfold mutate, recordHistory, snapshot; simpl.
    rewrite !snapshot_eta, <- !app_assoc. reflexivity. }
  assert (U2 : undo (undo st3) =
               setHistory (mkHistory (past (history st) ++ [snapshot st]) [S2; S3])
                 (setConstraints (hs_constraints S1) (setKeypoints (hs_keypoints S1) st))).
  { rewrite U1.
    erewrite undo_snoc with (p := past (history st) ++ [snapshot st]) (h := S1);
      [ | simpl; rewrite <- app_assoc; reflexivity ].
    unfold snapshot; simpl. rewrite ?snapshot_eta. reflexivity. }
  assert (U3 : back =
               setHistory (mkHistory (past (history st)) [S1; S2; S3])
                 (setConstraints (constraints st) (setKeypoints (keypoints st) st))).
  { subst back. rewrite U2.
    erewrite undo_snoc with (p := past (history st)) (h := snapshot st);
      [ | reflexivity ].
    unfold snapshot; simpl. rewrite ?snapshot_eta. reflexivity. }
  split; [ | split; [ | split; [ | split ] ] ].
  - rewrite U3. reflexivity.
  - rewrite U3. unfold redo, snapshot; simpl. apply snapshot_eta.
  - rewrite U1. reflexivity.
  - reflexivity.
  - intros st'. reflexivity.
Qed.

(** ** Visibility cascade *)

Lemma cascade_from_neck : cascade_loop 19 [1] [1] = Ok NECK_CLOSURE.
Proof. reflexivity. Qed.

Lemma neck_closure_all (n : nat) : has NECK_CLOSURE n = (n <? 18).
Proof.
  do 18 (destruct n as [|n]; [reflexivity|]).
  reflexivity.
Qed.

(** The cascade loop ends within its fuel from every joint id. *)
Lemma cascade_total (id : nat) : exists s, cascade_loop 19 [id] [id] = Ok s.
Proof.
  do 18 (destruct id as [|id]; [eexists; reflexivity|]).
  eexists; reflexivity.
Qed.

Lemma toggleVisibility_total (id : nat) (prev : list Keypoint) :
  exists kps, toggleVisibility id prev = Ok kps /\ ids kps = ids prev.
Proof.
  unfold toggleVisibility.
  destruct (find_kp id prev) as [target|]; [ | eexists; split; reflexivity ].
  destruct (negb (kp_visible target)); cbn [bind].
  - eexists; split; [reflexivity|].
    unfold ids. rewrite map_map. apply map_ext. intros kp.
    simpl. destruct ((kp_id kp =? id) || false); reflexivity.
  - destruct (cascade_total id) as [s Hs]. rewrite Hs. cbn [bind].
    eexists; split; [reflexivity|].
    unfold ids. rewrite map_map. apply map_ext. intros kp.
    destruct (has s (kp_id kp)); reflexivity.
Qed.

(** C1 (as amended). Hiding Neck (1) through the visibility toggle sets
    [visible = false] on every joint with an id in 0..17, that is on all 18
    joints: the hierarchy closure of Neck also holds 3, 4, 6, 7, 9, 10, 12
    and 13.  Toggling a hidden Neck back to visible changes Neck only and
    shows no descendant again. *)
Theorem toggle_neck_cascade (st : App) (neck : Keypoint) :
  find_kp 1 (keypoints st) = Some neck ->
  (kp_visible neck = true ->
   handleToggleVisibility 1 st
   = Ok (setKeypoints
           (map (fun kp => if kp_id kp <? 18 then with_visible kp false else kp)
                (keypoints st))
           (recordHistory st)))
  /\ (kp_visible neck = false ->
      handleToggleVisibility 1 st
      = Ok (setKeypoints
              (map (fun kp => if kp_id kp =? 1 then with_visible kp true else kp)
                   (keypoints st))
              (recordHistory st))).
Proof.
  intros Hneck. unfold handleToggleVisibility, toggleVisibility.
  cbn [keypoints recordHistory setHistory]. rewrite Hneck.
  split; intros Hv; rewrite Hv; cbn [negb].
  - rewrite cascade_from_neck. cbn [bind]. do 2 f_equal.
    apply map_ext. intros kp. rewrite neck_closure_all. reflexivity.
  - cbn [bind]. do 2 f_equal.
    apply map_ext. intros kp. unfold has. cbn [existsb].
    rewrite orb_false_r.
    destruct (kp_id kp =? 1); reflexivity.
Qed.

Lemma toggle_neck_cascade_witness :
  handleToggleVisibility 1 initialApp
  = Ok (setKeypoints
          (map (fun kp => if kp_id kp <? 18 then with_visible kp false else kp)
               (keypoints initialApp))
          (recordHistory initialApp))
  /\ handleToggleVisibility 1 hiddenApp
     = Ok (setKeypoints
             (map (fun kp => if kp_id kp =? 1 then with_visible kp true else kp)
                  (keypoints hiddenApp))
             (recordHistory hiddenApp)).
Proof.
  split.
  - exact (proj1 (toggle_neck_cascade initialApp
                    (eq_refl : find_kp 1 (keypoints initialApp) = Some _)) eq_refl).
  - exact (proj2 (toggle_neck_cascade hiddenApp
                    (eq_refl : find_kp 1 (keypoints hiddenApp) = Some _)) eq_refl).
Defined.

(** C1 as stated fails: in the initial pose R_Elbow (3) is visible, and
    hiding Neck (1) hides it. *)
Lemma neck_hides_elbow :
  option_map kp_visible (find_kp 3 (keypoints initialApp)) = Some true
  /\ exists st',
       handleToggleVisibility 1 initialApp = Ok st'
       /\ option_map kp_visible (find_kp 3 (keypoints st')) = Some false.
Proof.
  split; [reflexivity|].
  eexists; split; reflexivity.
Qed.

(** ** Mirror *)

Section MirrorFacts.

Variable axisX : R.
Variable prev : list Keypoint.

Lemma set_first_update (d : nat) (f : Keypoint -> Keypoint) (l : list Keypoint) :
  match findIndex_kp d l with
  | Some i =>
      match nth_error l i with
      | Some old => set_nth i (f old) l
      | None => l
      end
  | None => l
  end = update_first d f l.
Proof.
  induction l as [|k rest IH]; [reflexivity|].
  cbn [findIndex_kp update_first].
  destruct (kp_id k =? d); [reflexivity|].
  rewrite <- IH.
  destruct (findIndex_kp d rest) as [i|]; cbn [option_map nth_error]; [|reflexivity].
  destruct (nth_error rest i); reflexivity.
Qed.

Lemma mirror_step_update (s d : nat) (l : list Keypoint) :
  mirror_step axisX prev s d l
  = match find_kp s prev with
    | Some srcKp => update_first d (reflect_onto axisX srcKp) l
    | None => l
    end.
Proof.
  unfold mirror_step. destruct (find_kp s prev) as [srcKp|]; [|reflexivity].
  apply (set_first_update d (reflect_onto axisX srcKp)).
Qed.

Lemma find_update_first_same (d : nat) (f : Keypoint -> Keypoint) (l : list Keypoint) :
  (forall k, kp_id (f k) = kp_id k) ->
  find_kp d (update_first d f l) = option_map f (find_kp d l).
Proof.
  intros Hf. unfold find_kp.
  induction l as [|k rest IH]; [reflexivity|].
  cbn [update_first find].
  destruct (kp_id k =? d) eqn:E; cbn [find].
  - rewrite Hf, E. reflexivity.
  - rewrite E. exact IH.
Qed.

Lemma find_update_first_other (a d : nat) (f : Keypoint -> Keypoint) (l : list Keypoint) :
  (forall k, kp_id (f k) = kp_id k) -> a <> d ->
  find_kp a (update_first d f l) = find_kp a l.
Proof.
  intros Hf Hne. unfold find_kp.
  induction l as [|k rest IH]; [reflexivity|].
  cbn [update_first find].
  destruct (kp_id k =? d) eqn:E; cbn [find].
  - rewrite Hf. apply Nat.eqb_eq in E.
    destruct (kp_id k =? a) eqn:E'; [|reflexivity].
    apply Nat.eqb_eq in E'. congruence.
  - rewrite IH. reflexivity.
Qed.

Lemma update_first_fixed (d : nat) (f : Keypoint -> Keypoint) (l : list Keypoint) :
  (forall k, find_kp d l = Some k -> f k = k) -> update_first d f l = l.
Proof.
  unfold find_kp. induction l as [|k rest IH]; intros Hf; [reflexivity|].
  cbn [update_first find] in *.
  destruct (kp_id k =? d).
  - rewrite (Hf k eq_refl). reflexivity.
  - rewrite (IH Hf). reflexivity.
Qed.

Lemma reflect_onto_id (srcKp old : Keypoint) :
  kp_id (reflect_onto axisX srcKp old) = kp_id old.
Proof. reflexivity. Qed.

Lemma find_mirror_fold_other (a : nat) (ps : list (nat * nat)) (l : list Keypoint) :
  ~ In a (map snd ps) ->
  find_kp a (mirror_fold axisX prev ps l) = find_kp a l.
Proof.
  revert l. induction ps as [|[s d] ps IH]; intros l Hn; [reflexivity|].
  unfold mirror_fold in *. cbn [fold_left].
  rewrite IH by (intros H; apply Hn; right; exact H).
  rewrite mirror_step_update.
  destruct (find_kp s prev) as [srcKp|]; [|reflexivity].
  apply find_update_first_other; [apply reflect_onto_id|].
  intros ->. apply Hn. left. reflexivity.
Qed.

Lemma find_mirror_fold_dst (s d : nat) (ps : list (nat * nat)) (l : list Keypoint) :
  NoDup (map snd ps) -> In (s, d) ps ->
  find_kp d (mirror_fold axisX prev ps l)
  = match find_kp s prev with
    | Some srcKp => option_map (reflect_onto axisX srcKp) (find_kp d l)
    | None => find_kp d l
    end.
Proof.
  revert l. induction ps as [|[s' d'] ps IH]; intros l Hnd Hin; [destruct Hin|].
  cbn [map snd] in Hnd. apply NoDup_cons_iff in Hnd. destruct Hnd as [Hfresh Hnd].
  unfold mirror_fold in *. cbn [fold_left].
  destruct Hin as [Heq|Hin].
  - injection Heq as -> ->.
    fold (mirror_fold axisX prev ps (mirror_step axisX prev s d l)).
    rewrite find_mirror_fold_other by exact Hfresh.
    rewrite mirror_step_update.
    destruct (find_kp s prev) as [srcKp|]; [|reflexivity].
    apply find_update_first_same, reflect_onto_id.
  - rewrite (IH _ Hnd Hin).
    assert (Hne : d <> d').
    { intros ->. apply Hfresh. apply (in_map snd) in Hin. exact Hin. }
    rewrite mirror_step_update.
    destruct (find_kp s' prev) as [srcKp'|]; [|reflexivity].
    rewrite find_update_first_other by (auto using reflect_onto_id).
    reflexivity.
Qed.

End MirrorFacts.

Lemma mirrorLeftToRight_fold (sz : Size) (prev : list Keypoint) :
  mirrorLeftToRight sz prev
  = mirror_fold (mirrorAxis sz prev) prev LEFT_TO_RIGHT prev.
Proof. reflexivity. Qed.

Lemma mirrorRightToLeft_fold (sz : Size) (prev : list Keypoint) :
  mirrorRightToLeft sz prev
  = mirror_fold (mirrorAxis sz prev) prev MIRROR_PAIRS prev.
Proof. reflexivity. Qed.

Lemma mirrorAxis_ext (sz : Size) (a b : list Keypoint) :
  find_kp 1 a = find_kp 1 b -> find_kp 0 a = find_kp 0 b ->
  mirrorAxis sz a = mirrorAxis sz b.
Proof. intros H1 H0. unfold mirrorAxis. rewrite H1, H0. reflexivity. Qed.

(** Membership in a list of numerals, decided by going through it. *)
Ltac absent :=
  let H := fresh "H" in
  simpl; intros H; repeat (destruct H as [H|H]; [discriminate H|]); exact H.

Ltac present := simpl; repeat (first [left; reflexivity | right]).

Ltac distinct := repeat (apply NoDup_cons; [absent|]); apply NoDup_nil.

Lemma right_ids_nodup : NoDup (map snd LEFT_TO_RIGHT).
Proof. distinct. Qed.

(** Each pair is a step of the left-to-right mirror, and no left joint,
    nor Neck, nor Nose, is a destination of that mirror. *)
Lemma mirror_pairs_facts :
  Forall (fun '(r, l) => In (l, r) LEFT_TO_RIGHT /\ ~ In l (map snd LEFT_TO_RIGHT))
         MIRROR_PAIRS
  /\ ~ In 1 (map snd LEFT_TO_RIGHT) /\ ~ In 0 (map snd LEFT_TO_RIGHT).
Proof.
  split; [ | split; absent ].
  repeat (apply Forall_cons; [split; [present|absent]|]). apply Forall_nil.
Qed.

Lemma reflect_twice (axisX : R) (lk rk : Keypoint) :
  reflect_onto axisX (reflect_onto axisX lk rk) lk = lk.
Proof.
  destruct lk as [i n x y v lo an c rgb].
  unfold reflect_onto, with_xy_visible, with_visible, with_xy; cbn.
  f_equal. lra.
Qed.

Lemma mirror_fold_fixed (axisX : R) (kps : list Keypoint) (ps : list (nat * nat)) :
  (forall s d, In (s, d) ps -> mirror_step axisX kps s d kps = kps) ->
  mirror_fold axisX kps ps kps = kps.
Proof.
  unfold mirror_fold. induction ps as [|[s d] ps IH]; intros Hstep; [reflexivity|].
  cbn [fold_left]. rewrite Hstep by (left; reflexivity).
  apply IH. intros s' d' Hin. apply Hstep. right. exact Hin.
Qed.

(** Over the reals, where reflecting twice about one axis is the identity,
    the right-to-left mirror changes no keypoint after a left-to-right
    mirror. *)
Lemma mirror_back_fixed (sz : Size) (prev : list Keypoint) :
  mirrorRightToLeft sz (mirrorLeftToRight sz prev) = mirrorLeftToRight sz prev.
Proof.
  destruct mirror_pairs_facts as [Hpairs [Hneck Hnose]].
  rewrite mirrorRightToLeft_fold.
  assert (Hax : mirrorAxis sz (mirrorLeftToRight sz prev) = mirrorAxis sz prev).
  { apply mirrorAxis_ext; rewrite mirrorLeftToRight_fold;
      apply find_mirror_fold_other; assumption. }
  rewrite Hax.
  set (a := mirrorAxis sz prev).
  set (kps1 := mirrorLeftToRight sz prev).
  assert (Hstep : forall r l, In (r, l) MIRROR_PAIRS ->
                              mirror_step a kps1 r l kps1 = kps1).
  { intros r l Hin.
    rewrite Forall_forall in Hpairs. specialize (Hpairs _ Hin).
    cbn beta iota in Hpairs. destruct Hpairs as [Hlr Hl].
    rewrite mirror_step_update.
    destruct (find_kp r kps1) as [rk'|] eqn:Hr; [|reflexivity].
    apply update_first_fixed. intros lk Hlk.
    subst kps1. rewrite mirrorLeftToRight_fold in Hr, Hlk. fold a in Hr, Hlk.
    rewrite find_mirror_fold_other in Hlk by exact Hl.
    rewrite (@find_mirror_fold_dst a prev l r LEFT_TO_RIGHT prev right_ids_nodup Hlr) in Hr.
    rewrite Hlk in Hr.
    destruct (find_kp r prev) as [rk|]; [|discriminate].
    injection Hr as <-. apply reflect_twice. }
  apply mirror_fold_fixed. exact Hstep.
Qed.

(** No right joint of the 8 pairs is a destination of the right-to-left
    mirror. *)
Lemma right_ids_not_written :
  forall r l, In (r, l) MIRROR_PAIRS -> ~ In r (map snd MIRROR_PAIRS).
Proof.
  intros r l Hin. simpl in Hin.
  repeat (destruct Hin as [Hin|Hin]; [injection Hin as <- <-; absent|]).
  destruct Hin.
Qed.

(** C2 (as amended). A left-to-right mirror followed at once by a
    right-to-left mirror leaves every right joint of the 8 pairs where the
    first mirror put it: the second mirror works with the axis of the first
    and writes no right joint, so the right joint is at
    [x = axis + (axis - x_left)] with the y and the visibility of its left
    partner, whatever its own coordinates of before were. *)
Theorem mirror_left_right_then_back (st : App) :
  let st1 := handleMirrorLeftToRight st in
  let st2 := handleMirrorRightToLeft st1 in
  mirrorAxis (size st1) (keypoints st1) = mirrorAxis (size st) (keypoints st)
  /\ forall r l, In (r, l) MIRROR_PAIRS ->
       find_kp r (keypoints st2) = find_kp r (keypoints st1)
       /\ forall lk rk,
            find_kp l (keypoints st) = Some lk ->
            find_kp r (keypoints st) = Some rk ->
            find_kp r (keypoints st2)
            = Some (reflect_onto (mirrorAxis (size st) (keypoints st)) lk rk).
Proof.
  intros st1 st2.
  destruct mirror_pairs_facts as [Hpairs [Hneck Hnose]].
  split.
  - subst st1. unfold handleMirrorLeftToRight.
    cbn [keypoints size recordHistory setHistory setKeypoints].
    apply mirrorAxis_ext; rewrite mirrorLeftToRight_fold;
      apply find_mirror_fold_other; assumption.
  - intros r l Hin.
    assert (H2 : find_kp r (keypoints st2) = find_kp r (keypoints st1)).
    { subst st2. unfold handleMirrorRightToLeft.
      cbn [keypoints size recordHistory setHistory setKeypoints].
      rewrite mirrorRightToLeft_fold.
      apply find_mirror_fold_other. exact (right_ids_not_written Hin). }
    split; [exact H2|].
    intros lk rk Hlk Hrk. rewrite H2. subst st1. unfold handleMirrorLeftToRight.
    cbn [keypoints size recordHistory setHistory setKeypoints].
    rewrite mirrorLeftToRight_fold.
    rewrite Forall_forall in Hpairs. specialize (Hpairs _ Hin).
    cbn beta iota in Hpairs. destruct Hpairs as [Hlr _].
    rewrite (@find_mirror_fold_dst _ _ l r LEFT_TO_RIGHT _ right_ids_nodup Hlr).
    rewrite Hlk, Hrk. reflexivity.
Qed.

Lemma mirror_left_right_then_back_witness :
  let st1 := handleMirrorLeftToRight raisedWristApp in
  let st2 := handleMirrorRightToLeft st1 in
  find_kp 4 (keypoints st2) = find_kp 4 (keypoints st1)
  /\ option_map kp_x (find_kp 4 (keypoints st2)) = Some (256 + (256 - 346))%R
  /\ option_map kp_y (find_kp 4 (keypoints st2)) = Some 255%R.
Proof.
  intros st1 st2.
  destruct (mirror_left_right_then_back raisedWristApp) as [_ H].
  assert (Hin : In (4, 7) MIRROR_PAIRS) by present.
  destruct (H 4 7 Hin) as [Hs Hr].
  split; [exact Hs|].
  subst st2 st1.
  rewrite (Hr _ _ eq_refl eq_refl). split; reflexivity.
Defined.

(** C2 as stated fails: R_Wrist (4) starts at x = 100; after the two
    mirrors it is at the reflection of L_Wrist, x = 166. *)
Lemma mirror_round_trip_moves_right_wrist :
  let st2 := handleMirrorRightToLeft (handleMirrorLeftToRight raisedWristApp) in
  option_map kp_x (find_kp 4 (keypoints raisedWristApp)) = Some 100%R
  /\ exists k, find_kp 4 (keypoints st2) = Some k /\ kp_x k <> 100%R.
Proof.
  intros st2. split; [reflexivity|].
  subst st2. unfold handleMirrorRightToLeft.
  cbn [keypoints size recordHistory setHistory setKeypoints].
  rewrite mirrorRightToLeft_fold.
  rewrite find_mirror_fold_other by absent.
  unfold handleMirrorLeftToRight.
  cbn [keypoints size recordHistory setHistory setKeypoints].
  rewrite mirrorLeftToRight_fold.
  assert (Hin : In (7, 4) LEFT_TO_RIGHT) by present.
  rewrite (@find_mirror_fold_dst _ _ 7 4 LEFT_TO_RIGHT _ right_ids_nodup Hin).
  eexists; split; [reflexivity|].
  cbn. lra.
Qed.

(** ** Drag engine: the connected component *)

Lemma has_In (s : list nat) (n : nat) : has s n = true <-> In n s.
Proof.
  unfold has. rewrite existsb_exists. split.
  - intros [x [Hx E]]. apply Nat.eqb_eq in E. subst. exact Hx.
  - intros H. exists n. split; [exact H | apply Nat.eqb_refl].
Qed.

Lemma has_not_In (s : list nat) (n : nat) : has s n = false <-> ~ In n s.
Proof.
  rewrite <- has_In. destruct (has s n); split; intros H; congruence.
Qed.

Lemma adjacent_cons (k : Key) (keys : list Key) (a b : nat) :
  adjacent (k :: keys) a b <-> adjacent [k] a b \/ adjacent keys a b.
Proof. unfold adjacent. simpl. tauto. Qed.

Lemma adjacent_endpoint (keys : list Key) (a b : nat) :
  adjacent keys a b -> In b (endpoints keys).
Proof.
  unfold endpoints. intros [H|H]; apply in_flat_map; eexists; (split; [exact H|]);
    simpl; auto.
Qed.

Lemma endpoints_length (keys : list Key) :
  List.length (endpoints keys) = 2 * List.length keys.
Proof.
  unfold endpoints. induction keys as [|k keys IH]; [reflexivity|].
  cbn [flat_map List.length app]. rewrite IH. lia.
Qed.

(** One key, seen from [cur], with [connectedIds] and [queue] equal: the
    neighbour it names is appended unless already there. *)
Lemma visit_key_spec (cur : nat) (q : list nat) (k : Key) :
  exists e,
    visit_key cur (q, q) k = (q ++ e, q ++ e)
    /\ NoDup e
    /\ (forall x, In x e -> adjacent [k] cur x /\ ~ In x q)
    /\ (forall x, adjacent [k] cur x -> In x (q ++ e)).
Proof.
  destruct k as [p1 p2].
  (* the key names at most one neighbour [n] of [cur] *)
  assert (Hold : forall n, (forall x, adjacent [(p1, p2)] cur x -> x = n) ->
                           has q n = true ->
                 exists e, (q, q) = (q ++ e, q ++ e) /\ NoDup e
                   /\ (forall x, In x e -> adjacent [(p1, p2)] cur x /\ ~ In x q)
                   /\ (forall x, adjacent [(p1, p2)] cur x -> In x (q ++ e))).
  { intros n Hx Hh. exists []. rewrite app_nil_r. apply has_In in Hh.
    split; [reflexivity|]. split; [constructor|]. split; [intros x []|].
    intros x Hadj. rewrite (Hx x Hadj). exact Hh. }
  assert (Hnew : forall n, (forall x, adjacent [(p1, p2)] cur x -> x = n) ->
                           adjacent [(p1, p2)] cur n -> has q n = false ->
                 exists e, (q ++ [n], q ++ [n]) = (q ++ e, q ++ e) /\ NoDup e
                   /\ (forall x, In x e -> adjacent [(p1, p2)] cur x /\ ~ In x q)
                   /\ (forall x, adjacent [(p1, p2)] cur x -> In x (q ++ e))).
  { intros n Hx Hn Hh. exists [n]. apply has_not_In in Hh.
    split; [reflexivity|]. split; [constructor; [intros []|constructor]|]. split.
    - intros x [<-|[]]. split; assumption.
    - intros x Hadj. rewrite (Hx x Hadj). apply in_or_app. right. left. reflexivity. }
  unfold visit_key.
  destruct (p1 =? cur) eqn:E1; [apply Nat.eqb_eq in E1 | apply Nat.eqb_neq in E1];
    cbn [orb].
  - (* the neighbour is p2 *)
    assert (Hx : forall x, adjacent [(p1, p2)] cur x -> x = p2).
    { intros x [[H|[]]|[H|[]]]; injection H as H1 H2; congruence. }
    assert (Hn : adjacent [(p1, p2)] cur p2) by (left; left; congruence).
    destruct (has q p2) eqn:Hh; [exact (Hold p2 Hx Hh) | exact (Hnew p2 Hx Hn Hh)].
  - destruct (p2 =? cur) eqn:E2; [apply Nat.eqb_eq in E2 | apply Nat.eqb_neq in E2].
    + (* the neighbour is p1 *)
      assert (Hx : forall x, adjacent [(p1, p2)] cur x -> x = p1).
      { intros x [[H|[]]|[H|[]]]; injection H as H1 H2; congruence. }
      assert (Hn : adjacent [(p1, p2)] cur p1) by (right; left; congruence).
      destruct (has q p1) eqn:Hh; [exact (Hold p1 Hx Hh) | exact (Hnew p1 Hx Hn Hh)].
    + (* the key does not name cur *)
      exists []. rewrite app_nil_r.
      split; [reflexivity|]. split; [constructor|]. split; [intros x []|].
      intros x [[H|[]]|[H|[]]]; injection H as H1 H2; congruence.
Qed.

(** All keys, seen from [cur]: the queue grows by the neighbours of [cur]
    that it did not hold. *)
Lemma scan_spec (cur : nat) (keys : list Key) (q : list nat) :
  exists e,
    fold_left (visit_key cur) keys (q, q) = (q ++ e, q ++ e)
    /\ NoDup e
    /\ (forall x, In x e -> adjacent keys cur x /\ ~ In x q)
    /\ (forall x, adjacent keys cur x -> In x (q ++ e)).
Proof.
  revert q. induction keys as [|k keys IH]; intros q.
  - exists []. rewrite app_nil_r.
    split; [reflexivity|]. split; [constructor|]. split; [intros x []|].
    intros x [[]|[]].
  - destruct (visit_key_spec cur q k) as [e1 [Hv [Hnd1 [Hnew1 Hall1]]]].
    destruct (IH (q ++ e1)) as [e2 [Hf [Hnd2 [Hnew2 Hall2]]]].
    exists (e1 ++ e2). cbn [fold_left]. rewrite Hv, Hf, <- app_assoc.
    split; [reflexivity|]. split; [|split].
    + apply NoDup_app; [exact Hnd1 | exact Hnd2 |].
      intros x H1 H2. destruct (Hnew2 x H2) as [_ Hn].
      apply Hn. apply in_or_app. right. exact H1.
    + intros x Hx. rewrite adjacent_cons. apply in_app_or in Hx.
      destruct Hx as [Hx|Hx].
      * destruct (Hnew1 x Hx). tauto.
      * destruct (Hnew2 x Hx) as [Ha Hn]. split; [tauto|].
        intros Hq. apply Hn. apply in_or_app. left. exact Hq.
    + intros x Hx. rewrite adjacent_cons in Hx. destruct Hx as [Hx|Hx].
      * specialize (Hall1 x Hx). rewrite app_assoc. apply in_or_app. left. exact Hall1.
      * rewrite app_assoc. exact (Hall2 x Hx).
Qed.

Section ComponentLoop.

Variable keys : list Key.
Variable id : nat.

Lemma queue_inv_length (head : nat) (q : list nat) :
  queue_inv keys id head q -> List.length q <= S (2 * List.length keys).
Proof.
  intros I. rewrite <- endpoints_length.
  change (S (List.length (endpoints keys))) with (List.length (id :: endpoints keys)).
  apply NoDup_incl_length; [apply (qi_nodup I) | apply (qi_bound I)].
Qed.

(** When every joint of the queue is done, the queue is the component. *)
Lemma queue_inv_final (head : nat) (q : list nat) :
  queue_inv keys id head q -> List.length q <= head ->
  forall x, In x q <-> linked keys id x.
Proof.
  intros I Hlen x. split; [apply (qi_sound I)|].
  induction 1 as [|b c Hb IH Hadj]; [apply (qi_start I)|].
  destruct (In_nth_error _ _ IH) as [i Hi].
  assert (i < List.length q) by (apply nth_error_Some; congruence).
  apply (qi_done I) with (i := i) (y := b); [lia | exact Hi | exact Hadj].
Qed.

Lemma queue_inv_step (head cur : nat) (q e : list nat) :
  queue_inv keys id head q -> nth_error q head = Some cur ->
  NoDup e ->
  (forall x, In x e -> adjacent keys cur x /\ ~ In x q) ->
  (forall x, adjacent keys cur x -> In x (q ++ e)) ->
  queue_inv keys id (S head) (q ++ e).
Proof.
  intros I Hcur Hnd Hnew Hall.
  assert (Hlt : head < List.length q) by (apply nth_error_Some; congruence).
  constructor.
  - apply NoDup_app; [apply (qi_nodup I) | exact Hnd |].
    intros x Hq He. destruct (Hnew x He) as [_ Hn]. exact (Hn Hq).
  - apply in_or_app. left. apply (qi_start I).
  - intros x Hx. apply in_app_or in Hx. destruct Hx as [Hx|Hx].
    + apply (qi_sound I), Hx.
    + apply linked_step with (b := cur).
      * apply (qi_sound I). eapply nth_error_In. exact Hcur.
      * apply (Hnew x Hx).
  - intros i y x Hi Hy Hadj.
    rewrite nth_error_app1 in Hy by lia.
    destruct (Nat.eq_dec i head) as [->|Hne].
    + rewrite Hcur in Hy. injection Hy as <-. exact (Hall x Hadj).
    + apply in_or_app. left.
      apply (qi_done I) with (i := i) (y := y); [lia | exact Hy | exact Hadj].
  - intros x Hx. apply in_app_or in Hx. destruct Hx as [Hx|Hx].
    + apply (qi_bound I), Hx.
    + right. apply adjacent_endpoint with (a := cur). apply (Hnew x Hx).
Qed.

(** With fuel for every joint the queue can still take, the loop ends and
    returns the component. *)
Lemma component_loop_spec (fuel head : nat) (q : list nat) :
  queue_inv keys id head q ->
  S (2 * List.length keys) <= fuel + head ->
  exists s, component_loop fuel keys head q q = Ok s
            /\ forall x, In x s <-> linked keys id x.
Proof.
  revert head q. induction fuel as [|fuel IH]; intros head q I Hfuel.
  - pose proof (queue_inv_length I) as Hlen.
    assert (Hnone : nth_error q head = None) by (apply nth_error_None; lia).
    cbn [component_loop]. rewrite Hnone.
    exists q. split; [reflexivity|]. apply (queue_inv_final I). lia.
  - cbn [component_loop].
    destruct (nth_error q head) as [cur|] eqn:Hcur.
    + destruct (scan_spec cur keys q) as [e [Hscan [Hnd [Hnew Hall]]]].
      rewrite Hscan.
      apply IH; [ | lia ].
      exact (queue_inv_step I Hcur Hnd Hnew Hall).
    + exists q. split; [reflexivity|].
      apply (queue_inv_final I). apply nth_error_None. exact Hcur.
Qed.

End ComponentLoop.

(** The component search of [handleKeypointMove] ends and finds exactly the
    joints linked to the dragged one. *)
Lemma connectedComponent_spec (cs : Constraints) (id : nat) :
  exists s, connectedComponent cs id = Ok s
            /\ forall x, In x s <-> linked (keysOf cs) id x.
Proof.
  unfold connectedComponent.
  apply component_loop_spec.
  - constructor.
    + constructor; [intros []|constructor].
    + left. reflexivity.
    + intros x [<-|[]]. constructor.
    + intros i y x Hi. lia.
    + intros x [<-|[]]. left. reflexivity.
  - unfold keysOf. rewrite length_map. lia.
Qed.

(** ** Drag engine: translate mode *)

Lemma dist_translate (a b : Keypoint) (dx dy : R) :
  dist (with_xy a (kp_x a + dx) (kp_y a + dy)) (with_xy b (kp_x b + dx) (kp_y b + dy))
  = dist a b.
Proof. unfold dist. cbn [kp_x kp_y with_xy]. f_equal. ring. Qed.

(** C6. In translate mode, dragging joint [id], found at [src], to [(x, y)]
    moves every joint of the connected component of [id] by exactly
    [(x - src.x, y - src.y)], leaves every joint outside it as it was, and
    keeps every distance between two joints of the component. *)
Theorem translate_drag_moves_component (st : App) (id : nat) (x y : R) (src : Keypoint) :
  lockedJointMode st = translate ->
  find_kp id (keypoints st) = Some src ->
  let dx := (x - kp_x src)%R in
  let dy := (y - kp_y src)%R in
  let member n := linked (keysOf (constraints st)) id n in
  exists kps',
    handleKeypointMove id x y st = Ok (setKeypoints kps' st)
    /\ List.length kps' = List.length (keypoints st)
    /\ (forall i kp, nth_error (keypoints st) i = Some kp ->
          (member (kp_id kp) ->
           nth_error kps' i = Some (with_xy kp (kp_x kp + dx) (kp_y kp + dy)))
          /\ (~ member (kp_id kp) -> nth_error kps' i = Some kp))
    /\ (forall i j a b a' b',
          nth_error (keypoints st) i = Some a -> nth_error (keypoints st) j = Some b ->
          nth_error kps' i = Some a' -> nth_error kps' j = Some b' ->
          member (kp_id a) -> member (kp_id b) ->
          dist a' b' = dist a b).
Proof.
  intros Hmode Hsrc dx dy member.
  destruct (connectedComponent_spec (constraints st) id) as [s [Hs Hin]].
  unfold handleKeypointMove, moveKeypoint. rewrite Hsrc, Hs, Hmode. cbn [bind].
  fold dx dy.
  set (f := fun kp => if has s (kp_id kp)
                      then with_xy kp (kp_x kp + dx) (kp_y kp + dy) else kp).
  assert (Hf_in : forall kp, member (kp_id kp) ->
                    f kp = with_xy kp (kp_x kp + dx) (kp_y kp + dy)).
  { intros kp Hm. unfold f. apply Hin, has_In in Hm. rewrite Hm. reflexivity. }
  assert (Hf_out : forall kp, ~ member (kp_id kp) -> f kp = kp).
  { intros kp Hm. unfold f.
    destruct (has s (kp_id kp)) eqn:E; [|reflexivity].
    exfalso. apply Hm, Hin, has_In, E. }
  exists (map f (keypoints st)).
  split; [reflexivity|]. split; [apply length_map|]. split.
  - intros i kp Hi. rewrite nth_error_map, Hi. cbn [option_map].
    split; intros Hm; f_equal; auto.
  - intros i j a b a' b' Ha Hb Ha' Hb' Hma Hmb.
    rewrite nth_error_map, Ha in Ha'. rewrite nth_error_map, Hb in Hb'.
    cbn [option_map] in Ha', Hb'.
    injection Ha' as <-. injection Hb' as <-.
    rewrite (Hf_in a Hma), (Hf_in b Hmb). apply dist_translate.
Qed.

Lemma translate_drag_moves_component_witness :
  exists kps',
    handleKeypointMove 3 200 200 lockedArmApp = Ok (setKeypoints kps' lockedArmApp)
    /\ option_map (fun k => (kp_x k, kp_y k)) (nth_error kps' 1)
       = Some (256 + (200 - 186), 115 + (200 - 195))%R
    /\ nth_error kps' 5 = nth_error defaultPose 5.
Proof.
  destruct (translate_drag_moves_component lockedArmApp 3 200 200
              (src := _) eq_refl eq_refl) as [kps' [H1 [_ [H3 _]]]].
  exists kps'. split; [exact H1|]. split.
  - destruct (H3 1 _ eq_refl) as [Hin _]. rewrite Hin; [reflexivity|].
    apply linked_step with (b := 2); [apply linked_step with (b := 3)|].
    + apply linked_refl.
    + right. present.
    + right. present.
  - destruct (H3 5 _ eq_refl) as [_ Hout]. apply Hout.
    destruct (connectedComponent_spec (constraints lockedArmApp) 3) as [s [Hs Hin]].
    change (connectedComponent (constraints lockedArmApp) 3) with (Ok [3; 2; 1]) in Hs.
    injection Hs as <-. intros Hl. apply Hin in Hl. revert Hl. absent.
Defined.

(** ** Drag engine: constraint mode *)

Lemma find_kp_id (a : nat) (l : list Keypoint) (k : Keypoint) :
  find_kp a l = Some k -> kp_id k = a.
Proof.
  unfold find_kp. intros H. apply find_some in H. destruct H as [_ H].
  apply Nat.eqb_eq. exact H.
Qed.

Lemma find_kp_map (a : nat) (g : Keypoint -> Keypoint) (l : list Keypoint) :
  (forall k, kp_id (g k) = kp_id k) ->
  find_kp a (map g l) = option_map g (find_kp a l).
Proof.
  intros Hg. unfold find_kp. induction l as [|k rest IH]; [reflexivity|].
  cbn [map find]. rewrite Hg. destruct (kp_id k =? a); [reflexivity | exact IH].
Qed.

Lemma checked_div_ok (a b : R) : b <> 0%R -> checked_div a b = Ok (a / b)%R.
Proof.
  intros Hb. unfold checked_div. destruct (Req_dec_T b 0); [contradiction|reflexivity].
Qed.

(** One constraint never fails: it divides only by a positive distance. *)
Lemma project_ok (prev : list Keypoint) (id : nat) (x y : R) (a : Accum) (e : Key * R) :
  exists a', project prev id x y (Ok a) e = Ok a'.
Proof.
  destruct e as [[p1 p2] targetDist]. unfold project. cbn [bind].
  destruct (find_kp _ prev) as [otherKp|]; [|eexists; reflexivity].
  destruct (Rlt_dec 0 _) as [Hpos|_]; [|eexists; reflexivity].
  rewrite checked_div_ok by lra. cbn [bind]. eexists; reflexivity.
Qed.

Lemma fold_project_ok (prev : list Keypoint) (id : nat) (x y : R)
  (es : list (Key * R)) (a : Accum) :
  exists a', fold_left (project prev id x y) es (Ok a) = Ok a'.
Proof.
  revert a. induction es as [|e es IH]; intros a; [eexists; reflexivity|].
  cbn [fold_left]. destruct (project_ok prev id x y a e) as [a1 H1].
  rewrite H1. apply IH.
Qed.

Lemma resolve_total (cs : Constraints) (id : nat) (x y : R) (prev : list Keypoint) :
  exists p, resolve cs id x y prev = Ok p.
Proof.
  unfold resolve. destruct (0 <? _); [|eexists; reflexivity].
  destruct (fold_project_ok prev id x y (activeConstraints cs id) (mkAccum 0 0 0))
    as [a Ha].
  rewrite Ha. cbn [bind].
  destruct (0 <? count a) eqn:E; [|eexists; reflexivity].
  apply Nat.ltb_lt in E.
  assert (INR (count a) <> 0%R) by (apply not_0_INR; lia).
  rewrite !checked_div_ok by assumption. cbn [bind]. eexists; reflexivity.
Qed.

(** The drag engine returns a pose for every input: its loop ends within
    the fuel and it never divides by zero. *)
Lemma moveKeypoint_total (cs : Constraints) (mode : LockedJointMode) (id : nat)
  (x y : R) (prev : list Keypoint) :
  exists kps, moveKeypoint cs mode id x y prev = Ok kps /\ ids kps = ids prev.
Proof.
  unfold moveKeypoint.
  destruct (find_kp id prev) as [src|]; [|eexists; split; reflexivity].
  destruct (connectedComponent_spec cs id) as [s [Hs _]]. rewrite Hs. cbn [bind].
  destruct mode.
  - eexists; split; [reflexivity|]. unfold ids. rewrite map_map.
    apply map_ext. intros kp. destruct (has s (kp_id kp)); reflexivity.
  - destruct (resolve_total cs id x y prev) as [p Hp]. rewrite Hp. cbn [bind].
    eexists; split; [reflexivity|]. unfold ids. rewrite map_map.
    apply map_ext. intros kp. destruct (kp_id kp =? id); reflexivity.
Qed.

(** The position that one constraint [((p1, p2), d)] with partner at
    [(ox, oy)] asks for, when the target [(x, y)] is not on the partner. *)
Lemma resolve_single (cs : Constraints) (id p1 p2 : nat) (d x y : R)
  (prev : list Keypoint) (other : Keypoint) :
  activeConstraints cs id = [((p1, p2), d)] ->
  find_kp (if p1 =? id then p2 else p1) prev = Some other ->
  (x <> kp_x other \/ y <> kp_y other) ->
  let dx := (x - kp_x other)%R in
  let dy := (y - kp_y other)%R in
  let scale := (d / sqrt (dx * dx + dy * dy))%R in
  resolve cs id x y prev
  = Ok ((0 + (kp_x other + dx * scale)) / INR 1, (0 + (kp_y other + dy * scale)) / INR 1)%R
  /\ (0 < sqrt (dx * dx + dy * dy))%R.
Proof.
  intros Hact Hother Hne dx dy scale.
  assert (Hm : (0 < dx * dx + dy * dy)%R).
  { pose proof (Rle_0_sqr dx) as Hx. pose proof (Rle_0_sqr dy) as Hy.
    destruct Hne as [H|H].
    - assert (Hp : (0 < Rsqr dx)%R) by (apply Rsqr_pos_lt; subst dx; lra).
      unfold Rsqr in *. lra.
    - assert (Hp : (0 < Rsqr dy)%R) by (apply Rsqr_pos_lt; subst dy; lra).
      unfold Rsqr in *. lra. }
  assert (Hs : (0 < sqrt (dx * dx + dy * dy))%R) by (apply sqrt_lt_R0; exact Hm).
  split; [|exact Hs].
  unfold resolve. rewrite Hact. cbn [List.length Nat.ltb Nat.leb fold_left project bind].
  rewrite Hother. fold dx dy.
  destruct (Rlt_dec 0 (sqrt (dx * dx + dy * dy))) as [_|Hn]; [|contradiction].
  rewrite checked_div_ok by lra. cbn [bind count sumX sumY Nat.ltb Nat.leb].
  rewrite !checked_div_ok by (apply not_0_INR; discriminate).
  reflexivity.
Qed.


Lemma dist_projected (ox oy dx dy d : R) (a b : Keypoint) :
  (0 <= d)%R -> (0 < sqrt (dx * dx + dy * dy))%R ->
  kp_x a = ((0 + (ox + dx * (d / sqrt (dx * dx + dy * dy)))) / INR 1)%R ->
  kp_y a = ((0 + (oy + dy * (d / sqrt (dx * dx + dy * dy)))) / INR 1)%R ->
  kp_x b = ox -> kp_y b = oy ->
  dist a b = d.
Proof.
  intros Hd Hs Hax Hay Hbx Hby. unfold dist. rewrite Hax, Hay, Hbx, Hby.
  set (m := (dx * dx + dy * dy)%R) in *.
  assert (Hm : (0 <= m)%R) by (subst m; nra).
  pose proof (sqrt_sqrt m Hm) as Hsq.
  transitivity (sqrt (d * d)); [f_equal | apply sqrt_square; exact Hd].
  cbn [INR]. set (s := sqrt m) in *.
  assert (Hmpos : (0 < m)%R) by nra.
  transitivity (m * (d * d) / (s * s))%R.
  - subst m. field. lra.
  - rewrite Hsq. field. lra.
Qed.

(** A drag in constraint mode, given the position [resolve] returns. *)
Lemma constraint_drag (st : App) (id : nat) (x y nx ny : R) (src : Keypoint) :
  lockedJointMode st = rotate ->
  find_kp id (keypoints st) = Some src ->
  resolve (constraints st) id x y (keypoints st) = Ok (nx, ny) ->
  handleKeypointMove id x y st
  = Ok (setKeypoints
          (map (fun kp => if kp_id kp =? id then with_xy kp nx ny else kp)
               (keypoints st)) st).
Proof.
  intros Hmode Hsrc Hres.
  destruct (connectedComponent_spec (constraints st) id) as [s [Hs _]].
  unfold handleKeypointMove, moveKeypoint.
  rewrite Hsrc, Hs, Hmode. cbn [bind]. rewrite Hres. reflexivity.
Qed.


(** C7. In constraint mode, when the dragged joint [id] has exactly one
    active constraint, of target distance [d >= 0] to a partner [j] other
    than [id] itself, and the raw target [(x, y)] is not the position of
    [j], the dragged joint ends at distance exactly [d] from [j]; the
    coordinates of the dragged joint are all that changes. *)
Theorem single_constraint_drag_distance (st : App) (id p1 p2 : nat) (d x y : R)
  (src other : Keypoint) :
  lockedJointMode st = rotate ->
  find_kp id (keypoints st) = Some src ->
  activeConstraints (constraints st) id = [((p1, p2), d)] ->
  let j := if p1 =? id then p2 else p1 in
  j <> id ->
  find_kp j (keypoints st) = Some other ->
  (0 <= d)%R ->
  (x <> kp_x other \/ y <> kp_y other) ->
  exists nx ny moved,
    handleKeypointMove id x y st
    = Ok (setKeypoints
            (map (fun kp => if kp_id kp =? id then with_xy kp nx ny else kp)
                 (keypoints st)) st)
    /\ find_kp id (map (fun kp => if kp_id kp =? id then with_xy kp nx ny else kp)
                       (keypoints st)) = Some moved
    /\ find_kp j (map (fun kp => if kp_id kp =? id then with_xy kp nx ny else kp)
                      (keypoints st)) = Some other
    /\ dist moved other = d.
Proof.
  intros Hmode Hsrc Hact j Hj Hother Hd Hne.
  destruct (resolve_single (constraints st) id (keypoints st) Hact Hother Hne)
    as [Hres Hpos].
  set (dx := (x - kp_x other)%R) in *. set (dy := (y - kp_y other)%R) in *.
  set (nx := ((0 + (kp_x other + dx * (d / sqrt (dx * dx + dy * dy)))) / INR 1)%R) in *.
  set (ny := ((0 + (kp_y other + dy * (d / sqrt (dx * dx + dy * dy)))) / INR 1)%R) in *.
  exists nx, ny, (with_xy src nx ny).
  assert (Hg : forall k, kp_id (if kp_id k =? id then with_xy k nx ny else k) = kp_id k).
  { intros k. destruct (kp_id k =? id); reflexivity. }
  split; [ | split; [ | split ] ].
  - exact (constraint_drag st id x y Hmode Hsrc Hres).
  - rewrite (find_kp_map id _ (keypoints st) Hg), Hsrc. cbn [option_map].
    rewrite (find_kp_id _ _ Hsrc), Nat.eqb_refl. reflexivity.
  - rewrite (find_kp_map j _ (keypoints st) Hg), Hother. cbn [option_map].
    rewrite (find_kp_id _ _ Hother).
    apply Nat.eqb_neq in Hj. rewrite Hj. reflexivity.
  - apply dist_projected with (ox := kp_x other) (oy := kp_y other) (dx := dx) (dy := dy);
      auto.
Qed.

Lemma single_constraint_drag_distance_witness :
  exists nx ny moved other,
    find_kp 2 (keypoints rotateArmApp) = Some other
    /\ handleKeypointMove 3 236 155 rotateArmApp
       = Ok (setKeypoints
               (map (fun kp => if kp_id kp =? 3 then with_xy kp nx ny else kp)
                    (keypoints rotateArmApp)) rotateArmApp)
    /\ find_kp 3 (map (fun kp => if kp_id kp =? 3 then with_xy kp nx ny else kp)
                      (keypoints rotateArmApp)) = Some moved
    /\ dist moved other = 80%R.
Proof.
  edestruct (@single_constraint_drag_distance rotateArmApp 3 2 3 80 236 155)
    as [nx [ny [moved [H1 [H2 [_ H4]]]]]].
  - reflexivity.
  - reflexivity.
  - reflexivity.
  - cbn. discriminate.
  - reflexivity.
  - lra.
  - left. cbn. lra.
  - exists nx, ny, moved. eexists. split; [reflexivity|].
    split; [exact H1|]. split; [exact H2|exact H4].
Defined.




(** ** Scale *)

Lemma tight_box_skip (b : Bounds) (seen : list Keypoint) (kp : Keypoint) :
  kp_visible kp = false -> tight_box b seen -> tight_box b (seen ++ [kp]).
Proof.
  intros Hv [Hin [l [Hl1 Hl2]] [r [Hr1 Hr2]] [t [Ht1 Ht2]] [u [Hu1 Hu2]]].
  constructor.
  - intros k Hk Hkv. apply in_app_or in Hk. destruct Hk as [Hk|[<-|[]]].
    + exact (Hin k Hk Hkv).
    + congruence.
  - exists l. split; [apply in_or_app; left; exact Hl1 | exact Hl2].
  - exists r. split; [apply in_or_app; left; exact Hr1 | exact Hr2].
  - exists t. split; [apply in_or_app; left; exact Ht1 | exact Ht2].
  - exists u. split; [apply in_or_app; left; exact Hu1 | exact Hu2].
Qed.

Lemma Rmin_attained (a b : R) : Rmin a b = a \/ Rmin a b = b.
Proof. unfold Rmin. destruct (Rle_dec a b); auto. Qed.

Lemma Rmax_attained (a b : R) : Rmax a b = a \/ Rmax a b = b.
Proof. unfold Rmax. destruct (Rle_dec a b); auto. Qed.

Lemma grow_box (acc : option Bounds) (seen : list Keypoint) (kp : Keypoint) :
  box_of acc seen -> box_of (grow acc kp) (seen ++ [kp]).
Proof.
  intros Hacc. unfold grow. destruct (kp_visible kp) eqn:Hv.
  - assert (Hlast : In kp (seen ++ [kp])) by (apply in_or_app; right; left; reflexivity).
    destruct acc as [b|]; cbn [box_of] in *.
    + destruct Hacc as [Hin [l [Hl1 Hl2]] [r [Hr1 Hr2]] [t [Ht1 Ht2]] [u [Hu1 Hu2]]].
      constructor; cbn [minX maxX minY maxY].
      * intros k Hk Hkv. apply in_app_or in Hk. destruct Hk as [Hk|[<-|[]]].
        -- destruct (Hin k Hk Hkv) as [[H1 H2] [H3 H4]].
           pose proof (Rmin_l (minX b) (kp_x kp)). pose proof (Rmax_l (maxX b) (kp_x kp)).
           pose proof (Rmin_l (minY b) (kp_y kp)). pose proof (Rmax_l (maxY b) (kp_y kp)).
           lra.
        -- pose proof (Rmin_r (minX b) (kp_x kp)). pose proof (Rmax_r (maxX b) (kp_x kp)).
           pose proof (Rmin_r (minY b) (kp_y kp)). pose proof (Rmax_r (maxY b) (kp_y kp)).
           lra.
      * destruct (Rmin_attained (minX b) (kp_x kp)) as [E|E]; rewrite E.
        -- exists l. split; [apply in_or_app; left; exact Hl1 | exact Hl2].
        -- exists kp. auto.
      * destruct (Rmax_attained (maxX b) (kp_x kp)) as [E|E]; rewrite E.
        -- exists r. split; [apply in_or_app; left; exact Hr1 | exact Hr2].
        -- exists kp. auto.
      * destruct (Rmin_attained (minY b) (kp_y kp)) as [E|E]; rewrite E.
        -- exists t. split; [apply in_or_app; left; exact Ht1 | exact Ht2].
        -- exists kp. auto.
      * destruct (Rmax_attained (maxY b) (kp_y kp)) as [E|E]; rewrite E.
        -- exists u. split; [apply in_or_app; left; exact Hu1 | exact Hu2].
        -- exists kp. auto.
    + constructor; cbn [minX maxX minY maxY]; try (exists kp; auto).
      intros k Hk Hkv. apply in_app_or in Hk. destruct Hk as [Hk|[<-|[]]].
      * rewrite (Hacc k Hk) in Hkv. discriminate Hkv.
      * lra.
  - destruct acc as [b|]; cbn [box_of] in *.
    + apply tight_box_skip; assumption.
    + intros k Hk. apply in_app_or in Hk. destruct Hk as [Hk|[<-|[]]]; auto.
Qed.

Lemma fold_grow_box (l seen : list Keypoint) (acc : option Bounds) :
  box_of acc seen -> box_of (fold_left grow l acc) (seen ++ l).
Proof.
  revert seen acc. induction l as [|kp l IH]; intros seen acc Hacc.
  - rewrite app_nil_r. exact Hacc.
  - cbn [fold_left].
    replace (seen ++ kp :: l) with ((seen ++ [kp]) ++ l) by (rewrite <- app_assoc; reflexivity).
    apply IH, grow_box, Hacc.
Qed.

(** A pose has one tight box. *)
Lemma tight_box_unique (b b' : Bounds) (kps : list Keypoint) :
  tight_box b kps -> tight_box b' kps -> b = b'.
Proof.
  intros H H'.
  destruct (tb_left H) as [l [Hl [Hlv Hlx]]].
  destruct (tb_left H') as [l' [Hl' [Hlv' Hlx']]].
  destruct (tb_right H) as [r [Hr [Hrv Hrx]]].
  destruct (tb_right H') as [r' [Hr' [Hrv' Hrx']]].
  destruct (tb_top H) as [t [Ht [Htv Hty]]].
  destruct (tb_top H') as [t' [Ht' [Htv' Hty']]].
  destruct (tb_bottom H) as [u [Hu [Huv Huy]]].
  destruct (tb_bottom H') as [u' [Hu' [Huv' Huy']]].
  pose proof (tb_inside H' l Hl Hlv). pose proof (tb_inside H l' Hl' Hlv').
  pose proof (tb_inside H' r Hr Hrv). pose proof (tb_inside H r' Hr' Hrv').
  pose proof (tb_inside H' t Ht Htv). pose proof (tb_inside H t' Ht' Htv').
  pose proof (tb_inside H' u Hu Huv). pose proof (tb_inside H u' Hu' Huv').
  destruct b as [x0 x1 y0 y1], b' as [x0' x1' y0' y1']; cbn [minX maxX minY maxY] in *.
  f_equal; apply Rle_antisym; lra.
Qed.

(** The three cases of [getPivotPoint]: the centroid of the anchored
    joints; without anchors, the middle of the tight box of the visible
    joints; with no visible joint either, the centre of the canvas. *)
Lemma getPivotPoint_spec (sz : Size) (kps : list Keypoint) :
  let anchors := filter is_anchored kps in
  let pivot := getPivotPoint sz kps in
  (anchors <> [] ->
     pivot = mkPoint (total kp_x anchors / INR (List.length anchors))
                     (total kp_y anchors / INR (List.length anchors)))
  /\ (anchors = [] -> forall b, tight_box b kps ->
        pivot = mkPoint ((minX b + maxX b) / 2) ((minY b + maxY b) / 2))
  /\ (anchors = [] -> (forall kp, In kp kps -> kp_visible kp = false) ->
        pivot = mkPoint (width sz / 2) (height sz / 2)).
Proof.
  intros anchors pivot. subst pivot. unfold getPivotPoint. fold anchors.
  assert (Hbox : box_of (fold_left grow kps None) ([] ++ kps)).
  { apply fold_grow_box. intros kp []. }
  cbn [app] in Hbox.
  split; [ | split ].
  - intros Hne. destruct anchors as [|a rest]; [congruence|]. reflexivity.
  - intros -> b Hb. cbn [List.length Nat.ltb Nat.leb].
    unfold getPoseCenter.
    destruct (fold_left grow kps None) as [b0|]; cbn [box_of] in Hbox.
    + rewrite (tight_box_unique Hb Hbox). reflexivity.
    + destruct (tb_left Hb) as [k [Hk [Hv _]]].
      rewrite (Hbox k Hk) in Hv. discriminate Hv.
  - intros -> Hhidden. cbn [List.length Nat.ltb Nat.leb].
    unfold getPoseCenter.
    destruct (fold_left grow kps None) as [b0|]; cbn [box_of] in Hbox.
    + destruct (tb_left Hbox) as [k [Hk [Hv _]]].
      rewrite (Hhidden k Hk) in Hv. discriminate Hv.
    + reflexivity.
Qed.

(** The tight box of the reference pose: wrist to wrist, eyes to ankles. *)
Lemma reference_pose_box : tight_box (mkBounds 166 346 45 455) defaultPose.
Proof.
  constructor; cbn [minX maxX minY maxY].
  - intros kp Hin _. simpl in Hin.
    repeat (destruct Hin as [Hin|Hin]; [subst kp; cbn; lra|]).
    destruct Hin.
  - eexists. split; [do 4 right; left; reflexivity|]. split; reflexivity.
  - eexists. split; [do 7 right; left; reflexivity|]. split; reflexivity.
  - eexists. split; [do 14 right; left; reflexivity|]. split; reflexivity.
  - eexists. split; [do 10 right; left; reflexivity|]. split; reflexivity.
Qed.

(** C8. During a scale gesture with base snapshot [base], scaling by
    [factor] puts every joint at [pivot + (position - pivot) * factor],
    where [position] is the joint's position in [base], changing nothing
    else of the joint, and it stores for every constraint [factor] times
    the distance that [base] holds for it.  The pivot is computed from the
    keypoints of [base]: with anchored joints it is their centroid (the
    coordinates summed in order, divided by their number); without anchors
    it is the middle of the tight box around the visible joints; with
    neither, the centre of the canvas. *)
Theorem scale_about_pivot (st : App) (factor : R) (base : HistoryState) :
  transformBaseRef st = Some base ->
  let anchors := filter is_anchored (hs_keypoints base) in
  let st' := handleScale factor st in
  exists pivot,
    (anchors <> [] ->
       pivot = mkPoint (total kp_x anchors / INR (List.length anchors))
                       (total kp_y anchors / INR (List.length anchors)))
    /\ (anchors = [] -> forall b, tight_box b (hs_keypoints base) ->
          pivot = mkPoint ((minX b + maxX b) / 2) ((minY b + maxY b) / 2))
    /\ (anchors = [] ->
        (forall kp, In kp (hs_keypoints base) -> kp_visible kp = false) ->
          pivot = mkPoint (width (size st) / 2) (height (size st) / 2))
    /\ List.length (keypoints st') = List.length (hs_keypoints base)
    /\ (forall i kp, nth_error (hs_keypoints base) i = Some kp ->
          nth_error (keypoints st') i
          = Some (with_xy kp (pt_x pivot + (kp_x kp - pt_x pivot) * factor)
                             (pt_y pivot + (kp_y kp - pt_y pivot) * factor)))
    /\ List.length (constraints st') = List.length (hs_constraints base)
    /\ (forall i key d, nth_error (hs_constraints base) i = Some (key, d) ->
          nth_error (constraints st') i = Some (key, (d * factor)%R)).
Proof.
  intros Hbase anchors st'.
  exists (getPivotPoint (size st) (hs_keypoints base)).
  destruct (getPivotPoint_spec (size st) (hs_keypoints base)) as [Ha [Hb Hc]].
  split; [exact Ha|]. split; [exact Hb|]. split; [exact Hc|].
  subst st'. unfold handleScale. rewrite Hbase.
  cbn [keypoints constraints setConstraints setKeypoints size].
  unfold scaleKeypoints, scaleConstraints.
  split; [apply length_map|]. split; [|split; [apply length_map|]].
  - intros i kp Hi. rewrite nth_error_map, Hi. reflexivity.
  - intros i key d Hi. rewrite nth_error_map, Hi. reflexivity.
Qed.

Lemma scale_about_pivot_witness :
  (let st' := handleScale 2 (handleScaleStart lockedArmApp) in
   option_map (fun kp => (kp_x kp, kp_y kp)) (nth_error (keypoints st') 2)
   = Some (156%R, (-20)%R)
   /\ nth_error (constraints st') 1 = Some ((2, 3), (80 * 2)%R)
   /\ List.length (keypoints st') = 18)
  /\ (let st' := handleScale 2 (handleScaleStart anchoredApp) in
      option_map (fun kp => (kp_x kp, kp_y kp)) (nth_error (keypoints st') 2)
      = Some (156%R, 115%R)).
Proof.
  split.
  - intros st'.
    destruct (@scale_about_pivot (handleScaleStart lockedArmApp) 2 _ eq_refl)
      as [pivot [_ [Hbox [_ [Hlen [Hkps [_ Hcs]]]]]]].
    specialize (Hbox eq_refl _ reference_pose_box).
    split; [ | split ].
    + subst st'. rewrite (Hkps 2 _ eq_refl), Hbox.
      cbn. f_equal. f_equal; lra.
    + apply (Hcs 1 (2, 3) 80%R). reflexivity.
    + exact Hlen.
  - intros st'.
    destruct (@scale_about_pivot (handleScaleStart anchoredApp) 2 _ eq_refl)
      as [pivot [Hanchor [_ [_ [_ [Hkps _]]]]]].
    assert (Hp : pivot = mkPoint ((0 + 256) / 1) ((0 + 115) / 1)).
    { apply Hanchor. discriminate. }
    subst st'. rewrite (Hkps 2 _ eq_refl), Hp.
    cbn. f_equal. f_equal; lra.
Defined.

(** The pivot of a pose without anchors is the middle of the bounding box
    of its visible joints; here, of the reference pose. *)
Example pivot_of_default_pose :
  exists b,
    fold_left grow defaultPose None = Some b
    /\ getPivotPoint (mkSize 512 512) defaultPose
       = mkPoint ((minX b + maxX b) / 2) ((minY b + maxY b) / 2).
Proof.
  unfold getPivotPoint, getPoseCenter.
  change (filter is_anchored defaultPose) with (@nil Keypoint).
  cbn [List.length Nat.ltb Nat.leb].
  destruct (fold_left grow defaultPose None) as [b|] eqn:E.
  - exists b. split; reflexivity.
  - discriminate E.
Qed.

(** ** Pose detection *)

(** A failed detection is reported and leaves the keypoints as they were,
    but the constraints are gone: they are cleared before the call. *)
Lemma failed_detection (st : App) (detection : Detection) :
  hasImage st = true ->
  detection_failed detection ->
  exists st' msg,
    handleAutoDetect detection st = Ok st'
    /\ alerts st' = alerts st ++ [msg]
    /\ keypoints st' = keypoints st
    /\ constraints st' = []
    /\ past (history st') = past (history st) ++ [snapshot st].
Proof.
  intros Himg Hfail. unfold handleAutoDetect. rewrite Himg. cbn [negb].
  destruct detection as [points| |]; cbn [detection_failed] in Hfail.
  - apply Nat.eqb_neq in Hfail. rewrite Hfail. cbn [bind].
    eexists; exists MSG_NO_POSE; repeat split.
  - eexists; exists MSG_NO_POSE; repeat split.
  - eexists; exists MSG_DETECT_ERROR; repeat split.
Qed.

(** C4, the code at a failing input: with two constraints stored, a
    detection that returns nothing is reported and leaves the keypoints,
    but the stored constraints are lost. *)
Theorem failed_detection_clears_constraints :
  exists st',
    handleAutoDetect DetectedNull detectApp = Ok st'
    /\ alerts st' = [MSG_NO_POSE]
    /\ keypoints st' = keypoints detectApp
    /\ constraints detectApp = [((1, 2), 50%R); ((2, 3), 80%R)]
    /\ constraints st' = []
    /\ snapshot st' <> snapshot detectApp.
Proof.
  eexists. split; [reflexivity|].
  split; [reflexivity|]. split; [reflexivity|]. split; [reflexivity|].
  split; [reflexivity|].
  intros H. apply (f_equal hs_constraints) in H. discriminate H.
Qed.

(** ** Import *)

Lemma import_direct_nth (kpArray : list R) (k : nat) (kps : list Keypoint) (i : nat) :
  nth_error (import_direct kpArray k kps) i
  = option_map (import_joint kpArray (k + i)) (nth_error kps i).
Proof.
  revert k i. induction kps as [|kp rest IH]; intros k i.
  - destruct i; reflexivity.
  - destruct i as [|i]; cbn [import_direct nth_error option_map].
    + rewrite Nat.add_0_r. reflexivity.
    + rewrite IH. replace (S k + i) with (k + S i) by lia. reflexivity.
Qed.

Lemma import_direct_length (kpArray : list R) (k : nat) (kps : list Keypoint) :
  List.length (import_direct kpArray k kps) = List.length kps.
Proof.
  revert k. induction kps as [|kp rest IH]; intros k; [reflexivity|].
  cbn [import_direct List.length]. rewrite IH. reflexivity.
Qed.

(** C5 (as amended). A pose file whose [pose_keypoints_2d] array has fewer
    than 54 numbers is not refused and nothing is reported: joint [i]
    takes [x] and [y] from the array when the array holds its three numbers
    ([3 i + 2 < length]) and is visible when one of them is not zero, every
    other joint keeps what it had, and the constraints are cleared.  What
    is reported, with keypoints and constraints left as they were, is a
    [pose_keypoints_2d] that is missing or no array. *)
Theorem short_import_is_partial (st : App) (canvas_config : option (R * R))
  (rest : list Person) :
  (forall kpArray, List.length kpArray < 54 ->
     exists st',
       handleImportJson (Parsed canvas_config (PersonData (Some kpArray) :: rest)) st
       = Ok st'
       /\ alerts st' = alerts st
       /\ constraints st' = []
       /\ List.length (keypoints st') = List.length (keypoints st)
       /\ forall i kp, nth_error (keypoints st) i = Some kp ->
            nth_error (keypoints st') i
            = Some (if i * 3 + 2 <? List.length kpArray
                    then with_xy_visible kp (nth (i * 3) kpArray 0%R)
                                         (nth (i * 3 + 1) kpArray 0%R)
                                         (negb (is_zero (nth (i * 3) kpArray 0%R))
                                          || negb (is_zero (nth (i * 3 + 1) kpArray 0%R)))
                    else kp))
  /\ exists st',
       handleImportJson (Parsed canvas_config (PersonData None :: rest)) st = Ok st'
       /\ alerts st' = alerts st ++ [MSG_NO_KEYPOINTS]
       /\ keypoints st' = keypoints st
       /\ constraints st' = constraints st.
Proof.
  split.
  - intros kpArray Hshort. unfold handleImportJson, importKeypoints.
    assert (Hlt : (75 <=? List.length kpArray) = false) by (apply Nat.leb_gt; lia).
    rewrite Hlt. cbn [bind].
    eexists. split; [reflexivity|].
    split; [ | split; [ | split ] ].
    + destruct canvas_config as [[w h]|]; [destruct (_ && _)|]; reflexivity.
    + reflexivity.
    + cbn [keypoints setConstraints setKeypoints]. apply import_direct_length.
    + intros i kp Hi. cbn [keypoints setConstraints setKeypoints].
      rewrite import_direct_nth, Hi. cbn [option_map Nat.add].
      unfold import_joint, getKeypoint.
      destruct (i * 3 + 2 <? List.length kpArray) eqn:E.
      * apply Nat.ltb_lt in E.
        assert (E' : (List.length kpArray <=? i * 3 + 2) = false) by (apply Nat.leb_gt; lia).
        rewrite E'. reflexivity.
      * apply Nat.ltb_ge in E. apply Nat.leb_le in E. rewrite E. reflexivity.
  - unfold handleImportJson. eexists. split; [reflexivity|].
    destruct canvas_config as [[w h]|]; [destruct (_ && _)|]; repeat split.
Qed.

Lemma short_import_is_partial_witness :
  exists st',
    handleImportJson oneJointFile lockedArmApp = Ok st'
    /\ alerts st' = []
    /\ constraints st' = []
    /\ option_map kp_x (nth_error (keypoints st') 0) = Some 100%R
    /\ nth_error (keypoints st') 1 = nth_error (keypoints lockedArmApp) 1.
Proof.
  destruct (short_import_is_partial lockedArmApp None []) as [Hshort _].
  destruct (Hshort [100%R; 200%R; 1%R]) as [st' [H [Ha [Hc [_ Hn]]]]].
  - cbn [List.length]. lia.
  - exists st'. split; [exact H|]. split; [exact Ha|]. split; [exact Hc|]. split.
    + rewrite (Hn 0 _ eq_refl). reflexivity.
    + rewrite (Hn 1 _ eq_refl). reflexivity.
Defined.

(** C5 as stated fails: an array of 3 numbers is imported without any
    report; Nose (0) moves from x = 256 to x = 100 and the two stored
    constraints are dropped. *)
Lemma short_import_is_accepted :
  exists st',
    handleImportJson oneJointFile lockedArmApp = Ok st'
    /\ alerts st' = alerts lockedArmApp
    /\ option_map kp_x (find_kp 0 (keypoints lockedArmApp)) = Some 256%R
    /\ option_map kp_x (find_kp 0 (keypoints st')) = Some 100%R
    /\ constraints lockedArmApp = [((1, 2), 50%R); ((2, 3), 80%R)]
    /\ constraints st' = []
    /\ snapshot st' <> snapshot lockedArmApp.
Proof.
  eexists. split; [reflexivity|].
  split; [reflexivity|]. split; [reflexivity|]. split; [reflexivity|].
  split; [reflexivity|]. split; [reflexivity|].
  intros H. apply (f_equal hs_constraints) in H. discriminate H.
Qed.

(** ** The 18 joints stay *)

Lemma ids_map (g : Keypoint -> Keypoint) (l : list Keypoint) :
  (forall k, kp_id (g k) = kp_id k) -> ids (map g l) = ids l.
Proof. intros Hg. unfold ids. rewrite map_map. apply map_ext. exact Hg. Qed.

Lemma ids_update_first (d : nat) (g : Keypoint -> Keypoint) (l : list Keypoint) :
  (forall k, kp_id (g k) = kp_id k) -> ids (update_first d g l) = ids l.
Proof.
  intros Hg. unfold ids. induction l as [|k rest IH]; [reflexivity|].
  cbn [update_first]. destruct (kp_id k =? d); cbn [map].
  - rewrite Hg. reflexivity.
  - rewrite IH. reflexivity.
Qed.

Lemma ids_mirror_fold (axisX : R) (prev : list Keypoint) (ps : list (nat * nat))
  (l : list Keypoint) :
  ids (mirror_fold axisX prev ps l) = ids l.
Proof.
  revert l. unfold mirror_fold. induction ps as [|[s d] ps IH]; intros l; [reflexivity|].
  cbn [fold_left]. rewrite IH, mirror_step_update.
  destruct (find_kp s prev) as [srcKp|]; [|reflexivity].
  apply ids_update_first. intros k. reflexivity.
Qed.

Lemma import_joint_id (kpArray : list R) (srcIdx : nat) (kp : Keypoint) :
  kp_id (import_joint kpArray srcIdx kp) = kp_id kp.
Proof.
  unfold import_joint. destruct (getKeypoint kpArray srcIdx) as [[[vx vy] c]|]; reflexivity.
Qed.

Lemma ids_import_direct (kpArray : list R) (k : nat) (kps : list Keypoint) :
  ids (import_direct kpArray k kps) = ids kps.
Proof.
  revert k. unfold ids. induction kps as [|kp rest IH]; intros k0; [reflexivity|].
  cbn [import_direct map]. rewrite import_joint_id, IH. reflexivity.
Qed.

Lemma import_body25_ok (kpArray : list R) (i : nat) (kps : list Keypoint) :
  i + List.length kps <= 18 ->
  exists kps', import_body25 kpArray i kps = Ok kps' /\ ids kps' = ids kps.
Proof.
  revert i. induction kps as [|kp rest IH]; intros i Hlen.
  - exists []. split; reflexivity.
  - cbn [List.length] in Hlen. cbn [import_body25].
    destruct (nth_error BODY25_MAPPING i) as [srcIdx|] eqn:E.
    + destruct (IH (S i)) as [rest' [Hr Hi]]; [lia|].
      rewrite Hr. cbn [bind]. eexists. split; [reflexivity|].
      unfold ids in *. cbn [map]. rewrite import_joint_id, Hi. reflexivity.
    + apply nth_error_None in E. cbn [BODY25_MAPPING List.length] in E. lia.
Qed.

Lemma applyDetected_ok (points : list Point) (i : nat) (prev : list Keypoint) :
  i + List.length prev <= List.length points ->
  exists kps', applyDetected points i prev = Ok kps' /\ ids kps' = ids prev.
Proof.
  revert i. induction prev as [|kp rest IH]; intros i Hlen.
  - exists []. split; reflexivity.
  - cbn [List.length] in Hlen. cbn [applyDetected].
    destruct (nth_error points i) as [p|] eqn:E.
    + destruct (IH (S i)) as [rest' [Hr Hi]]; [lia|].
      rewrite Hr. cbn [bind]. eexists. split; [reflexivity|].
      unfold ids in *. cbn [map]. rewrite Hi. reflexivity.
    + apply nth_error_None in E. lia.
Qed.

Lemma skeleton_length (kps : list Keypoint) : skeleton kps -> List.length kps = 18.
Proof.
  unfold skeleton, ids. intros H. apply (f_equal (@List.length nat)) in H.
  rewrite length_map in H. exact H.
Qed.

Lemma skeleton_fitted (w h : R) : skeleton (generateFittedKeypoints w h).
Proof. reflexivity. Qed.

Section WellFormed.

Variable st : App.
Hypothesis WF : well_formed st.

Lemma wf_setKeypoints (kps : list Keypoint) :
  skeleton kps -> well_formed (setKeypoints kps st).
Proof. intros H. destruct WF. constructor; assumption. Qed.

Lemma wf_setConstraints (cs : Constraints) : well_formed (setConstraints cs st).
Proof. destruct WF. constructor; assumption. Qed.

Lemma wf_setSize (sz : Size) : well_formed (setSize sz st).
Proof. destruct WF. constructor; assumption. Qed.

Lemma wf_setIsProcessing (b : bool) : well_formed (setIsProcessing b st).
Proof. destruct WF. constructor; assumption. Qed.

Lemma wf_setIsTransforming (b : bool) : well_formed (setIsTransforming b st).
Proof. destruct WF. constructor; assumption. Qed.

Lemma wf_alert (msg : string) : well_formed (alert msg st).
Proof. destruct WF. constructor; assumption. Qed.

Lemma wf_setTransformBase (base : option HistoryState) :
  (forall b, base = Some b -> skeleton (hs_keypoints b)) ->
  well_formed (setTransformBase base st).
Proof. intros H. destruct WF. constructor; assumption. Qed.

Lemma wf_recordHistory : well_formed (recordHistory st).
Proof.
  destruct WF. constructor; try assumption.
  - cbn. apply Forall_app. split; [assumption|].
    constructor; [assumption|constructor].
  - constructor.
Qed.

Lemma wf_undo : well_formed (undo st).
Proof.
  unfold undo. destruct (rev (past (history st))) as [|previous newPastRev] eqn:E;
    [exact WF|].
  assert (Hp : Forall (fun h => skeleton (hs_keypoints h)) (previous :: newPastRev)).
  { rewrite <- E. apply Forall_rev. apply (wf_past WF). }
  inversion Hp as [|? ? Hprev Hrest]; subst.
  destruct WF. constructor; cbn; try assumption.
  - apply Forall_rev. exact Hrest.
  - constructor; assumption.
Qed.

Lemma wf_redo : well_formed (redo st).
Proof.
  unfold redo. destruct (future (history st)) as [|next newFuture] eqn:E; [exact WF|].
  pose proof (wf_future WF) as Hf. rewrite E in Hf.
  inversion Hf as [|? ? Hnext Hrest]; subst.
  destruct WF. constructor; cbn; try assumption.
  apply Forall_app. split; [assumption|]. constructor; [assumption|constructor].
Qed.

End WellFormed.

Ltac wf_setters :=
  repeat first
    [ assumption
    | apply wf_setConstraints | apply wf_setSize | apply wf_setIsProcessing
    | apply wf_setIsTransforming | apply wf_alert | apply wf_recordHistory ].

(** A keypoint update that keeps the ids keeps the state well formed. *)
Lemma wf_update (st : App) (kps : list Keypoint) :
  well_formed st -> ids kps = ids (keypoints st) -> well_formed (setKeypoints kps st).
Proof.
  intros WF H. apply wf_setKeypoints; [exact WF|].
  unfold skeleton. rewrite H. apply (wf_keypoints WF).
Qed.

Lemma wf_import (st : App) (file : ImportFile) :
  well_formed st -> exists st', handleImportJson file st = Ok st' /\ well_formed st'.
Proof.
  intros WF. unfold handleImportJson.
  destruct file as [| |canvas_config [|person people]];
    try (eexists; split; [reflexivity|]; wf_setters).
  set (st1 := recordHistory st).
  set (st2 := match canvas_config with
              | Some (w, h) =>
                  if negb (is_zero w) && negb (is_zero h)
                  then setSize (mkSize w h) st1 else st1
              | None => st1
              end).
  assert (WF2 : well_formed st2).
  { subst st2 st1. destruct canvas_config as [[w h]|]; [destruct (_ && _)|]; wf_setters. }
  assert (K2 : keypoints st2 = keypoints st).
  { subst st2 st1. destruct canvas_config as [[w h]|]; [destruct (_ && _)|]; reflexivity. }
  destruct person as [|[kpArray|]];
    try (eexists; split; [reflexivity|]; wf_setters).
  unfold importKeypoints. destruct (75 <=? List.length kpArray).
  - destruct (import_body25_ok kpArray 0 (keypoints st)) as [kps' [Hk Hi]].
    { rewrite (skeleton_length (wf_keypoints WF)). lia. }
    rewrite Hk. cbn [bind]. eexists; split; [reflexivity|].
    apply wf_setConstraints, wf_update; [exact WF2|]. rewrite K2. exact Hi.
  - cbn [bind]. eexists; split; [reflexivity|].
    apply wf_setConstraints, wf_update; [exact WF2|]. rewrite K2.
    apply ids_import_direct.
Qed.

Lemma wf_detect (st : App) (detection : Detection) :
  well_formed st -> exists st', handleAutoDetect detection st = Ok st' /\ well_formed st'.
Proof.
  intros WF. unfold handleAutoDetect.
  destruct (negb (hasImage st)); [eexists; split; [reflexivity|exact WF]|].
  set (st1 := setConstraints [] (setIsProcessing true (recordHistory st))).
  assert (WF1 : well_formed st1) by (subst st1; wf_setters).
  destruct detection as [points| |];
    try (cbn [bind]; eexists; split; [reflexivity|]; wf_setters).
  destruct (List.length points =? 18) eqn:E;
    [ | cbn [bind]; eexists; split; [reflexivity|]; wf_setters ].
  apply Nat.eqb_eq in E.
  destruct (applyDetected_ok points 0 (keypoints st1)) as [kps' [Hk Hi]].
  { rewrite (skeleton_length (wf_keypoints WF1)). lia. }
  rewrite Hk. cbn [bind]. eexists; split; [reflexivity|].
  apply wf_setIsProcessing, wf_update; assumption.
Qed.

(** C10. In a state whose keypoint arrays are the 18 joints with ids 0..17
    in order, every operation on the pose returns a state, and in it the
    keypoint arrays are again the 18 joints with ids 0..17 in order: no
    operation adds, removes or reorders a joint. *)
Theorem operations_keep_18_joints (e : Event) (st : App) :
  well_formed st ->
  exists st',
    step e st = Ok st'
    /\ well_formed st'
    /\ ids (keypoints st') = seq 0 18
    /\ ids (keypoints st') = ids (keypoints st).
Proof.
  intros WF.
  assert (Hgoal : exists st', step e st = Ok st' /\ well_formed st').
  { pose proof (wf_recordHistory WF) as WFr.
    destruct e; cbn [step];
      try (eexists; split; [reflexivity|]).
    - (* KeypointMove *)
      unfold handleKeypointMove.
      destruct (moveKeypoint_total (constraints st) (lockedJointMode st) id x y
                  (keypoints st)) as [kps [H Hi]].
      rewrite H. cbn [bind]. eexists; split; [reflexivity|].
      apply wf_update; assumption.
    - (* SkeletonDrag *)
      apply wf_update; [exact WF|]. apply ids_map. reflexivity.
    - (* ToggleVisibility *)
      unfold handleToggleVisibility.
      destruct (toggleVisibility_total id (keypoints (recordHistory st))) as [kps [H Hi]].
      rewrite H. cbn [bind]. eexists; split; [reflexivity|].
      apply wf_update; assumption.
    - (* ToggleLock *)
      apply wf_update; [exact WFr|]. apply ids_map.
      intros k. destruct (kp_id k =? id); reflexivity.
    - (* ToggleAnchor *)
      apply wf_update; [exact WFr|]. apply ids_map.
      intros k. destruct (kp_id k =? id); reflexivity.
    - (* ToggleAllLock *)
      apply wf_update; [exact WFr|]. apply ids_map. reflexivity.
    - (* ToggleAllVisibility *)
      apply wf_update; [exact WFr|]. apply ids_map. reflexivity.
    - (* MirrorLeftToRight *)
      apply wf_update; [exact WFr|]. rewrite mirrorLeftToRight_fold.
      apply ids_mirror_fold.
    - (* MirrorRightToLeft *)
      apply wf_update; [exact WFr|]. rewrite mirrorRightToLeft_fold.
      apply ids_mirror_fold.
    - (* FlipHorizontal *)
      apply wf_update; [exact WFr|]. apply ids_map. reflexivity.
    - (* FlipVertical *)
      apply wf_update; [exact WFr|]. apply ids_map. reflexivity.
    - (* ScaleStart *)
      apply wf_setTransformBase; [exact WFr|].
      intros b Hb. injection Hb as <-. apply (wf_keypoints WF).
    - (* Scale *)
      unfold handleScale.
      destruct (transformBaseRef st) as [base|] eqn:Hbase; [|exact WF].
      apply wf_setConstraints, wf_setKeypoints; [exact WF|].
      unfold skeleton, scaleKeypoints. rewrite ids_map by reflexivity.
      apply (wf_base WF). exact Hbase.
    - (* TransformStart *)
      apply wf_setTransformBase; [apply wf_setIsTransforming; exact WFr|].
      intros b Hb. injection Hb as <-. apply (wf_keypoints WF).
    - (* Transform *)
      unfold handleTransform.
      destruct (transformBaseRef st) as [base|] eqn:Hbase; [|exact WF].
      apply wf_setKeypoints; [exact WF|].
      unfold skeleton. rewrite ids_map by reflexivity.
      apply (wf_base WF). exact Hbase.
    - (* TransformEnd *)
      apply wf_setConstraints, wf_setTransformBase;
        [apply wf_setIsTransforming; exact WF | discriminate].
    - (* Reset *)
      apply wf_setKeypoints; [apply wf_setConstraints; exact WFr|].
      apply skeleton_fitted.
    - (* ImportJson *)
      apply wf_import. exact WF.
    - (* AutoDetect *)
      apply wf_detect. exact WF.
    - (* DragStart *)
      exact WFr.
    - (* Undo *)
      apply wf_undo. exact WF.
    - (* Redo *)
      apply wf_redo. exact WF. }
  destruct Hgoal as [st' [Hstep WF']].
  exists st'. split; [exact Hstep|]. split; [exact WF'|].
  pose proof (wf_keypoints WF') as H'. pose proof (wf_keypoints WF) as H.
  unfold skeleton in *. split; congruence.
Qed.

Lemma operations_keep_18_joints_witness :
  exists st',
    step MirrorLeftToRight initialApp = Ok st'
    /\ well_formed st'
    /\ ids (keypoints st') = seq 0 18
    /\ ids (keypoints st') = ids (keypoints initialApp).
Proof.
  apply operations_keep_18_joints.
  constructor.
  - reflexivity.
  - intros base H. discriminate H.
  - constructor.
  - constructor.
Defined.

(** * Further properties of the handlers *)

(** ** History: time line, round trips, one undo step per gesture *)

Lemma rev_cons_inv {A : Type} (l : list A) (a : A) (r : list A) :
  rev l = a :: r -> l = rev r ++ [a].
Proof.
  intros H. rewrite <- (rev_involutive l), H. reflexivity.
Qed.

Lemma snapshot_restored (h : History) (kps : list Keypoint) (cs : Constraints) (st : App) :
  snapshot (setHistory h (setConstraints cs (setKeypoints kps st)))
  = mkHistoryState kps cs.
Proof. reflexivity. Qed.

(** X1. Undo and redo only move along the time line past, current, future:
    they never drop, add or reorder a snapshot, also at the two ends. *)
Theorem undo_redo_keep_timeline (st : App) :
  timeline (undo st) = timeline st /\ timeline (redo st) = timeline st.
Proof.
  unfold timeline. split.
  - unfold undo. destruct (rev (past (history st))) as [|previous newPastRev] eqn:E;
      [reflexivity|].
    apply rev_cons_inv in E. rewrite E, snapshot_restored, snapshot_eta.
    cbn [history past future setHistory]. rewrite <- app_assoc. reflexivity.
  - unfold redo. destruct (future (history st)) as [|next newFuture] eqn:E;
      [rewrite E; reflexivity|].
    rewrite snapshot_restored, snapshot_eta.
    cbn [history past future setHistory]. rewrite <- app_assoc. reflexivity.
Qed.

Lemma app_eta (st : App) :
  mkApp (size st) (bgImage st) (lockedJointMode st) (isProcessing st)
        (isTransforming st) (mkHistory (past (history st)) (future (history st)))
        (constraints st) (keypoints st) (transformBaseRef st) (alerts st) = st.
Proof. destruct st as [? ? ? ? ? [? ?] ? ? ? ?]. reflexivity. Qed.

(** X2. Redo undoes an undo and undo undoes a redo: where there is a state
    to go back to, [redo (undo st)] is [st], history included, and where
    there is one to go forward to, [undo (redo st)] is [st]. *)
Theorem undo_redo_inverse (st : App) :
  (past (history st) <> [] -> redo (undo st) = st)
  /\ (future (history st) <> [] -> undo (redo st) = st).
Proof.
  split; intros Hne.
  - unfold undo. destruct (rev (past (history st))) as [|previous newPastRev] eqn:E.
    + exfalso. apply Hne. apply (f_equal (@rev HistoryState)) in E.
      rewrite rev_involutive in E. exact E.
    + apply rev_cons_inv in E.
      unfold redo, snapshot, setHistory, setConstraints, setKeypoints; cbn.
      rewrite snapshot_eta, <- E. apply app_eta.
  - unfold redo. destruct (future (history st)) as [|next newFuture] eqn:E;
      [contradiction|].
    unfold undo, snapshot, setHistory, setConstraints, setKeypoints; cbn.
    rewrite rev_unit, rev_involutive, snapshot_eta, <- E. apply app_eta.
Qed.

Lemma undo_redo_inverse_witness :
  redo (undo (handleFlipHorizontal lockedArmApp)) = handleFlipHorizontal lockedArmApp
  /\ undo (redo (undo (handleFlipHorizontal lockedArmApp)))
     = undo (handleFlipHorizontal lockedArmApp).
Proof.
  split.
  - apply (proj1 (undo_redo_inverse (handleFlipHorizontal lockedArmApp))).
    cbn. discriminate.
  - apply (proj2 (undo_redo_inverse (undo (handleFlipHorizontal lockedArmApp)))).
    cbn. discriminate.
Defined.






(** ** Pose centre and flips *)

(** X4. [getPoseCenter] finds no centre exactly when no joint is visible;
    otherwise the centre is the middle of the tightest box around the
    visible joints: the box holds each of them and each side touches one. *)
Theorem pose_center_of_tight_box (kps : list Keypoint) :
  match getPoseCenter kps with
  | None => forall kp, In kp kps -> kp_visible kp = false
  | Some c =>
      exists b, tight_box b kps
                /\ c = mkPoint ((minX b + maxX b) / 2) ((minY b + maxY b) / 2)
  end.
Proof.
  unfold getPoseCenter.
  assert (H : box_of (fold_left grow kps None) ([] ++ kps)).
  { apply fold_grow_box. intros kp []. }
  cbn [app] in H.
  destruct (fold_left grow kps None) as [b|]; cbn [box_of] in H.
  - exists b. split; [exact H | reflexivity].
  - exact H.
Qed.

Lemma pose_center_of_tight_box_witness :
  exists c b,
    getPoseCenter defaultPose = Some c
    /\ tight_box b defaultPose
    /\ c = mkPoint ((minX b + maxX b) / 2) ((minY b + maxY b) / 2).
Proof.
  pose proof (pose_center_of_tight_box defaultPose) as H.
  destruct (getPoseCenter defaultPose) as [c|] eqn:E.
  - destruct H as [b [Hb Hc]]. exists c, b. auto.
  - exfalso. specialize (H _ (or_introl eq_refl)). discriminate H.
Defined.

Lemma Rmin_reflect (c a b : R) :
  Rmin (c + (c - a)) (c + (c - b)) = (c + (c - Rmax a b))%R.
Proof.
  unfold Rmin, Rmax.
  destruct (Rle_dec (c + (c - a)) (c + (c - b))), (Rle_dec a b); lra.
Qed.

Lemma Rmax_reflect (c a b : R) :
  Rmax (c + (c - a)) (c + (c - b)) = (c + (c - Rmin a b))%R.
Proof.
  unfold Rmin, Rmax.
  destruct (Rle_dec (c + (c - a)) (c + (c - b))), (Rle_dec a b); lra.
Qed.

Lemma fold_grow_reflect_x (c : R) (l : list Keypoint) (acc : option Bounds) :
  fold_left grow (map (fun kp => with_x kp (c + (c - kp_x kp))) l)
            (option_map (reflect_box_x c) acc)
  = option_map (reflect_box_x c) (fold_left grow l acc).
Proof.
  revert acc. induction l as [|kp l IH]; intros acc; [reflexivity|].
  cbn [map fold_left]. rewrite <- IH. f_equal.
  unfold grow. cbn [kp_visible with_x with_xy kp_x kp_y].
  destruct (kp_visible kp); [|reflexivity].
  destruct acc as [b|]; cbn [option_map]; [|reflexivity].
  unfold reflect_box_x. cbn [minX maxX minY maxY].
  rewrite Rmin_reflect, Rmax_reflect. reflexivity.
Qed.

Lemma fold_grow_reflect_y (c : R) (l : list Keypoint) (acc : option Bounds) :
  fold_left grow (map (fun kp => with_y kp (c + (c - kp_y kp))) l)
            (option_map (reflect_box_y c) acc)
  = option_map (reflect_box_y c) (fold_left grow l acc).
Proof.
  revert acc. induction l as [|kp l IH]; intros acc; [reflexivity|].
  cbn [map fold_left]. rewrite <- IH. f_equal.
  unfold grow. cbn [kp_visible with_y with_xy kp_x kp_y].
  destruct (kp_visible kp); [|reflexivity].
  destruct acc as [b|]; cbn [option_map]; [|reflexivity].
  unfold reflect_box_y. cbn [minX maxX minY maxY].
  rewrite Rmin_reflect, Rmax_reflect. reflexivity.
Qed.

Lemma with_x_twice (c : R) (kp : Keypoint) :
  with_x (with_x kp (c + (c - kp_x kp))) (c + (c - kp_x (with_x kp (c + (c - kp_x kp))))) = kp.
Proof.
  destruct kp as [i n x y v lo an col rgb]. unfold with_x, with_xy. cbn. f_equal. lra.
Qed.

Lemma with_y_twice (c : R) (kp : Keypoint) :
  with_y (with_y kp (c + (c - kp_y kp))) (c + (c - kp_y (with_y kp (c + (c - kp_y kp))))) = kp.
Proof.
  destruct kp as [i n x y v lo an col rgb]. unfold with_y, with_xy. cbn. f_equal. lra.
Qed.

(** X5. A flip is its own inverse: the flipped pose has the same centre
    line, so flipping again puts every joint back where it was, over the
    reals, for the horizontal and for the vertical flip. *)
Theorem flip_twice (sz : Size) (kps : list Keypoint) :
  flipHorizontal sz (flipHorizontal sz kps) = kps
  /\ flipVertical sz (flipVertical sz kps) = kps.
Proof.
  split.
  - unfold flipHorizontal at 2.
    set (cx := match getPoseCenter kps with
               | Some center => pt_x center
               | None => (width sz / 2)%R
               end).
    assert (Hc : match getPoseCenter (map (fun kp => with_x kp (cx + (cx - kp_x kp))) kps) with
                 | Some center => pt_x center
                 | None => (width sz / 2)%R
                 end = cx).
    { unfold getPoseCenter.
      pose proof (fold_grow_reflect_x cx kps None) as H. cbn [option_map] in H.
      rewrite H. subst cx. unfold getPoseCenter.
      destruct (fold_left grow kps None) as [b|]; cbn [option_map pt_x reflect_box_x minX maxX];
        [lra | reflexivity]. }
    unfold flipHorizontal. rewrite Hc, map_map.
    rewrite <- (map_id kps) at 2. apply map_ext. intros kp. apply with_x_twice.
  - unfold flipVertical at 2.
    set (cy := match getPoseCenter kps with
               | Some center => pt_y center
               | None => (height sz / 2)%R
               end).
    assert (Hc : match getPoseCenter (map (fun kp => with_y kp (cy + (cy - kp_y kp))) kps) with
                 | Some center => pt_y center
                 | None => (height sz / 2)%R
                 end = cy).
    { unfold getPoseCenter.
      pose proof (fold_grow_reflect_y cy kps None) as H. cbn [option_map] in H.
      rewrite H. subst cy. unfold getPoseCenter.
      destruct (fold_left grow kps None) as [b|]; cbn [option_map pt_y reflect_box_y minY maxY];
        [lra | reflexivity]. }
    unfold flipVertical. rewrite Hc, map_map.
    rewrite <- (map_id kps) at 2. apply map_ext. intros kp. apply with_y_twice.
Qed.

(** X6. Over the reals, flips and whole-skeleton drags are rigid: they
    keep the distance between any two joints, so that in exact arithmetic no
    stored constraint distance goes stale. *)
Theorem flips_and_skeleton_drag_keep_distances (st : App) (dx dy : R) (i j : nat)
  (a b a' b' : Keypoint) (st' : App) :
  st' = handleFlipHorizontal st \/ st' = handleFlipVertical st
  \/ st' = handleSkeletonDrag dx dy st ->
  nth_error (keypoints st) i = Some a -> nth_error (keypoints st) j = Some b ->
  nth_error (keypoints st') i = Some a' -> nth_error (keypoints st') j = Some b' ->
  dist a' b' = dist a b.
Proof.
  intros Hst Ha Hb Ha' Hb'.
  destruct Hst as [ -> | [ -> | -> ] ];
    cbn [handleFlipHorizontal handleFlipVertical handleSkeletonDrag keypoints
         setKeypoints recordHistory setHistory size] in Ha', Hb';
    unfold flipHorizontal, flipVertical in Ha', Hb';
    rewrite nth_error_map, Ha in Ha'; rewrite nth_error_map, Hb in Hb';
    cbn [option_map] in Ha', Hb'; injection Ha' as <-; injection Hb' as <-;
    unfold dist; cbn [kp_x kp_y with_x with_y with_xy]; f_equal; ring.
Qed.

Lemma flips_and_skeleton_drag_keep_distances_witness :
  exists a b a' b',
    nth_error (keypoints lockedArmApp) 2 = Some a
    /\ nth_error (keypoints lockedArmApp) 3 = Some b
    /\ nth_error (keypoints (handleFlipHorizontal lockedArmApp)) 2 = Some a'
    /\ nth_error (keypoints (handleFlipHorizontal lockedArmApp)) 3 = Some b'
    /\ dist a' b' = dist a b.
Proof.
  do 4 eexists.
  split; [reflexivity|]. split; [reflexivity|].
  split; [reflexivity|]. split; [reflexivity|].
  apply (@flips_and_skeleton_drag_keep_distances lockedArmApp 0 0 2 3 _ _ _ _
           (handleFlipHorizontal lockedArmApp)); try reflexivity.
  left. reflexivity.
Defined.

(** X7. Over the reals, skeleton drags add up: a drag by [(dx1, dy1)]
    followed by one by [(dx2, dy2)] leaves the state a single drag by the
    sum leaves, and a drag by [(0, 0)] changes no keypoint. *)
Theorem skeleton_drags_compose (st : App) (dx1 dy1 dx2 dy2 : R) :
  handleSkeletonDrag dx2 dy2 (handleSkeletonDrag dx1 dy1 st)
  = handleSkeletonDrag (dx1 + dx2) (dy1 + dy2) st
  /\ keypoints (handleSkeletonDrag 0 0 st) = keypoints st.
Proof.
  unfold handleSkeletonDrag, setKeypoints; cbn. split.
  - f_equal. rewrite map_map. apply map_ext. intros kp.
    unfold with_xy; cbn. f_equal; ring.
  - rewrite <- (map_id (keypoints st)) at 2. apply map_ext. intros kp.
    destruct kp as [i n x y v lo an col rgb]. unfold with_xy; cbn. f_equal; ring.
Qed.

(** ** Drags and transforms against the stored constraints *)

Lemma adjacent_linked (keys : list Key) (id a b : nat) :
  adjacent keys a b -> (linked keys id a <-> linked keys id b).
Proof.
  intros Hadj. split; intros H.
  - apply linked_step with (b := a); assumption.
  - apply linked_step with (b := b); [exact H|].
    destruct Hadj as [Hadj|Hadj]; [right|left]; exact Hadj.
Qed.

(** X8. In translate mode a drag moves the two joints of every stored
    constraint by the same offset, or leaves both where they are, and it
    does not touch the constraint store; so, over the reals, a pose that
    satisfies its constraints still does after the drag. *)
Theorem translate_drag_keeps_constraints (st st' : App) (id : nat) (x y : R) :
  lockedJointMode st = translate ->
  handleKeypointMove id x y st = Ok st' ->
  constraints st' = constraints st
  /\ (forall p1 p2 d kp1 kp2,
        In ((p1, p2), d) (constraints st) ->
        find_kp p1 (keypoints st) = Some kp1 ->
        find_kp p2 (keypoints st) = Some kp2 ->
        (find_kp p1 (keypoints st') = Some kp1
         /\ find_kp p2 (keypoints st') = Some kp2)
        \/ exists dx dy,
             find_kp p1 (keypoints st')
             = Some (with_xy kp1 (kp_x kp1 + dx) (kp_y kp1 + dy))
             /\ find_kp p2 (keypoints st')
                = Some (with_xy kp2 (kp_x kp2 + dx) (kp_y kp2 + dy)))
  /\ (satisfied (constraints st) (keypoints st) ->
      satisfied (constraints st') (keypoints st')).
Proof.
  intros Hmode Hstep.
  unfold handleKeypointMove, moveKeypoint in Hstep. rewrite Hmode in Hstep.
  destruct (find_kp id (keypoints st)) as [src|];
    [ | injection Hstep as <-; split; [reflexivity | split; [auto | auto]] ].
  destruct (connectedComponent_spec (constraints st) id) as [s [Hs Hin]].
  rewrite Hs in Hstep. cbn [bind] in Hstep. injection Hstep as <-.
  split; [reflexivity|].
  cbn [constraints keypoints setKeypoints].
  set (dx := (x - kp_x src)%R). set (dy := (y - kp_y src)%R).
  set (f := fun kp => if has s (kp_id kp)
                      then with_xy kp (kp_x kp + dx) (kp_y kp + dy) else kp).
  assert (Hf : forall k, kp_id (f k) = kp_id k).
  { intros k. unfold f. destruct (has s (kp_id k)); reflexivity. }
  assert (Hsame : forall p1 p2 d, In ((p1, p2), d) (constraints st) ->
                                  has s p1 = has s p2).
  { intros p1 p2 d Hd.
    assert (Hadj : adjacent (keysOf (constraints st)) p1 p2).
    { left. unfold keysOf. apply (in_map fst) in Hd. exact Hd. }
    pose proof (adjacent_linked id Hadj) as Hl.
    destruct (has s p1) eqn:E1, (has s p2) eqn:E2; try reflexivity.
    - apply has_In, Hin, Hl, Hin, has_In in E1. congruence.
    - apply has_In, Hin, Hl, Hin, has_In in E2. congruence. }
  split.
  - intros p1 p2 d kp1 kp2 Hd H1 H2.
    rewrite !(find_kp_map _ f (keypoints st) Hf), H1, H2. cbn [option_map].
    unfold f. rewrite (find_kp_id _ _ H1), (find_kp_id _ _ H2), <- (Hsame _ _ _ Hd).
    destruct (has s p1).
    + right. exists dx, dy. split; reflexivity.
    + left. split; reflexivity.
  - intros Hsat p1 p2 d Hd.
    destruct (Hsat p1 p2 d Hd) as [kp1 [kp2 [H1 [H2 Hdist]]]].
    exists (f kp1), (f kp2).
    rewrite !(find_kp_map _ f (keypoints st) Hf), H1, H2.
    split; [reflexivity|]. split; [reflexivity|].
    unfold f. rewrite (find_kp_id _ _ H1), (find_kp_id _ _ H2), <- (Hsame _ _ _ Hd).
    destruct (has s p1); [rewrite dist_translate|]; exact Hdist.
Qed.

Lemma measuredArm_satisfied :
  satisfied (constraints measuredArmApp) (keypoints measuredArmApp).
Proof.
  intros p1 p2 d [H|[H|[]]]; injection H as <- <- <-; do 2 eexists;
    (split; [reflexivity|]); (split; [reflexivity|]);
    unfold dist; cbn [kp_x kp_y with_xy pt_x pt_y].
  - replace ((256 - 206) * (256 - 206) + (115 - 115) * (115 - 115))%R
      with (50 * 50)%R by ring.
    apply sqrt_square. lra.
  - f_equal. ring.
Qed.

Lemma translate_drag_keeps_constraints_witness :
  exists st',
    handleKeypointMove 3 200 200 measuredArmApp = Ok st'
    /\ constraints st' = constraints measuredArmApp
    /\ satisfied (constraints st') (keypoints st').
Proof.
  eexists. split; [reflexivity|].
  destruct (@translate_drag_keeps_constraints measuredArmApp _ 3 200 200
              eq_refl eq_refl) as [Hc [_ Hs]].
  split; [exact Hc|]. exact (Hs measuredArm_satisfied).
Defined.


(** X10. Over the reals, the neutral parameters give the base back:
    during a gesture, scaling by 1 restores the keypoints and constraints
    of the base, and a transform by angle 0 and width factor 1 restores its
    keypoints. *)
Theorem neutral_transform_restores_base (st : App) (base : HistoryState) :
  transformBaseRef st = Some base ->
  snapshot (handleScale 1 st) = base
  /\ keypoints (handleTransform 0 1 st) = hs_keypoints base.
Proof.
  intros Hbase. unfold handleScale, handleTransform, snapshot. rewrite Hbase.
  cbn [keypoints constraints setConstraints setKeypoints].
  assert (Hk : forall (p : Point) (l : list Keypoint), scaleKeypoints p 1 l = l).
  { intros p l. unfold scaleKeypoints. rewrite <- (map_id l) at 2.
    apply map_ext. intros [i n x y v lo an col rgb]. unfold with_xy; cbn.
    f_equal; ring. }
  assert (Hc : forall cs : Constraints, scaleConstraints 1 cs = cs).
  { intros cs. unfold scaleConstraints. rewrite <- (map_id cs) at 2.
    apply map_ext. intros [key d]. f_equal. ring. }
  split.
  - rewrite Hk, Hc. apply snapshot_eta.
  - replace (0 * PI / 180)%R with 0%R by lra. rewrite cos_0, sin_0.
    rewrite <- (map_id (hs_keypoints base)) at 2.
    apply map_ext. intros [i n x y v lo an col rgb]. unfold with_xy; cbn.
    f_equal; ring.
Qed.

Lemma neutral_transform_restores_base_witness :
  snapshot (handleScale 1 (handleScale 2 (handleScaleStart lockedArmApp)))
  = snapshot lockedArmApp
  /\ keypoints (handleTransform 0 1 (handleTransform 90 1 (handleTransformStart lockedArmApp)))
     = keypoints lockedArmApp.
Proof.
  split.
  - apply (proj1 (@neutral_transform_restores_base
                    (handleScale 2 (handleScaleStart lockedArmApp)) _ eq_refl)).
  - apply (proj2 (@neutral_transform_restores_base
                    (handleTransform 90 1 (handleTransformStart lockedArmApp)) _ eq_refl)).
Defined.

(** X11. Over the reals, a pure spin is rigid: with width factor 1,
    whatever the angle, the transform keeps the distance between any two
    joints of the base. *)
Theorem spin_keeps_distances (st : App) (base : HistoryState) (rotateZ : R)
  (i j : nat) (a b a' b' : Keypoint) :
  transformBaseRef st = Some base ->
  nth_error (hs_keypoints base) i = Some a ->
  nth_error (hs_keypoints base) j = Some b ->
  nth_error (keypoints (handleTransform rotateZ 1 st)) i = Some a' ->
  nth_error (keypoints (handleTransform rotateZ 1 st)) j = Some b' ->
  dist a' b' = dist a b.
Proof.
  intros Hbase Ha Hb Ha' Hb'. unfold handleTransform in Ha', Hb'.
  rewrite Hbase in Ha', Hb'. cbn [keypoints setKeypoints] in Ha', Hb'.
  rewrite nth_error_map, Ha in Ha'. rewrite nth_error_map, Hb in Hb'.
  cbn [option_map] in Ha', Hb'. injection Ha' as <-. injection Hb' as <-.
  unfold dist. cbn [kp_x kp_y with_xy].
  set (c := cos (rotateZ * PI / 180)). set (s := sin (rotateZ * PI / 180)).
  assert (H1 : (s * s + c * c = 1)%R).
  { pose proof (sin2_cos2 (rotateZ * PI / 180)) as H. unfold Rsqr in H. exact H. }
  set (px := pt_x (getPivotPoint (size st) (hs_keypoints base))).
  set (py := pt_y (getPivotPoint (size st) (hs_keypoints base))).
  f_equal.
  transitivity (((kp_x a - kp_x b) * (kp_x a - kp_x b)
                 + (kp_y a - kp_y b) * (kp_y a - kp_y b)) * (s * s + c * c))%R.
  - ring.
  - rewrite H1. ring.
Qed.

Lemma spin_keeps_distances_witness :
  exists a b a' b',
    nth_error (keypoints lockedArmApp) 2 = Some a
    /\ nth_error (keypoints lockedArmApp) 3 = Some b
    /\ nth_error (keypoints (handleTransform 90 1 (handleTransformStart lockedArmApp))) 2
       = Some a'
    /\ nth_error (keypoints (handleTransform 90 1 (handleTransformStart lockedArmApp))) 3
       = Some b'
    /\ dist a' b' = dist a b.
Proof.
  do 4 eexists.
  split; [reflexivity|]. split; [reflexivity|].
  split; [reflexivity|]. split; [reflexivity|].
  apply (@spin_keeps_distances (handleTransformStart lockedArmApp) _ 90 2 3 _ _ _ _ eq_refl);
    reflexivity.
Defined.

Lemma dist_scaled (p : Point) (f : R) (a b : Keypoint) :
  (0 <= f)%R ->
  dist (with_xy a (pt_x p + (kp_x a - pt_x p) * f) (pt_y p + (kp_y a - pt_y p) * f))
       (with_xy b (pt_x p + (kp_x b - pt_x p) * f) (pt_y p + (kp_y b - pt_y p) * f))
  = (dist a b * f)%R.
Proof.
  intros Hf. unfold dist. cbn [kp_x kp_y with_xy].
  set (m := ((kp_x a - kp_x b) * (kp_x a - kp_x b)
             + (kp_y a - kp_y b) * (kp_y a - kp_y b))%R).
  assert (Hm : (0 <= m)%R).
  { subst m. apply Rplus_le_le_0_compat; apply Rle_0_sqr. }
  assert (Hff : (0 <= f * f)%R) by apply Rle_0_sqr.
  transitivity (sqrt (m * (f * f))).
  - f_equal. subst m. ring.
  - rewrite (sqrt_mult m (f * f) Hm Hff), (sqrt_square f Hf). reflexivity.
Qed.

(** X12. Over the reals, scaling keeps the constraints in step with the
    pose: if the base of the gesture satisfies its constraints and the
    factor is not negative, the scaled pose satisfies the scaled
    constraints. *)
Theorem scale_keeps_constraints (st : App) (base : HistoryState) (factor : R) :
  transformBaseRef st = Some base ->
  satisfied (hs_constraints base) (hs_keypoints base) ->
  (0 <= factor)%R ->
  satisfied (constraints (handleScale factor st)) (keypoints (handleScale factor st)).
Proof.
  intros Hbase Hsat Hf. unfold handleScale. rewrite Hbase.
  cbn [constraints keypoints setConstraints setKeypoints].
  set (pivot := getPivotPoint (size st) (hs_keypoints base)).
  intros p1 p2 d' Hd'. unfold scaleConstraints in Hd'.
  apply in_map_iff in Hd'. destruct Hd' as [[key d] [Heq Hd]].
  injection Heq as -> <-.
  destruct (Hsat p1 p2 d Hd) as [kp1 [kp2 [H1 [H2 Hdist]]]].
  unfold scaleKeypoints.
  rewrite !find_kp_map by reflexivity. rewrite H1, H2. cbn [option_map].
  do 2 eexists. split; [reflexivity|]. split; [reflexivity|].
  rewrite dist_scaled by exact Hf. rewrite Hdist. reflexivity.
Qed.

Lemma scale_keeps_constraints_witness :
  satisfied (constraints (handleScale 2 (handleScaleStart measuredArmApp)))
            (keypoints (handleScale 2 (handleScaleStart measuredArmApp))).
Proof.
  apply (@scale_keeps_constraints (handleScaleStart measuredArmApp) _ 2 eq_refl).
  - exact measuredArm_satisfied.
  - lra.
Defined.

(** X13. Ending a transform gesture re-measures the constraints: afterwards
    every stored constraint is the distance its two joints are at, whatever
    was stored before; and when both joints of every key exist, the keys
    are the same as before, in the same order. *)
Theorem transform_end_remeasures (st : App) :
  satisfied (constraints (handleTransformEnd st)) (keypoints (handleTransformEnd st))
  /\ ((forall p1 p2 d, In ((p1, p2), d) (constraints st) ->
         find_kp p1 (keypoints st) <> None /\ find_kp p2 (keypoints st) <> None) ->
      keysOf (constraints (handleTransformEnd st)) = keysOf (constraints st)).
Proof.
  unfold handleTransformEnd. cbn [constraints keypoints setConstraints setTransformBase
                                   setIsTransforming].
  split.
  - intros p1 p2 d Hd. apply in_flat_map in Hd. destruct Hd as [[[q1 q2] d0] [_ Hd]].
    unfold remeasure in Hd.
    destruct (find_kp q1 (keypoints st)) as [kp1|] eqn:E1; [|destruct Hd].
    destruct (find_kp q2 (keypoints st)) as [kp2|] eqn:E2; [|destruct Hd].
    destruct Hd as [Hd|[]]. injection Hd as <- <- <-.
    exists kp1, kp2. split; [exact E1|]. split; [exact E2|].
    unfold dist. f_equal. ring.
  - induction (constraints st) as [|[[p1 p2] d] cs IH]; intros Hall; [reflexivity|].
    cbn [flat_map remeasure].
    destruct (Hall p1 p2 d (or_introl eq_refl)) as [H1 H2].
    destruct (find_kp p1 (keypoints st)); [|congruence].
    destruct (find_kp p2 (keypoints st)); [|congruence].
    unfold keysOf in *. cbn [app map fst]. f_equal.
    apply IH. intros q1 q2 d' Hd. apply (Hall q1 q2 d'). right. exact Hd.
Qed.

Lemma transform_end_remeasures_witness :
  keysOf (constraints (handleTransformEnd
                         (handleTransform 30 1 (handleTransformStart lockedArmApp))))
  = [(1, 2); (2, 3)].
Proof.
  rewrite (proj2 (transform_end_remeasures
                    (handleTransform 30 1 (handleTransformStart lockedArmApp)))).
  - reflexivity.
  - intros p1 p2 d [H|[H|[]]]; injection H as <- <- <-; split; discriminate.
Defined.

(** X14. A single anchored joint is the pivot and stays put: during a
    gesture whose base has exactly one anchored joint, neither a scale nor
    a transform update moves that joint, whatever the parameters. *)
Theorem single_anchor_is_fixed (st : App) (base : HistoryState) (anchor : Keypoint)
  (i : nat) (factor rotateZ scaleX : R) :
  transformBaseRef st = Some base ->
  filter is_anchored (hs_keypoints base) = [anchor] ->
  nth_error (hs_keypoints base) i = Some anchor ->
  nth_error (keypoints (handleScale factor st)) i = Some anchor
  /\ nth_error (keypoints (handleTransform rotateZ scaleX st)) i = Some anchor.
Proof.
  intros Hbase Hanchors Hi.
  assert (Hp : getPivotPoint (size st) (hs_keypoints base)
               = mkPoint ((0 + kp_x anchor) / INR 1) ((0 + kp_y anchor) / INR 1)).
  { unfold getPivotPoint. rewrite Hanchors. reflexivity. }
  unfold handleScale, handleTransform. rewrite Hbase.
  cbn [keypoints setConstraints setKeypoints]. unfold scaleKeypoints.
  rewrite !nth_error_map, Hi, Hp. cbn [option_map pt_x pt_y INR].
  destruct anchor as [k n x y v lo an col rgb]. unfold with_xy. cbn.
  split; f_equal; f_equal; field.
Qed.

Lemma single_anchor_is_fixed_witness :
  nth_error (keypoints (handleScale 2 (handleScaleStart anchoredApp))) 1
  = nth_error (keypoints anchoredApp) 1
  /\ nth_error (keypoints (handleTransform 90 (1 / 2) (handleTransformStart anchoredApp))) 1
     = nth_error (keypoints anchoredApp) 1.
Proof.
  split.
  - apply (proj1 (@single_anchor_is_fixed (handleScaleStart anchoredApp) _ _ 1 2 0 1
                    eq_refl eq_refl eq_refl)).
  - apply (proj2 (@single_anchor_is_fixed (handleTransformStart anchoredApp) _ _ 1 1 90 (1 / 2)
                    eq_refl eq_refl eq_refl)).
Defined.

(** ** Constraint store *)

Lemma key_eqb_eq (a b : Key) : key_eqb a b = true <-> a = b.
Proof.
  destruct a as [a1 a2], b as [b1 b2]. unfold key_eqb. cbn [fst snd].
  rewrite andb_true_iff, !Nat.eqb_eq. split.
  - intros [-> ->]. reflexivity.
  - intros H. injection H as -> ->. auto.
Qed.

Lemma key_eqb_refl (a : Key) : key_eqb a a = true.
Proof. apply key_eqb_eq. reflexivity. Qed.

Lemma sortedKey_sym (p1 p2 : nat) : sortedKey p1 p2 = sortedKey p2 p1.
Proof.
  unfold sortedKey.
  destruct (p2 <? p1) eqn:E1, (p1 <? p2) eqn:E2; try reflexivity.
  - apply Nat.ltb_lt in E1. apply Nat.ltb_lt in E2. lia.
  - apply Nat.ltb_ge in E1. apply Nat.ltb_ge in E2. f_equal; lia.
Qed.

Lemma sortedKey_sorted (p1 p2 : nat) : fst (sortedKey p1 p2) <= snd (sortedKey p1 p2).
Proof.
  unfold sortedKey. destruct (p2 <? p1) eqn:E; cbn [fst snd].
  - apply Nat.ltb_lt in E. lia.
  - apply Nat.ltb_ge in E. exact E.
Qed.

Lemma lookup_None_notin (key : Key) (cs : Constraints) :
  lookupConstraint key cs = None <-> ~ In key (keysOf cs).
Proof.
  unfold keysOf. induction cs as [|[k d] cs IH]; cbn [lookupConstraint map fst In].
  - tauto.
  - destruct (key_eqb k key) eqn:E.
    + apply key_eqb_eq in E. split; [discriminate | intros H; exfalso; apply H; left; exact E].
    + rewrite IH. split.
      * intros H [Hk|Hk]; [|exact (H Hk)].
        apply key_eqb_eq in Hk. congruence.
      * intros H Hk. apply H. right. exact Hk.
Qed.

Lemma put_absent (key : Key) (v : R) (cs : Constraints) :
  lookupConstraint key cs = None -> putConstraint key v cs = cs ++ [(key, v)].
Proof.
  induction cs as [|[k d] cs IH]; cbn [lookupConstraint putConstraint app]; intros H;
    [reflexivity|].
  destruct (key_eqb k key); [discriminate H|]. rewrite (IH H). reflexivity.
Qed.

Lemma put_present (key : Key) (v : R) (cs : Constraints) :
  lookupConstraint key cs <> None -> keysOf (putConstraint key v cs) = keysOf cs.
Proof.
  unfold keysOf.
  induction cs as [|[k d] cs IH]; cbn [lookupConstraint putConstraint]; intros H;
    [congruence|].
  destruct (key_eqb k key); cbn [map fst]; [reflexivity|].
  rewrite (IH H). reflexivity.
Qed.

Lemma lookup_last (key : Key) (v : R) (cs : Constraints) :
  lookupConstraint key cs = None -> lookupConstraint key (cs ++ [(key, v)]) = Some v.
Proof.
  induction cs as [|[k d] cs IH]; cbn [lookupConstraint app]; intros H.
  - rewrite key_eqb_refl. reflexivity.
  - destruct (key_eqb k key); [discriminate H | exact (IH H)].
Qed.

Lemma remove_last (key : Key) (v : R) (cs : Constraints) :
  lookupConstraint key cs = None -> removeConstraint key (cs ++ [(key, v)]) = cs.
Proof.
  unfold removeConstraint.
  induction cs as [|[k d] cs IH]; cbn [lookupConstraint app filter fst]; intros H.
  - rewrite key_eqb_refl. reflexivity.
  - destruct (key_eqb k key); [discriminate H|]. cbn [negb]. rewrite (IH H). reflexivity.
Qed.

Lemma put_last (key : Key) (v : R) (cs : Constraints) :
  lookupConstraint key cs = None ->
  putConstraint key v (cs ++ [(key, v)]) = cs ++ [(key, v)].
Proof.
  induction cs as [|[k d] cs IH]; cbn [lookupConstraint app putConstraint]; intros H.
  - rewrite key_eqb_refl. reflexivity.
  - destruct (key_eqb k key); [discriminate H|]. rewrite (IH H). reflexivity.
Qed.

Lemma is_zero_false (v : R) : v <> 0%R -> is_zero v = false.
Proof. intros H. unfold is_zero. destruct (Req_dec_T v 0); [contradiction|reflexivity]. Qed.

Lemma is_zero_true (v : R) : v = 0%R -> is_zero v = true.
Proof. intros H. unfold is_zero. destruct (Req_dec_T v 0); [reflexivity|contradiction]. Qed.

(** X15. The constraint of a limb does not depend on the order its two
    joints are given in: toggling [(p1, p2)] and toggling [(p2, p1)] are
    the same operation. *)
Theorem toggle_constraint_symmetric (p1 p2 : nat) (st : App) :
  handleToggleConstraint p1 p2 st = handleToggleConstraint p2 p1 st.
Proof.
  unfold handleToggleConstraint, toggleConstraint.
  rewrite (sortedKey_sym p2 p1). f_equal.
  destruct (match lookupConstraint (sortedKey p1 p2) (constraints (recordHistory st)) with
            | Some d => negb (is_zero d)
            | None => false
            end); [reflexivity|].
  destruct (find_kp p1 (keypoints st)) as [kp1|], (find_kp p2 (keypoints st)) as [kp2|];
    try reflexivity.
  f_equal. f_equal. ring.
Qed.

(** X16. Locking and unlocking a limb is a round trip.  For a limb with no
    stored constraint whose two joints exist at different positions, the
    toggle stores their present distance under the sorted key, last in the
    store, where a lookup finds it, and a second toggle removes it and
    leaves the store as it was. *)
Theorem toggle_constraint_round_trip (p1 p2 : nat) (st : App) (kp1 kp2 : Keypoint) :
  lookupConstraint (sortedKey p1 p2) (constraints st) = None ->
  find_kp p1 (keypoints st) = Some kp1 ->
  find_kp p2 (keypoints st) = Some kp2 ->
  dist kp1 kp2 <> 0%R ->
  let st1 := handleToggleConstraint p1 p2 st in
  constraints st1 = constraints st ++ [(sortedKey p1 p2, dist kp1 kp2)]
  /\ lookupConstraint (sortedKey p1 p2) (constraints st1) = Some (dist kp1 kp2)
  /\ constraints (handleToggleConstraint p1 p2 st1) = constraints st
  /\ keypoints (handleToggleConstraint p1 p2 st1) = keypoints st.
Proof.
  intros Hnone H1 H2 Hd st1.
  assert (E1 : constraints st1 = constraints st ++ [(sortedKey p1 p2, dist kp1 kp2)]).
  { subst st1. unfold handleToggleConstraint, toggleConstraint.
    cbn [constraints keypoints recordHistory setHistory setConstraints].
    rewrite Hnone, H1, H2. apply put_absent. exact Hnone. }
  split; [exact E1|]. split; [rewrite E1; apply lookup_last; exact Hnone|].
  split; [|reflexivity].
  unfold handleToggleConstraint at 1. unfold toggleConstraint.
  cbn [constraints keypoints recordHistory setHistory setConstraints].
  rewrite E1, (@lookup_last _ _ _ Hnone), (is_zero_false Hd). cbn [negb].
  apply remove_last. exact Hnone.
Qed.

Lemma toggle_constraint_round_trip_witness :
  let st0 := setKeypoints defaultPose initialApp in
  let st1 := handleToggleConstraint 2 1 st0 in
  lookupConstraint (1, 2) (constraints st1) <> None
  /\ constraints (handleToggleConstraint 2 1 st1) = [].
Proof.
  intros st0 st1.
  edestruct (@toggle_constraint_round_trip 2 1 st0) as [E1 [E2 [E3 _]]].
  - reflexivity.
  - reflexivity.
  - reflexivity.
  - unfold dist. cbn [kp_x kp_y with_xy pt_x pt_y].
    intros H. apply sqrt_eq_0 in H; lra.
  - split; [|exact E3].
    change (1, 2) with (sortedKey 2 1). subst st1. rewrite E2. discriminate.
Defined.

(** X17. A constraint between two joints at the same position cannot be
    unlocked by the toggle: it is stored with distance 0, which the handler
    reads as "not locked", so a second toggle stores it again and does not
    remove it. *)
Theorem zero_length_constraint_stays (p1 p2 : nat) (st : App) (kp1 kp2 : Keypoint) :
  lookupConstraint (sortedKey p1 p2) (constraints st) = None ->
  find_kp p1 (keypoints st) = Some kp1 ->
  find_kp p2 (keypoints st) = Some kp2 ->
  kp_x kp1 = kp_x kp2 -> kp_y kp1 = kp_y kp2 ->
  let st1 := handleToggleConstraint p1 p2 st in
  lookupConstraint (sortedKey p1 p2) (constraints st1) = Some 0%R
  /\ constraints (handleToggleConstraint p1 p2 st1) = constraints st1.
Proof.
  intros Hnone H1 H2 Hx Hy st1.
  assert (Hz : sqrt ((kp_x kp1 - kp_x kp2) * (kp_x kp1 - kp_x kp2)
                     + (kp_y kp1 - kp_y kp2) * (kp_y kp1 - kp_y kp2)) = 0%R).
  { rewrite Hx, Hy.
    replace ((kp_x kp2 - kp_x kp2) * (kp_x kp2 - kp_x kp2)
             + (kp_y kp2 - kp_y kp2) * (kp_y kp2 - kp_y kp2))%R with 0%R by ring.
    apply sqrt_0. }
  assert (E1 : constraints st1 = constraints st ++ [(sortedKey p1 p2, 0%R)]).
  { subst st1. unfold handleToggleConstraint, toggleConstraint.
    cbn [constraints keypoints recordHistory setHistory setConstraints].
    rewrite Hnone, H1, H2, Hz. apply put_absent. exact Hnone. }
  split; [rewrite E1; apply lookup_last; exact Hnone|].
  unfold handleToggleConstraint at 1. unfold toggleConstraint.
  cbn [constraints keypoints recordHistory setHistory setConstraints].
  rewrite E1, (@lookup_last _ _ _ Hnone), (is_zero_true eq_refl). cbn [negb].
  change (keypoints st1) with (keypoints st). rewrite H1, H2, Hz.
  apply put_last. exact Hnone.
Qed.

Lemma zero_length_constraint_stays_witness :
  let st1 := handleToggleConstraint 1 2 originApp in
  lookupConstraint (1, 2) (constraints st1) = Some 0%R
  /\ constraints (handleToggleConstraint 1 2 st1) = constraints st1.
Proof.
  intros st1.
  apply (@zero_length_constraint_stays 1 2 originApp _ _ eq_refl eq_refl eq_refl
           eq_refl eq_refl).
Defined.

Lemma keysOf_remove (key : Key) (cs : Constraints) :
  keysOf (removeConstraint key cs) = filter (fun k => negb (key_eqb k key)) (keysOf cs).
Proof.
  unfold keysOf, removeConstraint. induction cs as [|[k d] cs IH]; [reflexivity|].
  cbn [filter map fst]. destruct (negb (key_eqb k key)); cbn [map fst]; rewrite IH; reflexivity.
Qed.

(** X18. The store stays a well-formed object with normalised keys: if no
    key occurs twice and every key has its smaller joint first, the same
    holds after any toggle. *)
Theorem toggle_constraint_keeps_keys (p1 p2 : nat) (st : App) :
  NoDup (keysOf (constraints st)) ->
  Forall (fun k => fst k <= snd k) (keysOf (constraints st)) ->
  NoDup (keysOf (constraints (handleToggleConstraint p1 p2 st)))
  /\ Forall (fun k => fst k <= snd k)
            (keysOf (constraints (handleToggleConstraint p1 p2 st))).
Proof.
  intros Hnd Hsorted. unfold handleToggleConstraint, toggleConstraint.
  cbn [constraints keypoints recordHistory setHistory setConstraints].
  set (key := sortedKey p1 p2). set (cs := constraints st) in *.
  assert (Hput : forall v, NoDup (keysOf (putConstraint key v cs))
                           /\ Forall (fun k => fst k <= snd k) (keysOf (putConstraint key v cs))).
  { intros v. destruct (lookupConstraint key cs) as [d|] eqn:E.
    - rewrite put_present by congruence. auto.
    - rewrite (@put_absent key v cs E). unfold keysOf. rewrite map_app. cbn [map fst].
      split.
      + apply NoDup_app; [exact Hnd | constructor; [intros []|constructor] |].
        intros k Hk [<-|[]]. apply lookup_None_notin in E. exact (E Hk).
      + apply Forall_app. split; [exact Hsorted|].
        constructor; [apply sortedKey_sorted|constructor]. }
  destruct (match lookupConstraint key cs with
            | Some d => negb (is_zero d)
            | None => false
            end).
  - rewrite keysOf_remove. split.
    + apply NoDup_filter. exact Hnd.
    + rewrite Forall_forall in *. intros k Hk. apply filter_In in Hk. apply Hsorted, Hk.
  - destruct (find_kp p1 (keypoints st)) as [kp1|]; [|auto].
    destruct (find_kp p2 (keypoints st)) as [kp2|]; [|auto].
    apply Hput.
Qed.

Lemma toggle_constraint_keeps_keys_witness :
  NoDup (keysOf (constraints (handleToggleConstraint 4 3 lockedArmApp)))
  /\ Forall (fun k => fst k <= snd k)
            (keysOf (constraints (handleToggleConstraint 4 3 lockedArmApp))).
Proof.
  apply toggle_constraint_keeps_keys.
  - cbn. repeat constructor; cbn; intuition discriminate.
  - cbn. repeat constructor.
Defined.

(** ** Visibility cascade from any joint *)

Lemma closedb_reaches (id : nat) (s : list nat) :
  In id s -> closedb s = true -> forall x, reaches id x -> In x s.
Proof.
  intros Hid Hclosed x Hx. induction Hx as [|b c Hb IH [children [Hch Hc]]]; [exact Hid|].
  unfold closedb in Hclosed. rewrite forallb_forall in Hclosed.
  specialize (Hclosed b IH). rewrite Hch in Hclosed.
  rewrite forallb_forall in Hclosed. apply has_In, Hclosed, Hc.
Qed.

Lemma justifiedb_reaches (id : nat) (l seen : list nat) :
  (forall y, In y seen -> reaches id y) -> justifiedb seen l = true ->
  forall x, In x l -> reaches id x.
Proof.
  revert seen. induction l as [|a l IH]; intros seen Hseen Hj x Hx; [destruct Hx|].
  cbn [justifiedb] in Hj. apply andb_true_iff in Hj. destruct Hj as [Ha Hl].
  assert (Hra : reaches id a).
  { apply existsb_exists in Ha. destruct Ha as [p [Hp Hpa]].
    destruct (POSE_HIERARCHY p) as [children|] eqn:E; [|discriminate Hpa].
    apply reaches_child with (b := p); [exact (Hseen p Hp)|].
    exists children. split; [exact E | apply has_In; exact Hpa]. }
  destruct Hx as [<-|Hx]; [exact Hra|].
  apply (IH (seen ++ [a])); [ | exact Hl | exact Hx ].
  intros y Hy. apply in_app_or in Hy. destruct Hy as [Hy|[<-|[]]]; [exact (Hseen y Hy)|exact Hra].
Qed.

(** The cascade loop finds exactly the joints below the hidden one. *)
Lemma cascade_reaches (id : nat) :
  exists s, cascade_loop 19 [id] [id] = Ok s /\ forall x, In x s <-> reaches id x.
Proof.
  assert (Hcheck : forall rest,
             closedb (id :: rest) = true -> justifiedb [id] rest = true ->
             forall x, In x (id :: rest) <-> reaches id x).
  { intros rest Hc Hj x. split.
    - intros [<-|Hx]; [constructor|].
      apply (@justifiedb_reaches id rest [id]); [ | exact Hj | exact Hx ].
      intros y [<-|[]]. constructor.
    - apply closedb_reaches; [left; reflexivity | exact Hc]. }
  do 18 (destruct id as [|id]; [eexists; split; [reflexivity|]; apply Hcheck; reflexivity|]).
  eexists; split; [reflexivity|]. apply Hcheck; reflexivity.
Qed.

(** X19. Hiding a visible joint hides that joint and exactly the joints
    below it in the hierarchy, and changes nothing else of any joint;
    showing a hidden joint changes the visibility of that joint alone. *)
Theorem toggle_visibility_cascade (id : nat) (prev : list Keypoint) (target : Keypoint) :
  find_kp id prev = Some target ->
  exists kps',
    toggleVisibility id prev = Ok kps'
    /\ forall i kp, nth_error prev i = Some kp ->
         if kp_visible target
         then (reaches id (kp_id kp) -> nth_error kps' i = Some (with_visible kp false))
              /\ (~ reaches id (kp_id kp) -> nth_error kps' i = Some kp)
         else nth_error kps' i
              = Some (if kp_id kp =? id then with_visible kp true else kp).
Proof.
  intros Hfind. unfold toggleVisibility. rewrite Hfind.
  destruct (kp_visible target); cbn [negb].
  - destruct (cascade_reaches id) as [s [Hs Hin]]. rewrite Hs. cbn [bind].
    eexists. split; [reflexivity|].
    intros i kp Hi. rewrite nth_error_map, Hi. cbn [option_map]. split; intros Hr.
    + apply Hin, has_In in Hr. rewrite Hr. reflexivity.
    + destruct (has s (kp_id kp)) eqn:E; [|reflexivity].
      exfalso. apply Hr, Hin, has_In, E.
  - cbn [bind]. eexists. split; [reflexivity|].
    intros i kp Hi. rewrite nth_error_map, Hi. cbn [option_map]. f_equal.
    unfold has. cbn [existsb]. rewrite orb_false_r.
    destruct (kp_id kp =? id); reflexivity.
Qed.

Lemma toggle_visibility_cascade_witness :
  exists kps',
    toggleVisibility 8 defaultPose = Ok kps'
    /\ option_map kp_visible (nth_error kps' 10) = Some false
    /\ nth_error kps' 11 = nth_error defaultPose 11.
Proof.
  destruct (@toggle_visibility_cascade 8 defaultPose _ eq_refl) as [kps' [H Hn]].
  exists kps'. split; [exact H|]. split.
  - destruct (Hn 10 _ eq_refl) as [Hin _]. rewrite Hin; [reflexivity|].
    apply reaches_child with (b := 9); [apply reaches_child with (b := 8)|].
    + constructor.
    + eexists. split; [reflexivity|]. present.
    + eexists. split; [reflexivity|]. present.
  - destruct (Hn 11 _ eq_refl) as [_ Hout]. apply Hout.
    destruct (cascade_reaches 8) as [s [Hs Hin]].
    change (cascade_loop 19 [8] [8]) with (Ok [8; 9; 10]) in Hs.
    injection Hs as <-. intros Hl. apply Hin in Hl. revert Hl. absent.
Defined.

(** ** Import and export *)

Lemma import_body25_nth (kpArray : list R) (kps kps' : list Keypoint) (k i : nat)
  (kp : Keypoint) :
  import_body25 kpArray k kps = Ok kps' ->
  nth_error kps i = Some kp ->
  exists srcIdx, nth_error BODY25_MAPPING (k + i) = Some srcIdx
                 /\ nth_error kps' i = Some (import_joint kpArray srcIdx kp).
Proof.
  revert kps' k i. induction kps as [|kp0 rest IH]; intros kps' k i Himp Hi.
  - destruct i; discriminate Hi.
  - cbn [import_body25] in Himp.
    destruct (nth_error BODY25_MAPPING k) as [src0|] eqn:E; [|discriminate Himp].
    destruct (import_body25 kpArray (S k) rest) as [rest'|] eqn:Er; [|discriminate Himp].
    cbn [bind] in Himp. injection Himp as <-.
    destruct i as [|i].
    + cbn [nth_error] in Hi. injection Hi as <-.
      exists src0. rewrite Nat.add_0_r. split; [exact E | reflexivity].
    + cbn [nth_error] in Hi. destruct (IH rest' (S k) i Er Hi) as [srcIdx [Hm Hn]].
      exists srcIdx. replace (k + S i) with (S k + i) by lia. split; assumption.
Qed.

Lemma getKeypoint_in_bounds (kpArray : list R) (idx : nat) :
  idx * 3 + 2 < List.length kpArray ->
  getKeypoint kpArray idx
  = Some (nth (idx * 3) kpArray 0%R, nth (idx * 3 + 1) kpArray 0%R,
          nth (idx * 3 + 2) kpArray 0%R).
Proof.
  intros H. unfold getKeypoint.
  assert (E : (List.length kpArray <=? idx * 3 + 2) = false) by (apply Nat.leb_gt; exact H).
  rewrite E. reflexivity.
Qed.

(** X20. A full pose file replaces all 18 joints.  With at least 54 and
    fewer than 75 numbers, joint [i] is read at index [i]; with 75 or more,
    joint [i] is read at the BODY_25 index of the table (0-7 as they are,
    8-17 one further).  Either way x and y come from the file, the joint is
    visible when one of them is not 0, name, colour, lock and anchor stay,
    the constraints are cleared and nothing is reported. *)
Theorem full_import_replaces_pose (st : App) (canvas_config : option (R * R))
  (rest : list Person) (kpArray : list R) :
  skeleton (keypoints st) ->
  54 <= List.length kpArray ->
  exists st',
    handleImportJson (Parsed canvas_config (PersonData (Some kpArray) :: rest)) st = Ok st'
    /\ alerts st' = alerts st
    /\ constraints st' = []
    /\ forall i kp, nth_error (keypoints st) i = Some kp ->
         nth_error (keypoints st') i
         = Some (imported kpArray
                   (if 75 <=? List.length kpArray then (if i <? 8 then i else S i) else i)
                   kp).
Proof.
  intros Hsk Hlen. pose proof (skeleton_length Hsk) as H18.
  unfold handleImportJson, importKeypoints.
  assert (Halerts : forall st1 : App,
             alerts (match canvas_config with
                     | Some (w, h) =>
                         if negb (is_zero w) && negb (is_zero h)
                         then setSize (mkSize w h) st1 else st1
                     | None => st1
                     end) = alerts st1).
  { intros st1. destruct canvas_config as [[w h]|]; [destruct (_ && _)|]; reflexivity. }
  destruct (75 <=? List.length kpArray) eqn:E75.
  - apply Nat.leb_le in E75.
    destruct (import_body25_ok kpArray 0 (keypoints st)) as [kps' [Hk _]]; [lia|].
    rewrite Hk. cbn [bind]. eexists. split; [reflexivity|].
    split; [cbn [alerts setConstraints setKeypoints]; rewrite Halerts; reflexivity|].
    split; [reflexivity|].
    intros i kp Hi. cbn [keypoints setConstraints setKeypoints].
    destruct (import_body25_nth kpArray (keypoints st) 0 i Hk Hi) as [srcIdx [Hm Hn]].
    rewrite Hn. f_equal.
    assert (Hi18 : i < 18) by (rewrite <- H18; apply nth_error_Some; congruence).
    assert (Hsrc : srcIdx = if i <? 8 then i else S i).
    { cbn [Nat.add] in Hm.
      do 18 (destruct i as [|i]; [injection Hm as <-; reflexivity|]). lia. }
    rewrite <- Hsrc. unfold import_joint, imported.
    rewrite getKeypoint_in_bounds; [reflexivity|].
    assert (srcIdx <= 18) by (rewrite Hsrc; destruct (i <? 8); lia). lia.
  - cbn [bind]. eexists. split; [reflexivity|].
    split; [cbn [alerts setConstraints setKeypoints]; rewrite Halerts; reflexivity|].
    split; [reflexivity|].
    intros i kp Hi. cbn [keypoints setConstraints setKeypoints].
    rewrite import_direct_nth, Hi. cbn [option_map Nat.add]. f_equal.
    assert (Hi18 : i < 18) by (rewrite <- H18; apply nth_error_Some; congruence).
    unfold import_joint, imported. rewrite getKeypoint_in_bounds; [reflexivity|lia].
Qed.

Lemma full_import_replaces_pose_witness :
  exists st',
    handleImportJson (Parsed None [PersonData (Some (repeat 7%R 54))]) lockedArmApp = Ok st'
    /\ constraints st' = []
    /\ option_map kp_x (nth_error (keypoints st') 17) = Some 7%R.
Proof.
  destruct (@full_import_replaces_pose lockedArmApp None [] (repeat 7%R 54))
    as [st' [H [_ [Hc Hn]]]].
  - reflexivity.
  - cbn. lia.
  - exists st'. split; [exact H|]. split; [exact Hc|].
    rewrite (Hn 17 _ eq_refl). reflexivity.
Defined.

(** X21. The third number of each joint in a pose file, the confidence, is
    never read: two arrays of one length that agree on every x and y give
    the same keypoints, so a joint stored as hidden at a position other
    than (0, 0) comes back visible. *)
Theorem import_ignores_confidence (a b : list R) (kps : list Keypoint) :
  List.length a = List.length b ->
  (forall k, nth (k * 3) a 0%R = nth (k * 3) b 0%R
             /\ nth (k * 3 + 1) a 0%R = nth (k * 3 + 1) b 0%R) ->
  importKeypoints a kps = importKeypoints b kps.
Proof.
  intros Hlen Hxy.
  assert (Hj : forall idx kp, import_joint a idx kp = import_joint b idx kp).
  { intros idx kp. unfold import_joint, getKeypoint. rewrite Hlen.
    destruct (List.length b <=? idx * 3 + 2); [reflexivity|].
    destruct (Hxy idx) as [-> ->]. reflexivity. }
  unfold importKeypoints. rewrite Hlen. destruct (75 <=? List.length b).
  - generalize 0 as i. induction kps as [|kp rest IH]; intros i; [reflexivity|].
    cbn [import_body25]. destruct (nth_error BODY25_MAPPING i); [|reflexivity].
    rewrite IH, Hj. reflexivity.
  - f_equal. generalize 0 as i. induction kps as [|kp rest IH]; intros i; [reflexivity|].
    cbn [import_direct]. rewrite IH, Hj. reflexivity.
Qed.

Lemma import_ignores_confidence_witness :
  importKeypoints [100%R; 200%R; 0%R] defaultPose
  = importKeypoints [100%R; 200%R; 1%R] defaultPose.
Proof.
  apply import_ignores_confidence; [reflexivity|].
  intros [|k]; [split; reflexivity|].
  cbn [Nat.mul Nat.add nth].
  split; [destruct (k * 3) | destruct (k * 3 + 1)]; reflexivity.
Defined.

Lemma exportKeypoints_length (kps : list Keypoint) :
  List.length (exportKeypoints kps) = List.length kps * 3.
Proof.
  unfold exportKeypoints. induction kps as [|kp rest IH]; [reflexivity|].
  cbn [flat_map app List.length]. rewrite IH. cbn [Nat.mul Nat.add]. reflexivity.
Qed.

Lemma exportKeypoints_nth (kps : list Keypoint) (i : nat) (kp : Keypoint) :
  nth_error kps i = Some kp ->
  nth (i * 3) (exportKeypoints kps) 0%R = round (kp_x kp)
  /\ nth (i * 3 + 1) (exportKeypoints kps) 0%R = round (kp_y kp).
Proof.
  revert i. unfold exportKeypoints. induction kps as [|kp0 rest IH]; intros i Hi.
  - destruct i; discriminate Hi.
  - destruct i as [|i]; cbn [nth_error] in Hi.
    + injection Hi as <-. split; reflexivity.
    + cbn [flat_map app Nat.mul Nat.add nth]. exact (IH i Hi).
Qed.

Lemma round_integer (z : Z) : round (IZR z) = IZR z.
Proof.
  unfold round. f_equal. symmetry. apply Int_part_spec. lra.
Qed.

Lemma import_export_direct (all kps : list Keypoint) (k : nat) :
  (forall i kp, nth_error kps i = Some kp -> nth_error all (k + i) = Some kp) ->
  import_direct (exportKeypoints all) k kps = map reimported kps.
Proof.
  revert k. induction kps as [|kp0 rest IH]; intros k Hsuffix; [reflexivity|].
  cbn [import_direct map]. f_equal.
  - pose proof (Hsuffix 0 kp0 eq_refl) as Hk. rewrite Nat.add_0_r in Hk.
    assert (Hlt : k < List.length all) by (apply nth_error_Some; congruence).
    unfold import_joint.
    rewrite getKeypoint_in_bounds by (rewrite exportKeypoints_length; lia).
    destruct (exportKeypoints_nth all k Hk) as [-> ->]. reflexivity.
  - apply IH. intros i kp Hi.
    replace (S k + i) with (k + S i) by lia. apply Hsuffix. exact Hi.
Qed.

(** X22. Export followed by import of the written file, for the 18 joints:
    every joint comes back at its coordinates rounded to integers, visible
    exactly when they are not both 0, and the constraints are cleared.  A
    pose with integer coordinates in which the visible joints are those
    away from (0, 0) comes back as it was. *)
Theorem export_then_import (st : App) :
  skeleton (keypoints st) ->
  exists st',
    handleImportJson (exportFile st) st = Ok st'
    /\ alerts st' = alerts st
    /\ constraints st' = []
    /\ keypoints st' = map reimported (keypoints st)
    /\ ((forall kp, In kp (keypoints st) ->
           (exists zx zy, kp_x kp = IZR zx /\ kp_y kp = IZR zy)
           /\ kp_visible kp = negb (is_zero (kp_x kp)) || negb (is_zero (kp_y kp))) ->
        keypoints st' = keypoints st).
Proof.
  intros Hsk. pose proof (skeleton_length Hsk) as H18.
  unfold handleImportJson, exportFile, importKeypoints.
  assert (E75 : (75 <=? List.length (exportKeypoints (keypoints st))) = false).
  { apply Nat.leb_gt. rewrite exportKeypoints_length, H18. cbn. lia. }
  rewrite E75. cbn [bind]. eexists. split; [reflexivity|].
  assert (Hk : import_direct (exportKeypoints (keypoints st)) 0 (keypoints st)
               = map reimported (keypoints st)).
  { apply import_export_direct. intros i kp Hi. exact Hi. }
  split; [destruct (_ && _); reflexivity|]. split; [reflexivity|].
  cbn [keypoints setConstraints setKeypoints]. rewrite Hk.
  split; [reflexivity|].
  intros Hint. rewrite <- (map_id (keypoints st)) at 2.
  apply map_ext_in. intros kp Hin.
  destruct (Hint kp Hin) as [[zx [zy [Hx Hy]]] Hv].
  unfold reimported. rewrite Hx, Hy, !round_integer, <- Hx, <- Hy, <- Hv.
  destruct kp; reflexivity.
Qed.

Lemma export_then_import_witness :
  exists st',
    handleImportJson (exportFile lockedArmApp) lockedArmApp = Ok st'
    /\ constraints st' = []
    /\ keypoints st' = keypoints lockedArmApp.
Proof.
  destruct (@export_then_import lockedArmApp eq_refl) as [st' [H [_ [Hc [_ Hk]]]]].
  exists st'. split; [exact H|]. split; [exact Hc|].
  apply Hk. intros kp Hin.
  repeat (destruct Hin as [<-|Hin];
          [split; [do 2 eexists; split; reflexivity|];
           cbn [kp_visible kp_x kp_y with_xy pt_x pt_y];
           rewrite is_zero_false by lra; reflexivity|]).
  destruct Hin.
Defined.

(** ** Mirror, once more *)

Lemma reflect_onto_idem (axisX : R) (srcKp old : Keypoint) :
  reflect_onto axisX srcKp (reflect_onto axisX srcKp old) = reflect_onto axisX srcKp old.
Proof. reflexivity. Qed.

Lemma mirror_fold_idem (axisX : R) (prev : list Keypoint) (ps : list (nat * nat)) :
  NoDup (map snd ps) ->
  (forall s d, In (s, d) ps -> ~ In s (map snd ps)) ->
  let kps1 := mirror_fold axisX prev ps prev in
  mirror_fold axisX kps1 ps kps1 = kps1.
Proof.
  intros Hnd Hsrc kps1. apply mirror_fold_fixed. intros s d Hin.
  rewrite mirror_step_update.
  assert (Hs : find_kp s kps1 = find_kp s prev).
  { apply find_mirror_fold_other. exact (Hsrc s d Hin). }
  rewrite Hs. destruct (find_kp s prev) as [srcKp|] eqn:Es; [|reflexivity].
  apply update_first_fixed. intros k Hk.
  subst kps1. rewrite (@find_mirror_fold_dst axisX prev s d ps prev Hnd Hin), Es in Hk.
  destruct (find_kp d prev) as [old|]; [|discriminate Hk].
  injection Hk as <-. apply reflect_onto_idem.
Qed.

Lemma left_ids_nodup : NoDup (map snd MIRROR_PAIRS).
Proof. distinct. Qed.

Lemma mirror_sources_apart :
  (forall s d, In (s, d) LEFT_TO_RIGHT -> ~ In s (map snd LEFT_TO_RIGHT))
  /\ (forall s d, In (s, d) MIRROR_PAIRS -> ~ In s (map snd MIRROR_PAIRS))
  /\ ~ In 1 (map snd MIRROR_PAIRS) /\ ~ In 0 (map snd MIRROR_PAIRS).
Proof.
  split; [|split; [|split; absent]].
  - intros s d H. cbn in H.
    repeat (destruct H as [H|H]; [injection H as <- <-; absent|]). destruct H.
  - intros s d H. cbn in H.
    repeat (destruct H as [H|H]; [injection H as <- <-; absent|]). destruct H.
Qed.

(** X23. A mirror is idempotent: mirroring the same way a second time
    changes nothing, left to right as well as right to left. *)
Theorem mirror_twice (sz : Size) (prev : list Keypoint) :
  mirrorLeftToRight sz (mirrorLeftToRight sz prev) = mirrorLeftToRight sz prev
  /\ mirrorRightToLeft sz (mirrorRightToLeft sz prev) = mirrorRightToLeft sz prev.
Proof.
  destruct mirror_pairs_facts as [_ [Hneck Hnose]].
  destruct mirror_sources_apart as [Hlr [Hrl [Hneck' Hnose']]].
  split.
  - assert (Hax : mirrorAxis sz (mirrorLeftToRight sz prev) = mirrorAxis sz prev).
    { apply mirrorAxis_ext; rewrite mirrorLeftToRight_fold;
        apply find_mirror_fold_other; assumption. }
    rewrite (mirrorLeftToRight_fold sz (mirrorLeftToRight sz prev)), Hax.
    rewrite mirrorLeftToRight_fold.
    apply mirror_fold_idem; [exact right_ids_nodup | exact Hlr].
  - assert (Hax : mirrorAxis sz (mirrorRightToLeft sz prev) = mirrorAxis sz prev).
    { apply mirrorAxis_ext; rewrite mirrorRightToLeft_fold;
        apply find_mirror_fold_other; assumption. }
    rewrite (mirrorRightToLeft_fold sz (mirrorRightToLeft sz prev)), Hax.
    rewrite mirrorRightToLeft_fold.
    apply mirror_fold_idem; [exact left_ids_nodup | exact Hrl].
Qed.

(** ** Canvas helpers *)

(** X24. Snapping moves a background offset by less than the threshold of
    15 and only onto the centre or an edge position; when one of these is
    within the threshold, the offset does snap, to one at least as near as
    that one. *)
Theorem snap_is_near (s currentVal dimension : R) :
  let targetLeft := (- (dimension / 2) + (dimension * s) / 2)%R in
  let targetRight := ((dimension / 2) - (dimension * s) / 2)%R in
  let snapped := snapAxis s currentVal dimension in
  (Rabs (currentVal - snapped) < 15)%R
  /\ (snapped = currentVal \/ snapped = 0%R \/ snapped = targetLeft \/ snapped = targetRight)
  /\ forall c, c = 0%R \/ c = targetLeft \/ c = targetRight ->
       (Rabs (currentVal - c) < 15)%R ->
       (snapped = 0%R \/ snapped = targetLeft \/ snapped = targetRight)
       /\ (Rabs (currentVal - snapped) <= Rabs (currentVal - c))%R.
Proof.
  intros targetLeft targetRight snapped. subst snapped.
  unfold snapAxis, snapCandidate. fold targetLeft targetRight.
  assert (Hself : Rabs (currentVal - currentVal) = 0%R).
  { replace (currentVal - currentVal)%R with 0%R by ring. apply Rabs_R0. }
  set (d0 := Rabs (currentVal - 0)).
  set (d1 := Rabs (currentVal - targetLeft)).
  set (d2 := Rabs (currentVal - targetRight)).
  cbn [snd fst].
  destruct (Rlt_dec d0 15) as [H0|H0]; cbn [snd fst];
    destruct (Rlt_dec d1 _) as [H1|H1]; cbn [snd fst];
    destruct (Rlt_dec d2 _) as [H2|H2]; cbn [snd fst];
    (split; [ try rewrite Hself; try fold d0; try fold d1; try fold d2; lra | ]);
    (split; [ tauto | ]);
    intros c Hc Hn;
    (split; [ try tauto | ]);
    try fold d0; try fold d1; try fold d2;
    destruct Hc as [ -> | [ -> | -> ] ];
    try fold d0 in Hn; try fold d1 in Hn; try fold d2 in Hn;
    try fold d0; try fold d1; try fold d2; lra.
Qed.

Lemma snap_is_near_witness :
  (Rabs (3 - snapAxis 1 3 512) <= Rabs (3 - 0))%R.
Proof.
  apply (proj2 (proj2 (snap_is_near 1 3 512)) 0%R).
  - left. reflexivity.
  - rewrite Rabs_right; lra.
Defined.

Lemma clamp_in_range (hi v : R) : (0 <= hi)%R -> (0 <= Rmax 0 (Rmin hi v) <= hi)%R.
Proof.
  intros H. split; [apply Rmax_l|].
  apply Rmax_lub; [exact H | apply Rmin_l].
Qed.

(** X25. The editor clamps the pointer to the canvas before it moves a
    joint, so the target of a joint drag is on the canvas.  In constraint
    mode, when no constraint touches the dragged joint, the joint is put on
    that target and so stays on the canvas.  In translate mode the joint is
    put at [x + (target.x - x)], [y + (target.y - y)], which over the reals
    is the target: over the reals it stays on the canvas there too.  A
    joint that a constraint touches is projected in constraint mode, and is
    not covered. *)
Theorem free_drag_stays_on_canvas (st : App) (id : nat) (pos : Point) (src : Keypoint) :
  (0 <= width (size st))%R -> (0 <= height (size st))%R ->
  find_kp id (keypoints st) = Some src ->
  lockedJointMode st = translate \/ activeConstraints (constraints st) id = [] ->
  let target := clampToCanvas (size st) pos in
  (0 <= pt_x target <= width (size st))%R
  /\ (0 <= pt_y target <= height (size st))%R
  /\ exists st' kp',
       dragKeypointTo id pos st = Ok st'
       /\ find_kp id (keypoints st') = Some kp'
       /\ (lockedJointMode st = rotate ->
             kp' = with_xy src (pt_x target) (pt_y target))
       /\ (lockedJointMode st = translate ->
             kp' = with_xy src (kp_x src + (pt_x target - kp_x src))
                               (kp_y src + (pt_y target - kp_y src)))
       /\ kp_x kp' = pt_x target
       /\ kp_y kp' = pt_y target
       /\ (0 <= kp_x kp' <= width (size st))%R
       /\ (0 <= kp_y kp' <= height (size st))%R.
Proof.
  intros Hw Hh Hsrc Hcase target.
  assert (Hin : (0 <= pt_x target <= width (size st))%R
                /\ (0 <= pt_y target <= height (size st))%R).
  { subst target. cbn [clampToCanvas pt_x pt_y]. split; apply clamp_in_range; assumption. }
  split; [apply Hin|]. split; [apply Hin|].
  destruct (connectedComponent_spec (constraints st) id) as [s [Hs Hlinked]].
  assert (Hhas : has s id = true) by (apply has_In, Hlinked; constructor).
  pose proof (find_kp_id _ _ Hsrc) as Hid.
  unfold dragKeypointTo, handleKeypointMove, moveKeypoint. fold target.
  rewrite Hsrc, Hs. cbn [bind].
  assert (Hrot : lockedJointMode st = rotate ->
                 activeConstraints (constraints st) id = [] ->
                 resolve (constraints st) id (pt_x target) (pt_y target) (keypoints st)
                 = Ok (pt_x target, pt_y target)).
  { intros _ Hnone. unfold resolve. rewrite Hnone. reflexivity. }
  destruct (lockedJointMode st) eqn:Hmode.
  - (* translate *)
    eexists. eexists. split; [reflexivity|].
    cbn [keypoints setKeypoints].
    rewrite find_kp_map by (intros k; destruct (has s (kp_id k)); reflexivity).
    rewrite Hsrc. cbn [option_map]. rewrite Hid, Hhas.
    split; [reflexivity|].
    split; [intros H; discriminate H|]. split; [reflexivity|].
    cbn [kp_x kp_y with_xy].
    replace (kp_x src + (pt_x target - kp_x src))%R with (pt_x target) by ring.
    replace (kp_y src + (pt_y target - kp_y src))%R with (pt_y target) by ring.
    tauto.
  - (* constraint mode, no constraint on the joint *)
    destruct Hcase as [Hc|Hc]; [discriminate Hc|].
    rewrite (Hrot eq_refl Hc). cbn [bind fst snd].
    eexists. eexists. split; [reflexivity|].
    cbn [keypoints setKeypoints].
    rewrite find_kp_map by (intros k; destruct (kp_id k =? id); reflexivity).
    rewrite Hsrc. cbn [option_map]. rewrite Hid, Nat.eqb_refl.
    split; [reflexivity|].
    split; [reflexivity|]. split; [intros H; discriminate H|].
    cbn [kp_x kp_y with_xy]. tauto.
Qed.

Lemma free_drag_stays_on_canvas_witness :
  (exists st' kp',
     dragKeypointTo 3 (mkPoint 900 (-20)) lockedArmApp = Ok st'
     /\ find_kp 3 (keypoints st') = Some kp'
     /\ (0 <= kp_x kp' <= 512)%R /\ (0 <= kp_y kp' <= 512)%R)
  /\ (exists st' kp',
        dragKeypointTo 4 (mkPoint 900 (-20)) rotateArmApp = Ok st'
        /\ find_kp 4 (keypoints st') = Some kp'
        /\ kp_x kp' = Rmax 0 (Rmin 512 900) /\ kp_y kp' = Rmax 0 (Rmin 512 (-20))).
Proof.
  split.
  - edestruct (@free_drag_stays_on_canvas lockedArmApp 3 (mkPoint 900 (-20)))
      as [_ [_ [st' [kp' [H [Hf [_ [_ [_ [_ [Hx Hy]]]]]]]]]]].
    + cbn. lra.
    + cbn. lra.
    + reflexivity.
    + left. reflexivity.
    + exists st', kp'. auto.
  - edestruct (@free_drag_stays_on_canvas rotateArmApp 4 (mkPoint 900 (-20)))
      as [_ [_ [st' [kp' [H [Hf [Hr _]]]]]]].
    + cbn. lra.
    + cbn. lra.
    + reflexivity.
    + right. reflexivity.
    + exists st', kp'. split; [exact H|]. split; [exact Hf|].
      rewrite (Hr eq_refl). split; reflexivity.
Defined.

(** X26. A drag in constraint mode moves the dragged joint only: every
    other joint is left as it is and the store is not touched, so every
    constraint between two other joints that held before the drag holds
    after it, however many constraints pull on the dragged joint. *)
Theorem constraint_drag_moves_one_joint (st st' : App) (id : nat) (x y : R) :
  lockedJointMode st = rotate ->
  handleKeypointMove id x y st = Ok st' ->
  constraints st' = constraints st
  /\ (forall i kp, nth_error (keypoints st) i = Some kp -> kp_id kp <> id ->
        nth_error (keypoints st') i = Some kp)
  /\ (forall p1 p2 d kp1 kp2,
        In ((p1, p2), d) (constraints st) -> p1 <> id -> p2 <> id ->
        find_kp p1 (keypoints st) = Some kp1 -> find_kp p2 (keypoints st) = Some kp2 ->
        dist kp1 kp2 = d ->
        find_kp p1 (keypoints st') = Some kp1 /\ find_kp p2 (keypoints st') = Some kp2).
Proof.
  intros Hmode Hstep. unfold handleKeypointMove, moveKeypoint in Hstep.
  rewrite Hmode in Hstep.
  destruct (find_kp id (keypoints st)) as [src|];
    [ | injection Hstep as <-; repeat split; auto ].
  destruct (connectedComponent (constraints st) id) as [s|]; [|discriminate Hstep].
  cbn [bind] in Hstep.
  destruct (resolve (constraints st) id x y (keypoints st)) as [next|]; [|discriminate Hstep].
  cbn [bind] in Hstep. injection Hstep as <-.
  cbn [constraints keypoints setKeypoints].
  assert (Hfind : forall p kp, p <> id -> find_kp p (keypoints st) = Some kp ->
            find_kp p (map (fun k => if kp_id k =? id
                                     then with_xy k (fst next) (snd next) else k)
                           (keypoints st)) = Some kp).
  { intros p kp Hp E.
    rewrite find_kp_map by (intros k; destruct (kp_id k =? id); reflexivity).
    rewrite E. cbn [option_map]. rewrite (find_kp_id _ _ E).
    apply Nat.eqb_neq in Hp. rewrite Hp. reflexivity. }
  split; [reflexivity|]. split.
  - intros i kp Hi Hne. rewrite nth_error_map, Hi. cbn [option_map].
    apply Nat.eqb_neq in Hne. rewrite Hne. reflexivity.
  - intros p1 p2 d kp1 kp2 _ Hp1 Hp2 H1 H2 _. split; apply Hfind; assumption.
Qed.

Lemma constraint_drag_moves_one_joint_witness :
  exists st',
    handleKeypointMove 3 236 155 rotateArmApp = Ok st'
    /\ nth_error (keypoints st') 2 = nth_error (keypoints rotateArmApp) 2.
Proof.
  destruct (moveKeypoint_total (constraints rotateArmApp) rotate 3 236 155
              (keypoints rotateArmApp)) as [kps [Hk _]].
  assert (H : handleKeypointMove 3 236 155 rotateArmApp
              = Ok (setKeypoints kps rotateArmApp)).
  { unfold handleKeypointMove. change (lockedJointMode rotateArmApp) with rotate.
    rewrite Hk. reflexivity. }
  exists (setKeypoints kps rotateArmApp). split; [exact H|].
  apply (proj1 (proj2 (@constraint_drag_moves_one_joint rotateArmApp _ 3 236 155
                         eq_refl H)) 2).
  - reflexivity.
  - discriminate.
Defined.

(** X27. Over the reals, [fitToScreen] fits without enlarging: for a
    canvas of positive size, the zoom it sets is positive, at most 1, and
    the zoomed canvas is no wider and no higher than the container less its
    padding of 64; it sets no zoom when the container leaves no room, and
    only then. *)
Theorem fit_to_screen_fits (clientWidth clientHeight : R) (sz : Size) :
  (0 < width sz)%R -> (0 < height sz)%R ->
  match fitToScreen clientWidth clientHeight sz with
  | Some zoom =>
      (0 < zoom <= 1)%R
      /\ (width sz * zoom <= clientWidth - 64)%R
      /\ (height sz * zoom <= clientHeight - 64)%R
  | None => (clientWidth <= 64)%R \/ (clientHeight <= 64)%R
  end.
Proof.
  intros Hw Hh. unfold fitToScreen.
  destruct (Rle_dec (clientWidth - 64) 0) as [Ha|Ha]; [left; lra|].
  destruct (Rle_dec (clientHeight - 64) 0) as [Hb|Hb]; [right; lra|].
  set (aw := (clientWidth - 64)%R) in *. set (ah := (clientHeight - 64)%R) in *.
  assert (Hx : (0 < aw / width sz)%R) by (apply Rdiv_lt_0_compat; lra).
  assert (Hy : (0 < ah / height sz)%R) by (apply Rdiv_lt_0_compat; lra).
  set (zoom := Rmin (Rmin (aw / width sz) (ah / height sz)) 1).
  assert (H1 : (zoom <= 1)%R) by apply Rmin_r.
  assert (H2 : (zoom <= aw / width sz)%R).
  { eapply Rle_trans; [apply Rmin_l | apply Rmin_l]. }
  assert (H3 : (zoom <= ah / height sz)%R).
  { eapply Rle_trans; [apply Rmin_l | apply Rmin_r]. }
  assert (H0 : (0 < zoom)%R).
  { subst zoom. apply Rmin_glb_lt; [apply Rmin_glb_lt; assumption | lra]. }
  split; [lra|]. split.
  - replace aw with (width sz * (aw / width sz))%R by (field; lra).
    apply Rmult_le_compat_l; lra.
  - replace ah with (height sz * (ah / height sz))%R by (field; lra).
    apply Rmult_le_compat_l; lra.
Qed.

Lemma fit_to_screen_fits_witness :
  match fitToScreen 320 1000 (mkSize 512 512) with
  | Some zoom =>
      (0 < zoom <= 1)%R /\ (512 * zoom <= 320 - 64)%R /\ (512 * zoom <= 1000 - 64)%R
  | None => (320 <= 64)%R \/ (1000 <= 64)%R
  end.
Proof.
  apply (fit_to_screen_fits 320 1000 (mkSize 512 512)); cbn; lra.
Defined.

(** ** Detection *)

Lemma applyDetected_nth (points : list Point) (prev kps' : list Keypoint) (k i : nat)
  (kp : Keypoint) :
  applyDetected points k prev = Ok kps' ->
  nth_error prev i = Some kp ->
  exists p, nth_error points (k + i) = Some p
            /\ nth_error kps' i = Some (with_xy_visible kp (pt_x p) (pt_y p) true).
Proof.
  revert kps' k i. induction prev as [|kp0 rest IH]; intros kps' k i Happ Hi.
  - destruct i; discriminate Hi.
  - cbn [applyDetected] in Happ.
    destruct (nth_error points k) as [p0|] eqn:E; [|discriminate Happ].
    destruct (applyDetected points (S k) rest) as [rest'|] eqn:Er; [|discriminate Happ].
    cbn [bind] in Happ. injection Happ as <-.
    destruct i as [|i]; cbn [nth_error] in Hi.
    + injection Hi as <-. exists p0. rewrite Nat.add_0_r. split; [exact E|reflexivity].
    + destruct (IH rest' (S k) i Er Hi) as [p [Hp Hn]].
      exists p. replace (k + S i) with (S k + i) by lia. split; assumption.
Qed.

(** The synchronous run of [handleAutoDetect] is its two halves, one after
    the other. *)
Lemma handleAutoDetect_halves (detection : Detection) (st : App) :
  handleAutoDetect detection st
  = if negb (hasImage st) then Ok st else detectResume detection (detectBegin st).
Proof. reflexivity. Qed.

(** X28. [handleAutoDetect] waits for the detection, and what follows the
    wait runs on the state of that moment.  When the detection returns 18
    points, that second half puts joint [i] of the pose it finds at point
    [i] and makes every joint visible, hidden ones included; names,
    colours, locks and anchors stay, and nothing else changes but the
    processing flag, which is cleared: constraints and history are as it
    finds them and nothing is reported.  When no other handler ran during
    the wait and an image is loaded, the whole run ends with the
    constraints cleared, and one undo gives the snapshot of before. *)
Theorem detection_replaces_pose (st : App) (points : list Point) :
  skeleton (keypoints st) ->
  List.length points = 18 ->
  (exists st',
     detectResume (Detected points) st = Ok st'
     /\ st' = setIsProcessing false (setKeypoints (keypoints st') st)
     /\ (forall i kp, nth_error (keypoints st) i = Some kp ->
           exists p, nth_error points i = Some p
                     /\ nth_error (keypoints st') i
                        = Some (with_xy_visible kp (pt_x p) (pt_y p) true)))
  /\ (hasImage st = true ->
      exists st',
        handleAutoDetect (Detected points) st = Ok st'
        /\ detectResume (Detected points) (detectBegin st) = Ok st'
        /\ alerts st' = alerts st
        /\ constraints st' = []
        /\ isProcessing st' = false
        /\ (forall i kp, nth_error (keypoints st) i = Some kp ->
              exists p, nth_error points i = Some p
                        /\ nth_error (keypoints st') i
                           = Some (with_xy_visible kp (pt_x p) (pt_y p) true))
        /\ snapshot (undo st') = snapshot st).
Proof.
  intros Hsk Hlen. pose proof (skeleton_length Hsk) as H18.
  assert (Hres : forall s, keypoints s = keypoints st ->
            exists kps',
              applyDetected points 0 (keypoints st) = Ok kps'
              /\ detectResume (Detected points) s
                 = Ok (setIsProcessing false (setKeypoints kps' s))).
  { intros s Hs. unfold detectResume.
    apply Nat.eqb_eq in Hlen. rewrite Hlen. apply Nat.eqb_eq in Hlen.
    destruct (applyDetected_ok points 0 (keypoints st)) as [kps' [Hk _]]; [lia|].
    exists kps'. split; [exact Hk|]. rewrite Hs, Hk. reflexivity. }
  split.
  - destruct (Hres st eq_refl) as [kps' [Hk Hr]].
    eexists. split; [exact Hr|]. split; [reflexivity|].
    intros i kp Hi. cbn [keypoints setIsProcessing setKeypoints].
    exact (applyDetected_nth points _ 0 i Hk Hi).
  - intros Himg.
    destruct (Hres (detectBegin st) eq_refl) as [kps' [Hk Hr]].
    eexists. rewrite handleAutoDetect_halves, Himg. cbn [negb].
    split; [exact Hr|]. split; [exact Hr|].
    split; [reflexivity|]. split; [reflexivity|]. split; [reflexivity|]. split.
    + intros i kp Hi. cbn [keypoints setIsProcessing setKeypoints].
      exact (applyDetected_nth points _ 0 i Hk Hi).
    + unfold detectBegin.
      rewrite undo_snoc with (p := past (history st)) (h := snapshot st) (f := []);
        [|reflexivity].
      unfold snapshot. reflexivity.
Qed.

Lemma detection_replaces_pose_witness :
  (exists st',
     detectResume (Detected (repeat (mkPoint 10 20) 18)) lockedArmApp = Ok st'
     /\ constraints st' = [((1, 2), 50%R); ((2, 3), 80%R)]
     /\ option_map kp_x (nth_error (keypoints st') 3) = Some 10%R)
  /\ (exists st',
        handleAutoDetect (Detected (repeat (mkPoint 10 20) 18)) hiddenElbowApp = Ok st'
        /\ constraints st' = []
        /\ option_map kp_visible (nth_error (keypoints st') 3) = Some true
        /\ snapshot (undo st') = snapshot hiddenElbowApp).
Proof.
  split.
  - destruct (@detection_replaces_pose lockedArmApp (repeat (mkPoint 10 20) 18)
                eq_refl eq_refl) as [[st' [H [He Hn]]] _].
    exists st'. split; [exact H|]. split; [rewrite He; reflexivity|].
    destruct (Hn 3 _ eq_refl) as [p [Hp Hk]]. rewrite Hk.
    injection Hp as <-. reflexivity.
  - destruct (@detection_replaces_pose hiddenElbowApp (repeat (mkPoint 10 20) 18)
                eq_refl eq_refl) as [_ H2].
    destruct (H2 eq_refl) as [st' [H [_ [_ [Hc [_ [Hn Hu]]]]]]].
    exists st'. split; [exact H|]. split; [exact Hc|]. split; [|exact Hu].
    destruct (Hn 3 _ eq_refl) as [p [_ Hp]]. rewrite Hp. reflexivity.
Defined.

(** ** Reset *)

Lemma fold_Rmin_spec (l : list R) (v : R) :
  In (fold_left Rmin l v) (v :: l)
  /\ forall x, In x (v :: l) -> (fold_left Rmin l v <= x)%R.
Proof.
  revert v. induction l as [|a l IH]; intros v.
  - split; [left; reflexivity|]. intros x [<-|[]]. apply Rle_refl.
  - cbn [fold_left]. destruct (IH (Rmin v a)) as [Hin Hle]. split.
    + destruct Hin as [Hin|Hin]; [|right; right; exact Hin].
      rewrite <- Hin.
      destruct (Rmin_attained v a) as [E|E]; [left|right; left]; symmetry; exact E.
    + intros x [<-|[<-|Hx]].
      * eapply Rle_trans; [apply Hle; left; reflexivity | apply Rmin_l].
      * eapply Rle_trans; [apply Hle; left; reflexivity | apply Rmin_r].
      * apply Hle. right. exact Hx.
Qed.

Lemma fold_Rmax_spec (l : list R) (v : R) :
  In (fold_left Rmax l v) (v :: l)
  /\ forall x, In x (v :: l) -> (x <= fold_left Rmax l v)%R.
Proof.
  revert v. induction l as [|a l IH]; intros v.
  - split; [left; reflexivity|]. intros x [<-|[]]. apply Rle_refl.
  - cbn [fold_left]. destruct (IH (Rmax v a)) as [Hin Hle]. split.
    + destruct Hin as [Hin|Hin]; [|right; right; exact Hin].
      rewrite <- Hin.
      destruct (Rmax_attained v a) as [E|E]; [left|right; left]; symmetry; exact E.
    + intros x [<-|[<-|Hx]].
      * eapply Rle_trans; [apply Rmax_l | apply Hle; left; reflexivity].
      * eapply Rle_trans; [apply Rmax_r | apply Hle; left; reflexivity].
      * apply Hle. right. exact Hx.
Qed.

(** The extent of the reference pose of constants.ts. *)
Lemma reference_pose_extent :
  list_min (map pt_y DEFAULT_POSE_COORDS) = 45%R
  /\ list_max (map pt_y DEFAULT_POSE_COORDS) = 455%R
  /\ list_min (map pt_x DEFAULT_POSE_COORDS) = 166%R
  /\ list_max (map pt_x DEFAULT_POSE_COORDS) = 346%R.
Proof.
  unfold DEFAULT_POSE_COORDS, list_min, list_max. cbn [map pt_x pt_y].
  repeat split.
  - match goal with |- fold_left Rmin ?l ?v = _ =>
      destruct (fold_Rmin_spec l v) as [Hin Hle]; set (m := fold_left Rmin l v) in * end.
    assert (H : (m <= 45)%R) by (apply Hle; cbn; tauto).
    cbn [In] in Hin. repeat (destruct Hin as [Hin|Hin]; [lra|]). destruct Hin.
  - match goal with |- fold_left Rmax ?l ?v = _ =>
      destruct (fold_Rmax_spec l v) as [Hin Hle]; set (m := fold_left Rmax l v) in * end.
    assert (H : (455 <= m)%R) by (apply Hle; cbn; tauto).
    cbn [In] in Hin. repeat (destruct Hin as [Hin|Hin]; [lra|]). destruct Hin.
  - match goal with |- fold_left Rmin ?l ?v = _ =>
      destruct (fold_Rmin_spec l v) as [Hin Hle]; set (m := fold_left Rmin l v) in * end.
    assert (H : (m <= 166)%R) by (apply Hle; cbn; tauto).
    cbn [In] in Hin. repeat (destruct Hin as [Hin|Hin]; [lra|]). destruct Hin.
  - match goal with |- fold_left Rmax ?l ?v = _ =>
      destruct (fold_Rmax_spec l v) as [Hin Hle]; set (m := fold_left Rmax l v) in * end.
    assert (H : (346 <= m)%R) by (apply Hle; cbn; tauto).
    cbn [In] in Hin. repeat (destruct Hin as [Hin|Hin]; [lra|]). destruct Hin.
Qed.

Lemma generateFittedKeypoints_fitted (w h : R) :
  generateFittedKeypoints w h
  = map (fun '(kp, def) => with_xy kp (pt_x (fitted w h def)) (pt_y (fitted w h def)))
        (combine INITIAL_KEYPOINTS DEFAULT_POSE_COORDS).
Proof.
  unfold generateFittedKeypoints.
  destruct reference_pose_extent as [-> [-> [-> ->]]].
  apply map_ext. intros [kp def]. unfold fitted. cbn [pt_x pt_y].
  f_equal; field.
Qed.

Lemma initial_all_visible (kp : Keypoint) : In kp INITIAL_KEYPOINTS -> kp_visible kp = true.
Proof.
  intros H. unfold INITIAL_KEYPOINTS, KEYPOINT_NAMES in H. cbn [initial_from In] in H.
  repeat (destruct H as [<-|H]; [reflexivity|]). destruct H.
Qed.

Lemma fitted_joint (w h : R) (kp : Keypoint) :
  In kp (generateFittedKeypoints w h) ->
  kp_visible kp = true
  /\ exists def, In def DEFAULT_POSE_COORDS
                 /\ kp_x kp = pt_x (fitted w h def) /\ kp_y kp = pt_y (fitted w h def).
Proof.
  rewrite generateFittedKeypoints_fitted. intros H.
  apply in_map_iff in H. destruct H as [[k def] [<- Hin]].
  split.
  - cbn [kp_visible with_xy]. apply initial_all_visible. exact (in_combine_l _ _ _ _ Hin).
  - exists def. split; [exact (in_combine_r _ _ _ _ Hin)|]. split; reflexivity.
Qed.

Lemma fitted_joint_at (w h : R) (i : nat) (def : Point) :
  nth_error DEFAULT_POSE_COORDS i = Some def ->
  exists kp, In kp (generateFittedKeypoints w h) /\ kp_visible kp = true
             /\ kp_x kp = pt_x (fitted w h def) /\ kp_y kp = pt_y (fitted w h def).
Proof.
  intros Hd. rewrite generateFittedKeypoints_fitted.
  assert (Hi : i < 18).
  { change 18 with (List.length DEFAULT_POSE_COORDS). apply nth_error_Some. congruence. }
  destruct (nth_error INITIAL_KEYPOINTS i) as [k|] eqn:Ek.
  - exists (with_xy k (pt_x (fitted w h def)) (pt_y (fitted w h def))).
    split; [|split; [|split; reflexivity]].
    + apply in_map_iff. exists (k, def). split; [reflexivity|].
      apply nth_error_In with (n := i).
      revert Ek Hd. clear.
      generalize INITIAL_KEYPOINTS as l1, DEFAULT_POSE_COORDS as l2. revert i.
      induction i as [|i IH]; intros [|a l1] [|b l2] H1 H2; try discriminate.
      * injection H1 as <-. injection H2 as <-. reflexivity.
      * cbn [combine nth_error] in *. exact (IH l1 l2 H1 H2).
    + cbn [kp_visible with_xy]. apply initial_all_visible. eapply nth_error_In. exact Ek.
  - apply nth_error_None in Ek. change (List.length INITIAL_KEYPOINTS) with 18 in Ek. lia.
Qed.

(** X29. Reset fits the reference pose to the canvas: it clears the
    constraints, can be undone, puts every joint where the reference pose
    has it, scaled by 75% of the canvas height over the pose height of 410
    about the pose centre (256, 250) and moved to the canvas centre; and,
    over the reals, the centre of the new pose is the centre of the
    canvas. *)
Theorem reset_fits_reference_pose (st : App) :
  let w := width (size st) in
  let h := height (size st) in
  let st' := handleReset st in
  constraints st' = []
  /\ snapshot (undo st') = snapshot st
  /\ keypoints st'
     = map (fun '(kp, def) => with_xy kp (pt_x (fitted w h def)) (pt_y (fitted w h def)))
           (combine INITIAL_KEYPOINTS DEFAULT_POSE_COORDS)
  /\ getPoseCenter (keypoints st') = Some (mkPoint (w / 2) (h / 2)).
Proof.
  intros w h st'. subst st'. unfold handleReset.
  cbn [constraints keypoints setKeypoints setConstraints size recordHistory setHistory].
  fold w h.
  split; [reflexivity|]. split.
  { rewrite undo_snoc with (p := past (history st)) (h := snapshot st) (f := []);
      [|reflexivity].
    reflexivity. }
  split; [apply generateFittedKeypoints_fitted|].
  unfold getPoseCenter.
  assert (Hbox : box_of (fold_left grow (generateFittedKeypoints w h) None)
                        ([] ++ generateFittedKeypoints w h)).
  { apply fold_grow_box. intros kp []. }
  cbn [app] in Hbox.
  destruct (fitted_joint_at w h 4 eq_refl) as [k4 [In4 [V4 [X4 _]]]].
  destruct (fitted_joint_at w h 7 eq_refl) as [k7 [In7 [V7 [X7 _]]]].
  destruct (fitted_joint_at w h 14 eq_refl) as [k14 [In14 [V14 [_ Y14]]]].
  destruct (fitted_joint_at w h 13 eq_refl) as [k13 [In13 [V13 [_ Y13]]]].
  destruct (fold_left grow (generateFittedKeypoints w h) None) as [b|]; cbn [box_of] in Hbox;
    [ | rewrite (Hbox k4 In4) in V4; discriminate V4 ].
  destruct Hbox as [Hin [l [Hl [_ HL]]] [r [Hr [_ HR]]] [t [Ht [_ HT]]] [u [Hu [_ HU]]]].
  destruct (Hin k4 In4 V4) as [B4 _]. destruct (Hin k7 In7 V7) as [B7 _].
  destruct (Hin k14 In14 V14) as [_ B14]. destruct (Hin k13 In13 V13) as [_ B13].
  destruct (@fitted_joint w h l Hl) as [_ [dl [Dl [Xl _]]]].
  destruct (@fitted_joint w h r Hr) as [_ [dr [Dr [Xr _]]]].
  destruct (@fitted_joint w h t Ht) as [_ [dt [Dt [_ Yt]]]].
  destruct (@fitted_joint w h u Hu) as [_ [du [Du [_ Yu]]]].
  unfold fitted in *. cbn [pt_x pt_y] in *.
  set (zoom := (h * (75 / 100) / 410)%R) in *.
  rewrite X4 in B4. rewrite X7 in B7. rewrite Y14 in B14. rewrite Y13 in B13.
  rewrite Xl in HL. rewrite Xr in HR. rewrite Yt in HT. rewrite Yu in HU.
  clear X4 X7 Y14 Y13 Xl Xr Yt Yu In4 In7 In14 In13 V4 V7 V14 V13 Hin Hl Hr Ht Hu.
  assert (Hx : (minX b + maxX b = w)%R).
  { unfold DEFAULT_POSE_COORDS in Dl, Dr. cbn [In] in Dl, Dr.
    destruct (Rle_dec 0 zoom) as [Hz|Hz].
    - assert (E1 : (minX b = (166 - 256) * zoom + w / 2)%R).
      { repeat (destruct Dl as [<-|Dl]; [cbn [pt_x] in HL; lra|]). destruct Dl. }
      assert (E2 : (maxX b = (346 - 256) * zoom + w / 2)%R).
      { repeat (destruct Dr as [<-|Dr]; [cbn [pt_x] in HR; lra|]). destruct Dr. }
      lra.
    - assert (E1 : (minX b = (346 - 256) * zoom + w / 2)%R).
      { repeat (destruct Dl as [<-|Dl]; [cbn [pt_x] in HL; lra|]). destruct Dl. }
      assert (E2 : (maxX b = (166 - 256) * zoom + w / 2)%R).
      { repeat (destruct Dr as [<-|Dr]; [cbn [pt_x] in HR; lra|]). destruct Dr. }
      lra. }
  assert (Hy : (minY b + maxY b = h)%R).
  { unfold DEFAULT_POSE_COORDS in Dt, Du. cbn [In] in Dt, Du.
    destruct (Rle_dec 0 zoom) as [Hz|Hz].
    - assert (E1 : (minY b = (45 - 250) * zoom + h / 2)%R).
      { repeat (destruct Dt as [<-|Dt]; [cbn [pt_y] in HT; lra|]). destruct Dt. }
      assert (E2 : (maxY b = (455 - 250) * zoom + h / 2)%R).
      { repeat (destruct Du as [<-|Du]; [cbn [pt_y] in HU; lra|]). destruct Du. }
      lra.
    - assert (E1 : (minY b = (455 - 250) * zoom + h / 2)%R).
      { repeat (destruct Dt as [<-|Dt]; [cbn [pt_y] in HT; lra|]). destruct Dt. }
      assert (E2 : (maxY b = (45 - 250) * zoom + h / 2)%R).
      { repeat (destruct Du as [<-|Du]; [cbn [pt_y] in HU; lra|]). destruct Du. }
      lra. }
  rewrite Hx, Hy. reflexivity.
Qed.

(** ** Mirror: the two sides agree *)

Lemma mirrored_right_joint (sz : Size) (prev : list Keypoint) (r l : nat)
  (lk rk : Keypoint) :
  In (r, l) MIRROR_PAIRS ->
  find_kp l prev = Some lk -> find_kp r prev = Some rk ->
  find_kp r (mirrorLeftToRight sz prev) = Some (reflect_onto (mirrorAxis sz prev) lk rk)
  /\ find_kp l (mirrorLeftToRight sz prev) = Some lk.
Proof.
  intros Hin Hl Hr. rewrite mirrorLeftToRight_fold.
  destruct mirror_pairs_facts as [Hpairs _].
  rewrite Forall_forall in Hpairs. specialize (Hpairs _ Hin).
  cbn beta iota in Hpairs. destruct Hpairs as [Hlr Hnot].
  split.
  - rewrite (@find_mirror_fold_dst _ _ l r LEFT_TO_RIGHT _ right_ids_nodup Hlr).
    rewrite Hl, Hr. reflexivity.
  - rewrite find_mirror_fold_other by exact Hnot. exact Hl.
Qed.

(** X30. Over the reals, after a left-to-right mirror the right side has
    the limb lengths of the left side: the distance between two mirrored
    right joints is the distance between their left partners, and a joint
    on the axis is as far from a mirrored right joint as from its left
    partner. *)
Theorem mirror_copies_limb_lengths (sz : Size) (prev : list Keypoint)
  (r1 l1 r2 l2 : nat) (lk1 rk1 lk2 rk2 : Keypoint) :
  In (r1, l1) MIRROR_PAIRS -> In (r2, l2) MIRROR_PAIRS ->
  find_kp l1 prev = Some lk1 -> find_kp r1 prev = Some rk1 ->
  find_kp l2 prev = Some lk2 -> find_kp r2 prev = Some rk2 ->
  exists rk1' rk2',
    find_kp r1 (mirrorLeftToRight sz prev) = Some rk1'
    /\ find_kp r2 (mirrorLeftToRight sz prev) = Some rk2'
    /\ dist rk1' rk2' = dist lk1 lk2
    /\ forall c, kp_x c = mirrorAxis sz prev -> dist c rk1' = dist c lk1.
Proof.
  intros H1 H2 Hl1 Hr1 Hl2 Hr2.
  destruct (mirrored_right_joint sz prev H1 Hl1 Hr1) as [E1 _].
  destruct (mirrored_right_joint sz prev H2 Hl2 Hr2) as [E2 _].
  do 2 eexists. split; [exact E1|]. split; [exact E2|].
  unfold dist, reflect_onto. cbn [kp_x kp_y with_xy_visible with_visible with_xy].
  split.
  - f_equal. ring.
  - intros c Hc. rewrite Hc. f_equal. ring.
Qed.

Lemma mirror_copies_limb_lengths_witness :
  exists rk1' rk2' lk1 lk2,
    find_kp 6 (keypoints raisedWristApp) = Some lk1
    /\ find_kp 7 (keypoints raisedWristApp) = Some lk2
    /\ find_kp 3 (mirrorLeftToRight (size raisedWristApp) (keypoints raisedWristApp))
       = Some rk1'
    /\ find_kp 4 (mirrorLeftToRight (size raisedWristApp) (keypoints raisedWristApp))
       = Some rk2'
    /\ dist rk1' rk2' = dist lk1 lk2.
Proof.
  edestruct (@mirror_copies_limb_lengths (size raisedWristApp) (keypoints raisedWristApp)
               3 6 4 7) as [rk1' [rk2' [E1 [E2 [Hd _]]]]].
  - present.
  - present.
  - reflexivity.
  - reflexivity.
  - reflexivity.
  - reflexivity.
  - exists rk1', rk2'. do 2 eexists.
    split; [reflexivity|]. split; [reflexivity|]. auto.
Defined.
